(** * Neuroevolution core: genome codec, policy network, fitness evaluator
      and genetic algorithm engine.

    Shallow embedding of [src/network.py], [src/env_runner.py],
    [src/ga.py] and the merging of configurations of [src/config.py].

    Conventions of the embedding.
    - Python floats and NumPy float arrays are modelled by exact rationals
      ([Q]); rounding, infinities and NaN are outside the model.  Equality of
      genomes is Leibniz equality of the lists of their entries.
    - A raised Python exception is a value [Raise e]; a normal return is
      [Ok v].
    - NumPy and Gymnasium functions the repository calls but does not define
      ([np.tanh], [np.argsort], the random generator, the environment) are
      parameters of the development; what is assumed of them is stated as
      hypotheses where it is used.
    - A Python dict with string keys is a finite map ([gmap]); the order of
      its keys is not modelled, as it does not enter dict equality. *)

From Stdlib Require Import ZArith QArith Qround Lia String.
From Stdlib Require Import Permutation Sorted.
From stdpp Require Import base list gmap strings.

Local Open Scope nat_scope.

(* ===================================================================== *)
(** * Part I.  Definitions                                                 *)
(* ===================================================================== *)

(** ** Exceptions and results *)

Inductive exn : Type :=
| AssertionError (msg : string)
| IndexError
| ValueError
| ZeroDivisionError.

Inductive result (A : Type) : Type :=
| Ok (a : A)
| Raise (e : exn).
Arguments Ok {A} a.
Arguments Raise {A} e.

Definition rbind {A B} (r : result A) (k : A -> result B) : result B :=
  match r with
  | Ok a => k a
  | Raise e => Raise e
  end.

Declare Scope result_scope.
Delimit Scope result_scope with res.
Notation "x <- r ;; k" := (rbind r (fun x => k))
  (at level 100, r at next level, right associativity) : result_scope.

(** ** Float comparison and the NumPy reductions used by the code *)

(** [a < b] on floats. *)
Definition Qltb (a b : Q) : bool :=
  match Qcompare a b with
  | Lt => true
  | _ => false
  end.

(** [np.argmax] scans left to right and keeps the first occurrence of the
    maximum; on an empty array it raises [ValueError]. *)
Fixpoint argmax_from (best_i : nat) (best : Q) (i : nat) (l : list Q) : nat :=
  match l with
  | [] => best_i
  | x :: r =>
      if Qltb best x then argmax_from i x (S i) r
      else argmax_from best_i best (S i) r
  end.

Definition np_argmax (l : list Q) : result nat :=
  match l with
  | [] => Raise ValueError
  | x :: r => Ok (argmax_from 0 x 1 r)
  end.

(** Python slice [l[a:b]] for [0 <= a]; both ends are clipped to the list. *)
Definition py_slice {A} (l : list A) (a b : nat) : list A :=
  take (b - a) (drop a l).

(** Broadcasting of one-dimensional operands: an operand of length one is
    stretched, otherwise the lengths must agree. *)
Definition bcast_len (n m : nat) : option nat :=
  if n =? m then Some n
  else if n =? 1 then Some m
  else if m =? 1 then Some n
  else None.

Definition bcast_get {A} (d : A) (l : list A) (i : nat) : A :=
  if length l =? 1 then nth 0 l d else nth i l d.

(** [a + b] on one-dimensional float arrays. *)
Definition np_add (a b : list Q) : result (list Q) :=
  match bcast_len (length a) (length b) with
  | Some n =>
      Ok (map (fun i => (bcast_get 0%Q a i + bcast_get 0%Q b i)%Q) (seq 0 n))
  | None => Raise ValueError
  end.

(** ** network.py *)

(** A two-dimensional float array: its shape and its entries in row-major
    (C) order, which is how [reshape] lays out the slice it is given. *)
Record matrix : Type := Matrix {
  nrows : nat;
  ncols : nat;
  mdata : list Q
}.

(** Entry [(r, c)] of a row-major matrix. *)
Definition entry (W : matrix) (r c : nat) : Q :=
  nth (r * ncols W + c) (mdata W) 0%Q.

(** [a.reshape(r, c)]: fails unless the array has exactly [r * c] entries. *)
Definition reshape (a : list Q) (r c : nat) : result matrix :=
  if length a =? r * c then Ok (Matrix r c a) else Raise ValueError.

Record FeedForwardNet : Type := Net {
  layer_sizes : list nat;
  shapes : list (nat * nat);
  num_weights : nat;
  weights : list matrix;
  biases : list (list Q)
}.

(** [sum(...)] over natural numbers. *)
Definition py_sum (l : list nat) : nat := fold_left Nat.add l 0.

(** [FeedForwardNet.__init__] *)
Definition FeedForwardNet_init (layer_sizes : list nat) : FeedForwardNet :=
  let shapes :=
    map (fun i => (nth i layer_sizes 0, nth (i + 1) layer_sizes 0))
        (seq 0 (length layer_sizes - 1)) in
  let num_weights :=
    py_sum (map (fun s => fst s * snd s + snd s) shapes) in
  Net layer_sizes shapes num_weights [] [].

Definition genome_length_msg : string :=
  "Genome length does not match expected".

(** The error the codec raises on a genome of the wrong length: the failed
    assertion at the head of [decode]. *)
Definition ShapeMismatch : exn := AssertionError genome_length_msg.

(** The body of the [for (in_dim, out_dim) in self.shapes] loop of [decode],
    threading [idx], [self.weights] and [self.biases]. *)
Fixpoint decode_loop (shapes : list (nat * nat)) (genome : list Q) (idx : nat)
    (ws : list matrix) (bs : list (list Q))
  : result (list matrix * list (list Q)) :=
  match shapes with
  | [] => Ok (ws, bs)
  | (in_dim, out_dim) :: rest =>
      let w_size := in_dim * out_dim in
      let b_size := out_dim in
      (W <- reshape (py_slice genome idx (idx + w_size)) in_dim out_dim ;;
       let idx := idx + w_size in
       let b := py_slice genome idx (idx + b_size) in
       let idx := idx + b_size in
       decode_loop rest genome idx (ws ++ [W]) (bs ++ [b]))%res
  end.

(** [FeedForwardNet.decode]: returns the network with its parameters
    replaced. *)
Definition decode (self : FeedForwardNet) (genome : list Q)
  : result FeedForwardNet :=
  if negb (length genome =? num_weights self) then Raise ShapeMismatch
  else
    (wb <- decode_loop (shapes self) genome 0 [] [] ;;
     Ok (Net (layer_sizes self) (shapes self) (num_weights self)
             (fst wb) (snd wb)))%res.

(** Second definition, following the words of the specification: the flat
    vector rebuilt from decoded parameters, layer by layer, each layer's
    weights in row-major order followed by its biases. *)
Fixpoint encode (ws : list matrix) (bs : list (list Q)) : list Q :=
  match ws, bs with
  | W :: ws', b :: bs' => mdata W ++ b ++ encode ws' bs'
  | _, _ => []
  end.

(** Offset of layer [i]'s slice in the genome. *)
Definition layer_offset (shapes : list (nat * nat)) (i : nat) : nat :=
  py_sum (map (fun s => fst s * snd s + snd s) (take i shapes)).

Definition not_decoded_msg : string :=
  "Network parameters not decoded. Call decode() first.".

Definition NotDecoded : exn := AssertionError not_decoded_msg.

(** What [act] returns: an [int] when [discrete], the logits otherwise. *)
Inductive action : Type :=
| Discrete (a : nat)
| Continuous (logits : list Q).

(** [x @ W] for a vector and a matrix. *)
Definition np_matmul (x : list Q) (W : matrix) : result (list Q) :=
  if length x =? nrows W then
    Ok (map (fun c =>
               fold_left Qplus
                 (map (fun r => (nth r x 0 * entry W r c)%Q) (seq 0 (nrows W)))
                 0%Q)
            (seq 0 (ncols W)))
  else Raise ValueError.

(** [l[:-1]] and [l[-1]]. *)
Definition py_init {A} (l : list A) : list A := take (length l - 1) l.
Definition py_last {A} (l : list A) : result A :=
  match last l with
  | Some x => Ok x
  | None => Raise IndexError
  end.

Section Act.
(** [np.tanh] on one float, and the cast of one float to [float32]. *)
Variable tanh : Q -> Q.
Variable float32 : Q -> Q.

(** The loop [for W, b in zip(self.weights[:-1], self.biases[:-1])]. *)
Fixpoint hidden_loop (layers : list (matrix * list Q)) (x : list Q)
  : result (list Q) :=
  match layers with
  | [] => Ok x
  | (W, b) :: rest =>
      (xW <- np_matmul x W ;;
       z <- np_add xW b ;;
       hidden_loop rest (map tanh z))%res
  end.

(** [FeedForwardNet.act] *)
Definition act (self : FeedForwardNet) (obs : list Q) (discrete : bool)
  : result action :=
  match weights self, biases self with
  | [], _ | _, [] => Raise NotDecoded
  | _, _ =>
      let x := map float32 obs in
      (x <- hidden_loop
                 (zip (py_init (weights self)) (py_init (biases self))) x ;;
       Wl <- py_last (weights self) ;;
       bl <- py_last (biases self) ;;
       xW <- np_matmul x Wl ;;
       logits <- np_add xW bl ;;
       if discrete then
         (a <- np_argmax logits ;; Ok (Discrete a))
       else Ok (Continuous logits))%res
  end.

(** Second definition, following the words of the specification: every
    layer except the last applies [tanh] after the affine transform, the
    last applies the affine transform only. *)
Definition affine (x : list Q) (W : matrix) (b : list Q) : result (list Q) :=
  (xW <- np_matmul x W ;; np_add xW b)%res.

Fixpoint forward_spec (layers : list (matrix * list Q)) (x : list Q)
  : result (list Q) :=
  match layers with
  | [] => Raise IndexError
  | [(W, b)] => affine x W b
  | (W, b) :: rest =>
      (z <- affine x W b ;; forward_spec rest (map tanh z))%res
  end.
End Act.

(** ** env_runner.py *)

Section Evaluate.
(** The Gymnasium environment and the policy are collaborators: their
    types and operations are parameters.  An environment operation returns
    its result (or the exception it raised) and the environment after it. *)
Variables envT obsT actT : Type.
Variable env_reset : option Z -> envT -> result obsT * envT.
Variable env_step :
  actT -> envT -> result (obsT * Q * bool * bool) * envT.
Variable env_render : envT -> envT.
Variable network_act : obsT -> bool -> result actT.

(** The fields of [EnvRunner] that [evaluate] reads. *)
Record EnvRunner : Type := Runner {
  seed : option Z;
  is_discrete : bool
}.

(** The [while not done] loop of one episode.  Each iteration uses one unit
    of [fuel]; [None] means the loop was still running when it ran out. *)
Fixpoint episode_loop (self : EnvRunner) (render : bool) (fuel : nat)
    (obs : obsT) (ep_reward : Q) (env : envT)
  : option (result Q * envT) :=
  match fuel with
  | O => None
  | S fuel' =>
      match network_act obs (is_discrete self) with
      | Raise e => Some (Raise e, env)
      | Ok a =>
          match env_step a env with
          | (Raise e, env) => Some (Raise e, env)
          | (Ok (obs, reward, terminated, truncated), env) =>
              let env := if render then env_render env else env in
              let ep_reward := (ep_reward + reward)%Q in
              let done := terminated || truncated in
              if done then Some (Ok ep_reward, env)
              else episode_loop self render fuel' obs ep_reward env
          end
      end
  end.

(** One iteration of [for ep in range(episodes)], up to and including
    the end of its [while] loop: the episode's return. *)
Definition run_episode (self : EnvRunner) (render : bool) (fuel : nat)
    (ep : nat) (env : envT) : option (result Q * envT) :=
  let reset_seed :=
    match seed self with
    | Some s => Some (s + Z.of_nat ep)%Z
    | None => None
    end in
  match env_reset reset_seed env with
  | (Raise e, env) => Some (Raise e, env)
  | (Ok obs, env) => episode_loop self render fuel obs 0%Q env
  end.

(** The [for ep in range(episodes)] loop, threading [total_reward]. *)
Fixpoint episodes_loop (self : EnvRunner) (render : bool) (fuel : nat)
    (eps : list nat) (total_reward : Q) (env : envT)
  : option (result Q * envT) :=
  match eps with
  | [] => Some (Ok total_reward, env)
  | ep :: rest =>
      match run_episode self render fuel ep env with
      | None => None
      | Some (Raise e, env) => Some (Raise e, env)
      | Some (Ok ep_reward, env) =>
          episodes_loop self render fuel rest
            (total_reward + ep_reward)%Q env
      end
  end.

(** [total / episodes] for a float and an [int]. *)
Definition py_truediv (total : Q) (n : Z) : result Q :=
  if (n =? 0)%Z then Raise ZeroDivisionError
  else Ok (total / inject_Z n)%Q.

(** [EnvRunner.evaluate] *)
Definition evaluate (self : EnvRunner) (fuel : nat) (episodes : Z)
    (render : bool) (env : envT) : option (result Q * envT) :=
  match episodes_loop self render fuel (seq 0 (Z.to_nat episodes))
          0%Q env with
  | None => None
  | Some (Raise e, env) => Some (Raise e, env)
  | Some (Ok total_reward, env) =>
      Some (py_truediv total_reward episodes, env)
  end.

(** Second definition, following the words of the specification: the
    per-episode returns, in order. *)
Fixpoint episode_returns (self : EnvRunner) (render : bool) (fuel : nat)
    (eps : list nat) (env : envT) : option (list Q * envT) :=
  match eps with
  | [] => Some ([], env)
  | ep :: rest =>
      match run_episode self render fuel ep env with
      | Some (Ok r, env) =>
          match episode_returns self render fuel rest env with
          | Some (rs, env) => Some (r :: rs, env)
          | None => None
          end
      | _ => None
      end
  end.

(** The sum of a list of floats, added left to right from [0.0]. *)
Definition Qsum (l : list Q) : Q := fold_left Qplus l 0%Q.
End Evaluate.

Arguments episode_loop {envT obsT actT}.
Arguments run_episode {envT obsT actT}.
Arguments episodes_loop {envT obsT actT}.
Arguments evaluate {envT obsT actT}.
Arguments episode_returns {envT obsT actT}.

(** ** ga.py *)

(** *** NumPy arrays as views on a store of buffers

    [mutate] writes into the array it is given, so arrays are modelled as
    objects: a store of buffers, and an [ndarray] is a (contiguous, C-order)
    view of one of them.  Basic indexing [a[i]] and slicing [a[:k]] give a
    view of the same buffer; fancy indexing, [np.where], [copy], [np.array]
    and [np.vstack] allocate a fresh buffer.  Arrays that are created and
    consumed inside one statement (index and mask arrays, random draws) are
    passed as plain lists.

    The embedding covers the ranks the code is written for: a
    two-dimensional population, whose rows are one-dimensional genomes, and
    a one-dimensional fitness vector.  Where an operation below is marked
    one-dimensional, operands of another rank are outside the model (the
    operation raises on them here).  The sizes [pop_size] and
    [tournament_size] are Python integers of either sign; [genome_length] is
    a length. *)

Record ndarray : Type := NdArray {
  base : nat;
  offset : nat;
  shape : list nat
}.

Abbreviation heap := (list (list Q)).

Definition prod_list (l : list nat) : nat := fold_right Nat.mul 1 l.

(** [a.size] *)
Definition size (a : ndarray) : nat := prod_list (shape a).

(** The entries a view shows, in C order. *)
Definition view_data (h : heap) (a : ndarray) : list Q :=
  take (size a) (drop (offset a) (default [] (h !! base a))).

(** Overwrite the entries a view shows. *)
Definition view_store (h : heap) (a : ndarray) (d : list Q) : heap :=
  alter (fun buf => take (offset a) buf ++ d ++ drop (offset a + size a) buf)
        (base a) h.

(** The random generator ([np.random.Generator]) is a collaborator.  Each
    draw returns its value and the generator's next state.
    [rng_choice a size replace] is [rng.choice(a, size=size, replace=replace)],
    [rng_random] is [rng.random()], [rng_random_n n] is [rng.random(n)] and
    [rng_normal loc scale n] is [rng.normal(loc, scale, size=n)]. *)
Class Generator : Type := {
  rng_state : Type;
  rng_choice : Z -> Z -> bool -> rng_state -> result (list nat) * rng_state;
  rng_random : rng_state -> Q * rng_state;
  rng_random_n : nat -> rng_state -> list Q * rng_state;
  rng_normal : Q -> Q -> nat -> rng_state -> result (list Q) * rng_state
}.

(** [np.argsort] of a float vector (default [kind], not stable). *)
Class ArgSort : Type := {
  np_argsort : list Q -> list nat
}.

Section GA.
Context {G : Generator} {AS : ArgSort}.

Record state : Type := State {
  st_heap : heap;
  st_rng : rng_state
}.

(** Computations that read and write the store, draw from the generator
    and may raise. *)
Definition M (A : Type) : Type := state -> result A * state.

Definition ret {A} (a : A) : M A := fun s => (Ok a, s).

Definition raise {A} (e : exn) : M A := fun s => (Raise e, s).

Definition bind {A B} (m : M A) (k : A -> M B) : M B :=
  fun s =>
    match m s with
    | (Ok a, s') => k a s'
    | (Raise e, s') => (Raise e, s')
    end.

Definition lift {A} (r : result A) : M A := fun s => (r, s).

Definition draw {A} (f : rng_state -> A * rng_state) : M A :=
  fun s =>
    let (a, g) := f (st_rng s) in (Ok a, State (st_heap s) g).

Definition draw_result {A} (f : rng_state -> result A * rng_state) : M A :=
  fun s =>
    let (r, g) := f (st_rng s) in (r, State (st_heap s) g).

Definition read (a : ndarray) : M (list Q) :=
  fun s => (Ok (view_data (st_heap s) a), s).

Definition write (a : ndarray) (d : list Q) : M unit :=
  fun s => (Ok tt, State (view_store (st_heap s) a d) (st_rng s)).

(** A fresh buffer holding [d], seen with shape [sh]. *)
Definition alloc (sh : list nat) (d : list Q) : M ndarray :=
  fun s =>
    (Ok (NdArray (length (st_heap s)) 0 sh),
     State (st_heap s ++ [d]) (st_rng s)).
End GA.

Declare Scope ga_scope.
Delimit Scope ga_scope with ga.
Notation "x <- m ;; k" := (bind m (fun x => k))
  (at level 100, m at next level, right associativity) : ga_scope.

Section GAOps.
Context {G : Generator} {AS : ArgSort}.
Local Open Scope ga_scope.

(** A Python [for] loop over [l] that threads the variables [acc]. *)
Fixpoint for_each {A S} (l : list A) (body : A -> S -> M S) (acc : S)
  : M S :=
  match l with
  | [] => ret acc
  | x :: rest => acc' <- body x acc ;; for_each rest body acc'
  end.

(** [range(n)] and [range(0, stop, 2)]. *)
Definition py_range (n : Z) : list nat := seq 0 (Z.to_nat n).

Definition py_range2 (stop : Z) : list nat :=
  map (fun k => 2 * k) (seq 0 (Z.to_nat ((stop + 1) / 2))).

(** [l[i]] on a Python list, for [0 <= i]. *)
Definition py_getitem {A} (l : list A) (i : nat) : result A :=
  match l !! i with
  | Some x => Ok x
  | None => Raise IndexError
  end.

(** [l[-n:]] for [n >= 1]: the last [n] entries (all of them if fewer). *)
Definition py_lastn {A} (n : nat) (l : list A) : list A :=
  drop (length l - n) l.

(** [int(q)]: truncation toward zero. *)
Definition py_int (q : Q) : Z := Z.quot (Qnum q) (Zpos (Qden q)).

(** The stop of a slice [[:k]] on an axis of length [n]. *)
Definition slice_stop (n : nat) (k : Z) : nat :=
  if (k <? 0)%Z then Z.to_nat (Z.of_nat n + k)
  else Nat.min (Z.to_nat k) n.

(** [a.shape[0]] *)
Definition shape0 (a : ndarray) : result nat :=
  match shape a with
  | n :: _ => Ok n
  | [] => Raise IndexError
  end.

(** [a[i]] for an integer [i >= 0]: a view of row [i]. *)
Definition np_row (a : ndarray) (i : nat) : result ndarray :=
  match shape a with
  | n :: rest =>
      if i <? n
      then Ok (NdArray (base a) (offset a + i * prod_list rest) rest)
      else Raise IndexError
  | [] => Raise IndexError
  end.

(** [a[:k]]: a view of the first rows. *)
Definition np_slice0 (a : ndarray) (k : Z) : result ndarray :=
  match shape a with
  | n :: rest => Ok (NdArray (base a) (offset a) (slice_stop n k :: rest))
  | [] => Raise IndexError
  end.

(** [a[idx]] for an array [idx] of non-negative integers, read as a list:
    the entries of a one-dimensional [a] at [idx]. *)
Definition np_take_values (a : ndarray) (idx : list nat) : M (list Q) :=
  match shape a with
  | [n] =>
      if forallb (fun i => i <? n) idx then
        d <- read a ;; ret (map (fun i => nth i d 0%Q) idx)
      else raise IndexError
  | _ => raise IndexError
  end.

(** [a[idx]] for an array [idx] of non-negative integers: a new array
    holding the rows of [a] at [idx]. *)
Definition np_take_rows (a : ndarray) (idx : list nat) : M ndarray :=
  match shape a with
  | n :: rest =>
      if forallb (fun i => i <? n) idx then
        d <- read a ;;
        let w := prod_list rest in
        alloc (length idx :: rest)
              (concat (map (fun i => py_slice d (i * w) (i * w + w)) idx))
      else raise IndexError
  | [] => raise IndexError
  end.

(** [np.empty(shape)]; the entries are unspecified, zero here. *)
Definition np_empty (sh : list nat) : M ndarray :=
  alloc sh (replicate (prod_list sh) 0%Q).

(** [a.copy()] *)
Definition np_copy (a : ndarray) : M ndarray :=
  d <- read a ;; alloc (shape a) d.

(** [np.where(mask, a, b)] for a one-dimensional mask and operands of at
    most one dimension, with broadcasting. *)
Definition np_where (mask : list bool) (a b : ndarray) : M ndarray :=
  da <- read a ;;
  db <- read b ;;
  match bcast_len (length da) (length db) with
  | Some n =>
      match bcast_len (length mask) n with
      | Some n =>
          alloc [n]
            (map (fun i =>
                    if bcast_get false mask i then bcast_get 0%Q da i
                    else bcast_get 0%Q db i)
                 (seq 0 n))
      | None => raise ValueError
      end
  | None => raise ValueError
  end.

(** [a[mask] += noise[mask]] for one-dimensional [a]: boolean masks must
    have the length of the array they index. *)
Definition np_iadd_masked (a : ndarray) (mask : list bool) (noise : list Q)
  : M unit :=
  d <- read a ;;
  if (length mask =? length noise) && (length mask =? length d) then
    write a (map (fun i =>
                    if nth i mask false then (nth i d 0 + nth i noise 0)%Q
                    else nth i d 0%Q)
                 (seq 0 (length d)))
  else raise IndexError.

(** [np.array(l)] for a Python list of arrays: empty list gives shape
    [(0,)]; arrays of one common shape are stacked; otherwise it raises. *)
Definition np_array (l : list ndarray) : M ndarray :=
  match l with
  | [] => alloc [0] []
  | a :: _ =>
      if forallb (fun b => bool_decide (shape b = shape a)) l then
        ds <- for_each l (fun b acc => d <- read b ;; ret (acc ++ d)) [] ;;
        alloc (length l :: shape a) ds
      else raise ValueError
  end.

(** [np.atleast_2d] on a shape. *)
Definition atleast_2d (sh : list nat) : list nat :=
  match sh with
  | [] => [1; 1]
  | [n] => [1; n]
  | _ => sh
  end.

(** [np.vstack([a, b])]: both are made at least two-dimensional and
    concatenated along the first axis; the other axes must agree. *)
Definition np_vstack (a b : ndarray) : M ndarray :=
  match atleast_2d (shape a), atleast_2d (shape b) with
  | n :: ra, m :: rb =>
      if bool_decide (ra = rb) then
        da <- read a ;; db <- read b ;; alloc (n + m :: ra) (da ++ db)
      else raise ValueError
  | _, _ => raise ValueError
  end.

(** *** The genetic algorithm *)

Record GeneticAlgorithm : Type := GA {
  pop_size : Z;
  genome_length : nat;
  crossover_rate : Q;
  mutation_rate : Q;
  mutation_sigma : Q;
  tournament_size : Z;
  elitism : bool;
  elitism_frac : Q
}.

(** [GeneticAlgorithm.__init__]: the generator it stores is the [st_rng]
    component of the state. *)
Definition GeneticAlgorithm_init (pop_size : Z) (genome_length : nat)
    (crossover_rate mutation_rate mutation_sigma : Q) (tournament_size : Z)
    (elitism : bool) (elitism_frac : Q) : result GeneticAlgorithm :=
  Ok (GA pop_size genome_length crossover_rate mutation_rate mutation_sigma
         tournament_size elitism elitism_frac).

(** One tournament: the body of the loop of [tournament_selection]. *)
Definition tournament (self : GeneticAlgorithm) (fitnesses : ndarray)
  : M nat :=
  contenders <-
    draw_result (rng_choice (pop_size self) (tournament_size self) false) ;;
  fc <- np_take_values fitnesses contenders ;;
  am <- lift (np_argmax fc) ;;
  lift (py_getitem contenders am).

(** [GeneticAlgorithm.tournament_selection] *)
Definition tournament_selection (self : GeneticAlgorithm)
    (fitnesses : ndarray) : M (list nat) :=
  for_each (py_range (pop_size self))
    (fun _ parents =>
       winner <- tournament self fitnesses ;;
       ret (parents ++ [winner]))
    [].

(** [GeneticAlgorithm.crossover] *)
Definition crossover (self : GeneticAlgorithm) (parent1 parent2 : ndarray)
  : M (ndarray * ndarray) :=
  u <- draw rng_random ;;
  if Qltb u (crossover_rate self) then
    r <- draw (rng_random_n (genome_length self)) ;;
    let mask := map (fun x => Qltb x (1 # 2)) r in
    child1 <- np_where mask parent1 parent2 ;;
    child2 <- np_where mask parent2 parent1 ;;
    ret (child1, child2)
  else
    child1 <- np_copy parent1 ;;
    child2 <- np_copy parent2 ;;
    ret (child1, child2).

(** [GeneticAlgorithm.mutate]: changes [genome] in place and returns it. *)
Definition mutate (self : GeneticAlgorithm) (genome : ndarray) : M ndarray :=
  r <- draw (rng_random_n (genome_length self)) ;;
  let mutation_mask := map (fun x => Qltb x (mutation_rate self)) r in
  noise <-
    draw_result (rng_normal 0 (mutation_sigma self) (genome_length self)) ;;
  _ <- np_iadd_masked genome mutation_mask noise ;;
  ret genome.

(** The elite block of [step]. *)
Definition select_elites (self : GeneticAlgorithm)
    (population fitnesses : ndarray) : M ndarray :=
  if elitism self && Qltb 0 (elitism_frac self) then
    let n_elites :=
      Z.max 1 (py_int (elitism_frac self * inject_Z (pop_size self))) in
    f <- read fitnesses ;;
    let elite_indices := py_lastn (Z.to_nat n_elites) (np_argsort f) in
    np_take_rows population elite_indices
  else np_empty [0; genome_length self].

(** The body of the loop [for i in range(0, ..., 2)] of [step]. *)
Definition breed (self : GeneticAlgorithm) (population : ndarray)
    (parent_indices : list nat) (i : nat) (new_pop : list ndarray)
  : M (list ndarray) :=
  idx1 <- lift (py_getitem parent_indices i) ;;
  idx2 <- lift (py_getitem parent_indices (i + 1)) ;;
  p1 <- lift (np_row population idx1) ;;
  p2 <- lift (np_row population idx2) ;;
  children <- crossover self p1 p2 ;;
  let (c1, c2) := children : ndarray * ndarray in
  m1 <- mutate self c1 ;;
  let new_pop := new_pop ++ [m1] in
  m2 <- mutate self c2 ;;
  ret (new_pop ++ [m2]).

(** [GeneticAlgorithm.step] *)
Definition step (self : GeneticAlgorithm) (population fitnesses : ndarray)
  : M ndarray :=
  elites <- select_elites self population fitnesses ;;
  parent_indices <- tournament_selection self fitnesses ;;
  n_el <- lift (shape0 elites) ;;
  let remaining := (pop_size self - Z.of_nat n_el)%Z in
  new_pop <-
    for_each (py_range2 remaining) (breed self population parent_indices) [] ;;
  arr <- np_array new_pop ;;
  new_pop <- lift (np_slice0 arr remaining) ;;
  if negb (size elites =? 0) then np_vstack new_pop elites
  else ret new_pop.
End GAOps.

(** ** A small deterministic generator and a stable argsort

    One admissible behaviour of the collaborators, used to run the code on
    concrete inputs.  The generator's state is a counter.  Sampling without
    replacement returns a rotation of [0, a) cut to the requested size. *)

Definition demo_float (g i : nat) : Q := Z.of_nat ((g + i) mod 10) # 10.

Definition demo_choice (a size : Z) (replace : bool) (g : nat)
  : result (list nat) * nat :=
  if (size <? 0)%Z || (a <=? 0)%Z || (negb replace && (a <? size)%Z)
  then (Raise ValueError, g)
  else
    let n := Z.to_nat a in
    (Ok (take (Z.to_nat size) (rotate (g mod n) (seq 0 n))), S g).

Definition demo_normal (loc scale : Q) (n : nat) (g : nat)
  : result (list Q) * nat :=
  if Qltb scale 0 then (Raise ValueError, g)
  else
    (Ok (map (fun i => (loc + scale * (demo_float g i - (1 # 2)))%Q)
             (seq 0 n)),
     S g).

Definition demo_generator : Generator := {|
  rng_state := nat;
  rng_choice := demo_choice;
  rng_random := fun g => (demo_float g 0, S g);
  rng_random_n := fun n g => (map (demo_float g) (seq 0 n), S g);
  rng_normal := demo_normal
|}.

(** Insertion of index [i] into a list of indices sorted by [f], after the
    indices whose value is not greater. *)
Fixpoint insert_index (f : list Q) (i : nat) (l : list nat) : list nat :=
  match l with
  | [] => [i]
  | j :: r =>
      if Qltb (nth i f 0%Q) (nth j f 0%Q) then i :: j :: r
      else j :: insert_index f i r
  end.

Definition insertion_argsort (f : list Q) : list nat :=
  fold_left (fun acc i => insert_index f i acc) (seq 0 (length f)) [].

Definition demo_argsort : ArgSort := {| np_argsort := insertion_argsort |}.

(** Second definition, following the words of the specification: the genome
    length [L] of a topology, the sum of [in_i * out_i + out_i] over
    consecutive layer pairs. *)
Fixpoint topology_length (layer_sizes : list nat) : nat :=
  match layer_sizes with
  | in_dim :: (out_dim :: _) as rest =>
      in_dim * out_dim + out_dim + topology_length rest
  | _ => 0
  end.

(** A network object of topology [ls]: as built by the constructor, with
    whatever parameters earlier calls of [decode] left in it. *)
Definition net_of (ls : list nat) (ws : list matrix) (bs : list (list Q))
  : FeedForwardNet :=
  Net ls (shapes (FeedForwardNet_init ls)) (num_weights (FeedForwardNet_init ls))
      ws bs.

(** The parameters [decode_loop] produces from offset [idx] on, as a pure
    function of the genome. *)
Fixpoint layers_from (shapes : list (nat * nat)) (genome : list Q) (idx : nat)
  : list (matrix * list Q) :=
  match shapes with
  | [] => []
  | (in_dim, out_dim) :: rest =>
      let w_size := in_dim * out_dim in
      (Matrix in_dim out_dim (py_slice genome idx (idx + w_size)),
       py_slice genome (idx + w_size) (idx + w_size + out_dim))
      :: layers_from rest genome (idx + w_size + out_dim)
  end.

Definition layer_size (s : nat * nat) : nat := fst s * snd s + snd s.

(** ** Vocabulary of the properties *)

(** What it means for [a] to be the index [np.argmax] returns on [l]: a
    position of the maximum, and the first one. *)
Definition first_max (l : list Q) (a : nat) : Prop :=
  a < length l
  /\ (forall j, j < length l -> (nth j l 0 <= nth a l 0)%Q)
  /\ (forall j, j < a -> (nth j l 0 < nth a l 0)%Q).

(** [wf h a]: the view [a] lies inside its buffer in the store [h]. *)
Definition wf (h : heap) (a : ndarray) : Prop :=
  exists buf, h !! base a = Some buf /\ offset a + size a <= length buf.

(** What is assumed of the generator: sampling [size] out of [a >= 1]
    without replacement, for [0 <= size <= a], returns [size] distinct
    integers below [a]; [random(n)] returns [n] floats; [normal] with a
    non-negative scale returns [n] floats. *)
Class GeneratorSpec (G : Generator) : Prop := {
  choice_spec : forall (a size : Z) (g : rng_state),
    (1 <= a)%Z -> (0 <= size <= a)%Z ->
    exists l g',
      rng_choice a size false g = (Ok l, g')
      /\ length l = Z.to_nat size
      /\ NoDup l
      /\ Forall (fun i => i < Z.to_nat a) l;
  random_n_spec : forall (n : nat) (g : rng_state),
    length (rng_random_n n g).1 = n;
  normal_spec : forall (loc scale : Q) (n : nat) (g : rng_state),
    (0 <= scale)%Q ->
    exists l g', rng_normal loc scale n g = (Ok l, g') /\ length l = n
}.

(** What is assumed of [np.argsort]: the result is a permutation of the
    positions of its argument, along which the entries do not decrease.  The
    order of positions holding equal entries is not specified. *)
Class ArgSortSpec (AS : ArgSort) : Prop := {
  argsort_perm : forall f : list Q, np_argsort f ≡ₚ seq 0 (length f);
  argsort_sorted : forall (f : list Q) (i j a b : nat),
    i <= j ->
    np_argsort f !! i = Some a -> np_argsort f !! j = Some b ->
    (nth a f 0 <= nth b f 0)%Q
}.

(** [es] is a choice of the [n] fittest individuals among [0, P): [n]
    distinct positions such that no position left out is strictly fitter
    than one taken. *)
Definition top_indices (f : list Q) (P n : nat) (es : list nat) : Prop :=
  length es = n
  /\ NoDup es
  /\ (forall e, e ∈ es -> e < P)
  /\ (forall e j, e ∈ es -> j < P -> j ∉ es -> (nth j f 0 <= nth e f 0)%Q).

(** The number of elites [step] asks for. *)
Definition n_elites (self : GeneticAlgorithm) : nat :=
  Z.to_nat (Z.max 1 (py_int (elitism_frac self * inject_Z (pop_size self)))).

Section Vocabulary.
Context {G : Generator} {AS : ArgSort}.

(** [stable n s s']: the store only grew and its first [n] buffers hold
    what they held. *)
Definition stable (n : nat) (s s' : state) : Prop :=
  length (st_heap s) <= length (st_heap s')
  /\ forall l, l < n -> st_heap s' !! l = st_heap s !! l.

(** [framed n m P]: run from any store with at least [n] buffers, [m]
    leaves the first [n] untouched, and a value it returns satisfies [P]. *)
Definition framed {A} (n : nat) (m : M A) (P : A -> Prop) : Prop :=
  forall s, n <= length (st_heap s) ->
    stable n s (m s).2
    /\ match (m s).1 with Ok a => P a | Raise _ => True end.

(** An array whose buffer was allocated after the first [n]. *)
Definition fresh (n : nat) (a : ndarray) : Prop := n <= base a.

(** [grows s s']: every buffer of [s] is still there in [s'], with the same
    length. *)
Definition grows (s s' : state) : Prop :=
  forall l buf, st_heap s !! l = Some buf ->
    exists buf', st_heap s' !! l = Some buf' /\ length buf' = length buf.

(** All children bred so far are one-dimensional of the genome's length and
    lie inside their buffers. *)
Definition children_ok (L : nat) (s : state) (new_pop : list ndarray) : Prop :=
  Forall (fun c => shape c = [L] /\ wf (st_heap s) c) new_pop.

(** [w] won a tournament among [tournament_size] distinct individuals
    drawn without replacement from [0, pop_size): it is the drawn
    individual of greatest fitness, the first drawn among equals. *)
Definition tournament_winner (self : GeneticAlgorithm) (f : list Q)
    (w : nat) : Prop :=
  exists g contenders g' k,
    rng_choice (pop_size self) (tournament_size self) false g
    = (Ok contenders, g')
    /\ length contenders = Z.to_nat (tournament_size self)
    /\ NoDup contenders
    /\ Forall (fun i => i < Z.to_nat (pop_size self)) contenders
    /\ contenders !! k = Some w
    /\ first_max (map (fun i => nth i f 0%Q) contenders) k.

End Vocabulary.

(** ** Concrete inputs *)

(** A store holding a population of three genomes of length two and their
    fitness vector. *)
Definition demo_heap : heap :=
  [[1; 2; 3; 4; 5; 6]%Q; [3; 1; 2]%Q].

Definition demo_population : ndarray := NdArray 0 0 [3; 2].

Definition demo_fitnesses : ndarray := NdArray 1 0 [3].

Definition demo_state : @state demo_generator :=
  @State demo_generator demo_heap (0 : nat).

(** A toy environment: its state counts the steps since the last reset, every
    step pays reward 1 and the episode terminates at the third step. *)
Definition counter_reset (_ : option Z) (_ : nat) : result unit * nat :=
  (Ok tt, 0).

Definition counter_step (_ : unit) (e : nat)
  : result (unit * Q * bool * bool) * nat :=
  (Ok (tt, 1%Q, 2 <=? e, false), S e).

Definition constant_policy (_ : unit) (_ : bool) : result unit := Ok tt.

(** ** config.py *)

(** A value of a parsed configuration: a mapping with string keys, or any
    other Python object (a scalar, a sequence), which [deep_merge] never
    looks into. *)
#[warnings="-register-all"] Inductive value (A : Type) : Type :=
  | Leaf (a : A)
  | Dict (m : gmap string (value A)).
Arguments Leaf {A} a.
Arguments Dict {A} m.

(** One round of the loop of [deep_merge]: what [merged[key]] becomes, from
    what [default] and [override] hold at [key] ([None] when the key is
    absent; the loop only visits keys present in one of them).  [rec] is
    the recursive call. *)
Definition merge_key {A} (rec : value A -> value A -> value A)
    (d o : option (value A)) : option (value A) :=
  match d, o with
  | Some dv, Some ov =>
      match dv, ov with
      | Dict _, Dict _ => Some (rec dv ov)
      | _, _ => Some ov
      end
  | None, Some ov => Some ov
  | Some dv, None => Some dv
  | None, None => None
  end.

(** [deep_merge] as called on two values that are both dicts; on any other
    pair the caller keeps the override. *)
Fixpoint deep_merge_value {A} (d o : value A) {struct d} : value A :=
  match d, o with
  | Dict md, Dict mo => Dict (merge (merge_key deep_merge_value) md mo)
  | _, _ => o
  end.

(** [deep_merge(default, override)]: the new dict holds, for every key of
    either argument, the value the loop assigns to it. *)
Definition deep_merge {A} (default override : gmap string (value A))
  : gmap string (value A) :=
  merge (merge_key deep_merge_value) default override.

(** The loop of [deep_merge] as written: from the empty dict, one assignment
    per key of [set(default) | set(override)], in the order the set is
    iterated. *)
Definition deep_merge_loop {A} (rec : value A -> value A -> value A)
    (default override : gmap string (value A)) : gmap string (value A) :=
  set_fold (fun key merged =>
              match merge_key rec (default !! key) (override !! key) with
              | Some v => <[key := v]> merged
              | None => merged
              end)
           ∅ (dom default ∪ dom override).

(** The value reached from [v] by following the keys of [path]. *)
Fixpoint get_path {A} (path : list string) (v : value A) : option (value A) :=
  match path with
  | [] => Some v
  | k :: rest =>
      match v with
      | Dict m =>
          match m !! k with
          | Some v' => get_path rest v'
          | None => None
          end
      | Leaf _ => None
      end
  end.

(** [override] says nothing about [path]: following the path in it ends at
    a missing key, passing only through dicts. *)
Fixpoint silent_on {A} (path : list string) (o : value A) : Prop :=
  match path with
  | [] => False
  | k :: rest =>
      match o with
      | Dict m =>
          match m !! k with
          | Some o' => silent_on rest o'
          | None => True
          end
      | Leaf _ => False
      end
  end.

(** The number of values held in [v], itself included: the measure of the
    induction on nested dicts. *)
Fixpoint value_size {A} (v : value A) : nat :=
  match v with
  | Leaf _ => 1
  | Dict m => S (map_fold (fun _ v' n => value_size v' + n) 0 m)
  end.

(** The exception [load_experiments] raises. *)
Inductive config_error : Type :=
  | KeyError (msg : string).

Definition missing_env_msg : string :=
  "Each experiment entry must have an 'env' key specifying the environment ID.".

(** [merged['env_id'] = merged.pop('env')] *)
Definition rename_env {A} (merged : gmap string (value A))
  : config_error + gmap string (value A) :=
  match merged !! "env"%string with
  | Some v => inr (<["env_id"%string := v]> (delete "env"%string merged))
  | None => inl (KeyError "env")
  end.

(** The loop of [load_experiments] over the experiments of the parsed
    file. *)
Fixpoint load_experiments {A} (default_cfg : gmap string (value A))
    (experiments : list (gmap string (value A)))
  : config_error + list (gmap string (value A)) :=
  match experiments with
  | [] => inr []
  | exp :: rest =>
      match exp !! "env"%string with
      | None => inl (KeyError missing_env_msg)
      | Some _ =>
          match rename_env (deep_merge default_cfg exp) with
          | inl e => inl e
          | inr merged =>
              match load_experiments default_cfg rest with
              | inl e => inl e
              | inr merged_list => inr (merged :: merged_list)
              end
          end
      end
  end.

(** Defaults and one experiment, as a configuration file would give them. *)
Definition demo_default : gmap string (value string) :=
  {[ "env"%string := Leaf "Default-v0"%string;
     "generations"%string := Leaf "50"%string;
     "ga_params"%string :=
       Dict {[ "pop_size"%string := Leaf "100"%string;
               "elitism"%string := Leaf "True"%string ]} ]}.

Definition demo_experiment : gmap string (value string) :=
  {[ "env"%string := Leaf "CartPole-v1"%string;
     "ga_params"%string := Dict {[ "pop_size"%string := Leaf "50"%string ]} ]}.

(* ===================================================================== *)
(** * Part II.  Properties                                                 *)
(* ===================================================================== *)

(** ** Lists, sums and slices *)

Lemma py_sum_acc (l : list nat) (a : nat) :
  fold_left Nat.add l a = a + py_sum l.
Proof.
  unfold py_sum. revert a.
  induction l as [|x l IH]; intros a; simpl; [lia|].
  rewrite (IH (a + x)), (IH x). lia.
Qed.

Lemma py_sum_cons (x : nat) (l : list nat) : py_sum (x :: l) = x + py_sum l.
Proof. unfold py_sum at 1. simpl. apply py_sum_acc. Qed.

Lemma py_slice_length {A} (l : list A) (a b : nat) :
  b <= length l -> length (py_slice l a b) = b - a.
Proof.
  intros Hb. unfold py_slice. rewrite length_take, length_drop. lia.
Qed.

Lemma py_slice_app {A} (l : list A) (a b c : nat) :
  a <= b -> b <= c -> py_slice l a b ++ py_slice l b c = py_slice l a c.
Proof.
  intros Hab Hbc. unfold py_slice.
  replace (c - a) with ((b - a) + (c - b)) by lia.
  rewrite <- take_take_drop, drop_drop.
  replace (a + (b - a)) with b by lia. reflexivity.
Qed.

Lemma py_slice_all {A} (l : list A) : py_slice l 0 (length l) = l.
Proof. unfold py_slice. rewrite drop_0, Nat.sub_0_r. apply firstn_all. Qed.

Lemma py_slice_nth {A} (l : list A) (a b i : nat) (d : A) :
  i < b - a -> nth i (py_slice l a b) d = nth (a + i) l d.
Proof.
  intros Hi. unfold py_slice.
  rewrite !nth_lookup, lookup_take_lt, lookup_drop by lia. reflexivity.
Qed.

(** ** network.py: the genome codec *)

Lemma shapes_init_cons (a b : nat) (ls : list nat) :
  shapes (FeedForwardNet_init (a :: b :: ls))
  = (a, b) :: shapes (FeedForwardNet_init (b :: ls)).
Proof.
  unfold FeedForwardNet_init. simpl shapes. simpl length.
  rewrite !Nat.sub_0_r. simpl seq. simpl map. f_equal.
  rewrite <- seq_shift, map_map. reflexivity.
Qed.

Lemma shapes_init_length (ls : list nat) :
  length (shapes (FeedForwardNet_init ls)) = length ls - 1.
Proof. simpl. rewrite length_map, length_seq. reflexivity. Qed.

Lemma shapes_init_lookup (ls : list nat) (i : nat) :
  i < length ls - 1 ->
  shapes (FeedForwardNet_init ls) !! i = Some (nth i ls 0, nth (i + 1) ls 0).
Proof.
  intros Hi. simpl. rewrite list_lookup_fmap, lookup_seq_lt by lia.
  reflexivity.
Qed.

Lemma num_weights_init (ls : list nat) :
  num_weights (FeedForwardNet_init ls) = topology_length ls.
Proof.
  change (num_weights (FeedForwardNet_init ls))
    with (py_sum (map layer_size (shapes (FeedForwardNet_init ls)))).
  induction ls as [|a [|b ls] IH]; try reflexivity.
  rewrite shapes_init_cons, map_cons, py_sum_cons, IH.
  reflexivity.
Qed.

Lemma decode_loop_layers (shapes : list (nat * nat)) (genome : list Q) :
  forall idx ws bs,
    idx + py_sum (map layer_size shapes) <= length genome ->
    decode_loop shapes genome idx ws bs
    = Ok (ws ++ map fst (layers_from shapes genome idx),
          bs ++ map snd (layers_from shapes genome idx)).
Proof.
  induction shapes as [|[i o] rest IH]; intros idx ws bs Hlen.
  - simpl. rewrite !app_nil_r. reflexivity.
  - simpl map in Hlen. rewrite py_sum_cons in Hlen.
    unfold layer_size at 1 in Hlen. simpl fst in Hlen. simpl snd in Hlen.
    simpl. unfold reshape.
    rewrite py_slice_length by lia.
    replace (idx + i * o - idx) with (i * o) by lia.
    rewrite Nat.eqb_refl. simpl.
    rewrite IH by lia. rewrite <- !app_assoc. reflexivity.
Qed.

Lemma layers_from_length (shapes : list (nat * nat)) (genome : list Q) idx :
  length (layers_from shapes genome idx) = length shapes.
Proof.
  revert idx. induction shapes as [|[i o] rest IH]; intros idx; simpl;
    [reflexivity | rewrite IH; reflexivity].
Qed.

Lemma layer_offset_0 (shapes : list (nat * nat)) : layer_offset shapes 0 = 0.
Proof. reflexivity. Qed.

Lemma layer_offset_cons (s : nat * nat) (shapes : list (nat * nat)) (i : nat) :
  layer_offset (s :: shapes) (S i) = layer_size s + layer_offset shapes i.
Proof. unfold layer_offset. simpl. rewrite py_sum_cons. reflexivity. Qed.

Lemma layer_offset_S (shapes : list (nat * nat)) (i : nat) (s : nat * nat) :
  shapes !! i = Some s ->
  layer_offset shapes (S i) = layer_offset shapes i + layer_size s.
Proof.
  revert i. induction shapes as [|s' shapes IH]; intros [|i] Hs;
    try discriminate.
  - injection Hs as ->. rewrite layer_offset_cons, !layer_offset_0. lia.
  - rewrite !layer_offset_cons. simpl in Hs. rewrite (IH _ Hs). lia.
Qed.

Lemma layer_offset_all (shapes : list (nat * nat)) :
  layer_offset shapes (length shapes) = py_sum (map layer_size shapes).
Proof. unfold layer_offset. rewrite firstn_all. reflexivity. Qed.

Lemma layer_offset_le (shapes : list (nat * nat)) (i : nat) :
  layer_offset shapes i <= py_sum (map layer_size shapes).
Proof.
  revert i. induction shapes as [|s shapes IH]; intros [|i];
    try (unfold layer_offset, py_sum; simpl; lia).
  rewrite layer_offset_cons, map_cons, py_sum_cons.
  specialize (IH i). lia.
Qed.

Lemma layers_from_lookup (shapes : list (nat * nat)) (genome : list Q) :
  forall idx i in_dim out_dim,
    shapes !! i = Some (in_dim, out_dim) ->
    let off := idx + layer_offset shapes i in
    layers_from shapes genome idx !! i
    = Some (Matrix in_dim out_dim
              (py_slice genome off (off + in_dim * out_dim)),
            py_slice genome (off + in_dim * out_dim)
              (off + in_dim * out_dim + out_dim)).
Proof.
  induction shapes as [|[a b] rest IH]; intros idx [|i] in_dim out_dim Hs;
    try discriminate.
  - injection Hs as -> ->. simpl. rewrite layer_offset_0, Nat.add_0_r.
    reflexivity.
  - simpl in Hs. cbn zeta. rewrite layer_offset_cons.
    unfold layer_size. simpl fst. simpl snd.
    simpl. rewrite (IH _ _ _ _ Hs). cbn zeta.
    replace (idx + a * b + b + layer_offset rest i)
      with (idx + (a * b + b + layer_offset rest i)) by lia.
    reflexivity.
Qed.

Lemma encode_layers_from (shapes : list (nat * nat)) (genome : list Q) :
  forall idx,
    idx + py_sum (map layer_size shapes) <= length genome ->
    encode (map fst (layers_from shapes genome idx))
           (map snd (layers_from shapes genome idx))
    = py_slice genome idx (idx + py_sum (map layer_size shapes)).
Proof.
  induction shapes as [|[a b] rest IH]; intros idx Hlen.
  - simpl. unfold py_slice. rewrite Nat.add_0_r, Nat.sub_diag. reflexivity.
  - simpl map in *. rewrite py_sum_cons in *.
    unfold layer_size at 1 in Hlen. unfold layer_size at 1.
    simpl fst in *. simpl snd in *.
    simpl encode. rewrite IH by lia.
    rewrite !py_slice_app by lia. f_equal. lia.
Qed.

Lemma decode_ok (ls : list nat) (ws : list matrix) (bs : list (list Q))
    (genome : list Q) :
  length genome = topology_length ls ->
  decode (net_of ls ws bs) genome
  = Ok (net_of ls
          (map fst (layers_from (shapes (FeedForwardNet_init ls)) genome 0))
          (map snd (layers_from (shapes (FeedForwardNet_init ls)) genome 0))).
Proof.
  intros Hlen. unfold decode, net_of.
  cbn [num_weights shapes layer_sizes].
  change (num_weights (FeedForwardNet_init ls))
    with (py_sum (map layer_size (shapes (FeedForwardNet_init ls)))) at 1.
  pose proof (num_weights_init ls) as Hn.
  change (num_weights (FeedForwardNet_init ls))
    with (py_sum (map layer_size (shapes (FeedForwardNet_init ls)))) in Hn.
  rewrite Hn, <- Hlen, Nat.eqb_refl. cbn [negb].
  rewrite decode_loop_layers by (rewrite Hn; lia).
  reflexivity.
Qed.

(** C9.  [decode] raises the codec's shape-mismatch error exactly when the
    genome's length differs from the topology-derived length [L], the sum of
    [in_i * out_i + out_i] over consecutive layer pairs; on a genome of
    length [L] it succeeds and leaves one [in_i x out_i] weight matrix and
    one bias vector of length [out_i] per layer transition. *)
Theorem decode_shape_mismatch_iff (ls : list nat) (ws : list matrix)
    (bs : list (list Q)) (genome : list Q) :
  (decode (net_of ls ws bs) genome = Raise ShapeMismatch
   <-> length genome <> topology_length ls)
  /\ (length genome = topology_length ls ->
      exists ws' bs',
        decode (net_of ls ws bs) genome = Ok (net_of ls ws' bs')
        /\ length ws' = length ls - 1
        /\ length bs' = length ls - 1
        /\ forall i, i < length ls - 1 ->
             exists W b,
               ws' !! i = Some W /\ bs' !! i = Some b
               /\ nrows W = nth i ls 0
               /\ ncols W = nth (i + 1) ls 0
               /\ length (mdata W) = nrows W * ncols W
               /\ length b = nth (i + 1) ls 0).
Proof.
  split.
  - split.
    + intros Hd Hlen. rewrite (decode_ok _ _ _ _ Hlen) in Hd. discriminate.
    + intros Hne. unfold decode, net_of. cbn [num_weights].
      rewrite num_weights_init.
      destruct (Nat.eqb_spec (length genome) (topology_length ls)) as [E|_];
        [contradiction | reflexivity].
  - intros Hlen. eexists _, _. split; [apply (decode_ok _ _ _ _ Hlen)|].
    rewrite !length_map, !layers_from_length, shapes_init_length.
    split; [reflexivity|]. split; [reflexivity|].
    intros i Hi.
    pose proof (shapes_init_lookup ls i Hi) as Hs.
    pose proof (layers_from_lookup _ genome 0 i _ _ Hs) as Hl.
    cbn zeta in Hl.
    pose proof (layer_offset_S _ _ _ Hs) as HS.
    assert (layer_offset (shapes (FeedForwardNet_init ls)) (S i)
            <= length genome) as Hle.
    { rewrite Hlen, <- num_weights_init. apply layer_offset_le. }
    unfold layer_size in HS. cbn [fst snd] in HS.
    eexists _, _. rewrite !list_lookup_fmap, Hl. cbn [fmap option_fmap option_map fst snd].
    split; [reflexivity|]. split; [reflexivity|].
    cbn [nrows ncols mdata].
    split; [reflexivity|]. split; [reflexivity|].
    rewrite !py_slice_length by lia. lia.
Qed.

(** A genome of the wrong length is refused, one of the right length is
    decoded: topology [4, 8, 2], [L = 58]. *)
Lemma decode_shape_mismatch_iff_witness :
  decode (net_of [4; 8; 2] [] []) (replicate 57 0%Q) = Raise ShapeMismatch
  /\ exists ws' bs',
       decode (net_of [4; 8; 2] [] []) (replicate 58 0%Q)
       = Ok (net_of [4; 8; 2] ws' bs')
       /\ length ws' = 2.
Proof.
  split.
  - apply (decode_shape_mismatch_iff [4; 8; 2] [] [] (replicate 57 0%Q)).
    vm_compute. discriminate.
  - destruct (proj2 (decode_shape_mismatch_iff [4; 8; 2] [] []
                       (replicate 58 0%Q)) eq_refl)
      as (ws' & bs' & Hd & Hw & _).
    exists ws', bs'. split; [exact Hd | exact Hw].
Defined.

(** C4.  Decoding a genome of the matching length and re-flattening the
    decoded weights (row-major) and biases in layer order gives back the
    genome; layer [i]'s slice starts where layer [i-1]'s ends, the first at
    0 and the last ending at the genome's end; entry [(r, c)] of layer [i]'s
    weights is the genome entry at offset [r * out_i + c] of the slice and
    its biases follow the [in_i * out_i] weights. *)
Theorem decode_encode_roundtrip (ls : list nat) (ws : list matrix)
    (bs : list (list Q)) (genome : list Q) :
  length genome = topology_length ls ->
  exists net',
    decode (net_of ls ws bs) genome = Ok net'
    /\ encode (weights net') (biases net') = genome
    /\ layer_offset (shapes net') 0 = 0
    /\ layer_offset (shapes net') (length (shapes net')) = length genome
    /\ forall i in_dim out_dim,
         shapes net' !! i = Some (in_dim, out_dim) ->
         let off := layer_offset (shapes net') i in
         layer_offset (shapes net') (S i) = off + in_dim * out_dim + out_dim
         /\ exists W b,
              weights net' !! i = Some W /\ biases net' !! i = Some b
              /\ (forall r c, r < in_dim -> c < out_dim ->
                    entry W r c = nth (off + (r * out_dim + c)) genome 0%Q)
              /\ (forall c, c < out_dim ->
                    nth c b 0%Q
                    = nth (off + in_dim * out_dim + c) genome 0%Q).
Proof.
  intros Hlen. eexists. split; [apply (decode_ok _ _ _ _ Hlen)|].
  unfold net_of. cbn [weights biases shapes].
  set (shp := shapes (FeedForwardNet_init ls)).
  assert (py_sum (map layer_size shp) = length genome) as Htot.
  { rewrite Hlen, <- num_weights_init. reflexivity. }
  split.
  { rewrite encode_layers_from by (simpl; lia).
    simpl. rewrite Htot. apply py_slice_all. }
  split; [reflexivity|].
  split; [rewrite layer_offset_all; exact Htot|].
  intros i in_dim out_dim Hs. cbn zeta.
  pose proof (layer_offset_S _ _ _ Hs) as HS.
  unfold layer_size in HS. cbn [fst snd] in HS.
  split; [lia|].
  pose proof (layers_from_lookup _ genome 0 i _ _ Hs) as Hl.
  cbn zeta in Hl. simpl in Hl.
  eexists _, _. rewrite !list_lookup_fmap, Hl.
  cbn [fmap option_fmap option_map fst snd].
  split; [reflexivity|]. split; [reflexivity|].
  split.
  - intros r c Hr Hc. unfold entry. cbn [ncols mdata].
    apply py_slice_nth. nia.
  - intros c Hc. rewrite py_slice_nth by lia. reflexivity.
Qed.

Lemma decode_encode_roundtrip_witness :
  exists net',
    decode (net_of [2; 1] [] []) [1; 2; 3]%Q = Ok net'
    /\ encode (weights net') (biases net') = [1; 2; 3]%Q.
Proof.
  destruct (decode_encode_roundtrip [2; 1] [] [] [1; 2; 3]%Q eq_refl)
    as (net' & Hd & He & _).
  exists net'. split; [exact Hd | exact He].
Defined.

(** ** Comparison and argmax *)

Lemma Qltb_lt (a b : Q) : Qltb a b = true <-> (a < b)%Q.
Proof.
  unfold Qltb. rewrite Qlt_alt.
  destruct (a ?= b)%Q; split; intros H; try reflexivity; discriminate.
Qed.

Lemma Qltb_ge (a b : Q) : Qltb a b = false <-> (b <= a)%Q.
Proof.
  split.
  - intros H. apply Qnot_lt_le. intros Hlt. apply Qltb_lt in Hlt. congruence.
  - intros H. destruct (Qltb a b) eqn:E; [|reflexivity].
    apply Qltb_lt in E. exfalso. exact (Qle_not_lt _ _ H E).
Qed.

Lemma argmax_from_first_max (l : list Q) :
  forall pre bi,
    first_max pre bi ->
    first_max (pre ++ l) (argmax_from bi (nth bi pre 0%Q) (length pre) l).
Proof.
  induction l as [|x r IH]; intros pre bi (Hbi & Hmax & Hfirst).
  - simpl. rewrite app_nil_r. repeat split; assumption.
  - simpl. replace (pre ++ x :: r) with ((pre ++ [x]) ++ r)
      by (rewrite <- app_assoc; reflexivity).
    replace (S (length pre)) with (length (pre ++ [x]))
      by (rewrite length_app; simpl; lia).
    assert (nth (length pre) (pre ++ [x]) 0%Q = x) as Hx.
    { rewrite app_nth2 by lia. rewrite Nat.sub_diag. reflexivity. }
    destruct (Qltb (nth bi pre 0%Q) x) eqn:E.
    + apply Qltb_lt in E.
      pose proof (IH (pre ++ [x]) (length pre)) as IH'.
      rewrite Hx in IH'. apply IH'.
      unfold first_max. rewrite length_app. simpl. rewrite Hx.
      split; [lia|]. split.
      * intros j Hj. destruct (decide (j = length pre)) as [->|Hne].
        -- rewrite Hx. apply Qle_refl.
        -- rewrite app_nth1 by lia. apply Qlt_le_weak.
           eapply Qle_lt_trans; [apply Hmax; lia | exact E].
      * intros j Hj. rewrite app_nth1 by lia.
        eapply Qle_lt_trans; [apply Hmax; lia | exact E].
    + apply Qltb_ge in E.
      pose proof (IH (pre ++ [x]) bi) as IH'.
      rewrite (app_nth1 pre [x] 0%Q Hbi) in IH'. apply IH'.
      unfold first_max. rewrite length_app. simpl.
      rewrite (app_nth1 pre [x] 0%Q Hbi).
      split; [lia|]. split.
      * intros j Hj. destruct (decide (j = length pre)) as [->|Hne].
        -- rewrite Hx. exact E.
        -- rewrite app_nth1 by lia. apply Hmax. lia.
      * intros j Hj. rewrite app_nth1 by lia. apply Hfirst. exact Hj.
Qed.

Lemma np_argmax_first_max (l : list Q) :
  l <> [] -> exists a, np_argmax l = Ok a /\ first_max l a.
Proof.
  destruct l as [|x r]; [congruence|]. intros _.
  exists (argmax_from 0 x 1 r). split; [reflexivity|].
  apply (argmax_from_first_max r [x] 0).
  unfold first_max. simpl. split; [lia|]. split.
  - intros [|j] Hj; [apply Qle_refl | lia].
  - intros j Hj. lia.
Qed.

Lemma np_argmax_ok_first_max (l : list Q) (a : nat) :
  np_argmax l = Ok a -> first_max l a.
Proof.
  intros H. destruct l as [|x r]; [discriminate|].
  destruct (np_argmax_first_max (x :: r)) as (a' & Ha' & Hf); [congruence|].
  rewrite H in Ha'. injection Ha' as ->. exact Hf.
Qed.

(** ** network.py: the forward pass *)

Section ActProperties.
Variable tanh : Q -> Q.
Variable float32 : Q -> Q.

Lemma py_init_cons {A} (x y : A) (l : list A) :
  py_init (x :: y :: l) = x :: py_init (y :: l).
Proof. unfold py_init. simpl. rewrite Nat.sub_0_r. reflexivity. Qed.

Lemma py_last_cons {A} (x y : A) (l : list A) :
  py_last (x :: y :: l) = py_last (y :: l).
Proof. reflexivity. Qed.

Lemma hidden_then_last (ws : list matrix) :
  forall (bs : list (list Q)) (x : list Q),
    ws <> [] -> length ws = length bs ->
    (x' <- hidden_loop tanh (zip (py_init ws) (py_init bs)) x ;;
     Wl <- py_last ws ;;
     bl <- py_last bs ;;
     xW <- np_matmul x' Wl ;;
     np_add xW bl)%res
    = forward_spec tanh (zip ws bs) x.
Proof.
  induction ws as [|W [|W2 ws] IH]; intros bs x Hne Hlen; [congruence| |].
  - destruct bs as [|b [|b2 bs]]; try discriminate. reflexivity.
  - destruct bs as [|b [|b2 bs]]; try discriminate.
    rewrite !py_init_cons, !py_last_cons.
    change (zip (W :: py_init (W2 :: ws)) (b :: py_init (b2 :: bs)))
      with ((W, b) :: zip (py_init (W2 :: ws)) (py_init (b2 :: bs))).
    change (zip (W :: W2 :: ws) (b :: b2 :: bs))
      with ((W, b) :: (W2, b2) :: zip ws bs).
    cbn [hidden_loop forward_spec]. unfold affine.
    destruct (np_matmul x W) as [xW|e]; [|reflexivity]. cbn [rbind].
    destruct (np_add xW b) as [z|e]; [|reflexivity]. cbn [rbind].
    apply (IH (b2 :: bs) (map tanh z)); [congruence|].
    simpl in Hlen. simpl. lia.
Qed.

(** C7.  On a network with decoded parameters, [act] computes the forward
    pass of the specification (tanh after the affine transform [x W + b]
    on every layer but the last, affine transform only on the last) and
    returns the raw logits when [discrete] is false and, when it is true,
    the index of the maximum logit, the lowest such index on ties. *)
Theorem act_forward_pass (self : FeedForwardNet) (obs : list Q)
    (discrete : bool) :
  weights self <> [] ->
  length (weights self) = length (biases self) ->
  act tanh float32 self obs discrete
  = (logits <- forward_spec tanh (zip (weights self) (biases self))
                 (map float32 obs) ;;
     if discrete then (a <- np_argmax logits ;; Ok (Discrete a))
     else Ok (Continuous logits))%res
  /\ (forall logits,
        forward_spec tanh (zip (weights self) (biases self))
          (map float32 obs) = Ok logits ->
        act tanh float32 self obs false = Ok (Continuous logits)
        /\ (logits <> [] ->
            exists a, act tanh float32 self obs true = Ok (Discrete a)
                      /\ first_max logits a)).
Proof.
  intros Hne Hlen.
  assert (act tanh float32 self obs discrete
          = (logits <- forward_spec tanh (zip (weights self) (biases self))
                         (map float32 obs) ;;
             if discrete then (a <- np_argmax logits ;; Ok (Discrete a))
             else Ok (Continuous logits))%res) as Heq.
  { rewrite <- (hidden_then_last _ _ _ Hne Hlen). unfold act.
    destruct (weights self) as [|W ws] eqn:EW; [congruence|].
    destruct (biases self) as [|b bs] eqn:EB; [discriminate|].
    destruct (hidden_loop tanh _ _) as [x'|e]; [|reflexivity]. cbn [rbind].
    destruct (py_last (W :: ws)) as [Wl|e]; [|reflexivity]. cbn [rbind].
    destruct (py_last (b :: bs)) as [bl|e]; [|reflexivity]. cbn [rbind].
    destruct (np_matmul x' Wl) as [xW|e]; [|reflexivity]. cbn [rbind].
    destruct (np_add xW bl) as [lg|e]; reflexivity. }
  split; [exact Heq|].
  intros logits Hf.
  assert (forall d, act tanh float32 self obs d
            = (if d then (a <- np_argmax logits ;; Ok (Discrete a))%res
               else Ok (Continuous logits))) as Hd.
  { intros d. clear Heq.
    rewrite <- (hidden_then_last _ _ _ Hne Hlen) in Hf. unfold act.
    destruct (weights self) as [|W ws] eqn:EW; [congruence|].
    destruct (biases self) as [|b bs] eqn:EB; [discriminate|].
    destruct (hidden_loop tanh _ _) as [x'|e]; [|discriminate].
    cbn [rbind] in *.
    destruct (py_last (W :: ws)) as [Wl|e]; [|discriminate].
    cbn [rbind] in *.
    destruct (py_last (b :: bs)) as [bl|e]; [|discriminate].
    cbn [rbind] in *.
    destruct (np_matmul x' Wl) as [xW|e]; [|discriminate].
    cbn [rbind] in *. rewrite Hf. reflexivity. }
  split; [apply (Hd false)|].
  intros Hnil. destruct (np_argmax_first_max logits Hnil) as (a & Ha & Hfm).
  exists a. split; [|exact Hfm]. rewrite (Hd true), Ha. reflexivity.
Qed.
End ActProperties.

(** A two-layer network on a concrete observation, with the identity in
    place of [tanh] and of the cast: the logits are [[2; 2]] and the tie is
    resolved to index 0. *)
Lemma act_forward_pass_witness :
  act (fun x => x) (fun x => x)
      (Net [1; 1; 2] [(1, 1); (1, 2)] 6
           [Matrix 1 1 [1%Q]; Matrix 1 2 [1%Q; 1%Q]] [[0%Q]; [0%Q; 0%Q]])
      [2%Q] true
  = (logits <- forward_spec (fun x => x)
                 (zip [Matrix 1 1 [1%Q]; Matrix 1 2 [1%Q; 1%Q]]
                      [[0%Q]; [0%Q; 0%Q]])
                 (map (fun x => x) [2%Q]) ;;
     a <- np_argmax logits ;; Ok (Discrete a))%res.
Proof.
  refine (proj1 (act_forward_pass (fun x => x) (fun x => x)
                   (Net [1; 1; 2] [(1, 1); (1, 2)] 6
                        [Matrix 1 1 [1%Q]; Matrix 1 2 [1%Q; 1%Q]]
                        [[0%Q]; [0%Q; 0%Q]])
                   [2%Q] true _ _)).
  - simpl. discriminate.
  - reflexivity.
Defined.

(** ** env_runner.py: the fitness evaluator *)

Section EvaluateProperties.
Variables envT obsT actT : Type.
Variable env_reset : option Z -> envT -> result obsT * envT.
Variable env_step :
  actT -> envT -> result (obsT * Q * bool * bool) * envT.
Variable env_render : envT -> envT.
Variable network_act : obsT -> bool -> result actT.

Lemma episodes_loop_returns (self : EnvRunner) (render : bool) (fuel : nat)
    (eps : list nat) :
  forall total env rs env',
    episode_returns env_reset env_step env_render network_act
      self render fuel eps env = Some (rs, env') ->
    episodes_loop env_reset env_step env_render network_act
      self render fuel eps total env
    = Some (Ok (fold_left Qplus rs total), env')
    /\ length rs = length eps.
Proof.
  induction eps as [|ep rest IH]; intros total env rs env' H.
  - simpl in H. injection H as <- <-. split; reflexivity.
  - simpl in H. simpl.
    destruct (run_episode _ _ _ _ _ _ _ _ _) as [[[r|e] env1]|];
      try discriminate.
    destruct (episode_returns _ _ _ _ _ _ _ _ env1) as [[rs1 env2]|] eqn:E;
      try discriminate.
    injection H as <- <-.
    destruct (IH (total + r)%Q env1 rs1 env2 E) as [IH1 IH2].
    split; [exact IH1 | simpl; rewrite IH2; reflexivity].
Qed.

(** C10.  [evaluate] divides the accumulated reward by [episodes] without
    a guard: with [episodes = 0] it raises [ZeroDivisionError], the
    environment untouched because no episode was run; with [episodes >= 1],
    when the episodes run to their end, it returns the sum of the
    per-episode returns divided by their number. *)
Theorem evaluate_mean_or_zero_division (self : EnvRunner) (render : bool)
    (fuel : nat) (env : envT) :
  evaluate env_reset env_step env_render network_act self fuel 0 render env
  = Some (Raise ZeroDivisionError, env)
  /\ forall (episodes : Z) rs env',
       (1 <= episodes)%Z ->
       episode_returns env_reset env_step env_render network_act
         self render fuel (seq 0 (Z.to_nat episodes)) env
       = Some (rs, env') ->
       evaluate env_reset env_step env_render network_act
         self fuel episodes render env
       = Some (Ok (Qsum rs / inject_Z episodes)%Q, env')
       /\ Z.of_nat (length rs) = episodes.
Proof.
  split; [reflexivity|].
  intros episodes rs env' Hpos Hrs.
  destruct (episodes_loop_returns self render fuel _ 0%Q env rs env' Hrs)
    as [Hloop Hlen].
  unfold evaluate. rewrite Hloop. unfold py_truediv.
  destruct (Z.eqb_spec episodes 0) as [E|_]; [lia|].
  split; [reflexivity|]. rewrite Hlen, length_seq. lia.
Qed.
End EvaluateProperties.

(** ** ga.py: what a computation leaves untouched

    [stable n s s']: the store only grew, and the buffers at the first [n]
    locations hold what they held.  [framed n m P]: run from any store with
    at least [n] buffers, [m] leaves the first [n] untouched, and the value
    it returns (if it returns) satisfies [P]. *)

Section Frame.
Context {G : Generator} {AS : ArgSort}.
Local Open Scope ga_scope.

Lemma stable_refl n s : stable n s s.
Proof. split; [lia | reflexivity]. Qed.

Lemma stable_same_heap n s s' : st_heap s' = st_heap s -> stable n s s'.
Proof. intros E. unfold stable. rewrite E. split; [lia | reflexivity]. Qed.

Lemma stable_trans n s1 s2 s3 :
  stable n s1 s2 -> stable n s2 s3 -> stable n s1 s3.
Proof.
  intros [L1 H1] [L2 H2]. split; [lia|].
  intros l Hl. rewrite H2, H1 by assumption. reflexivity.
Qed.

Lemma framed_ret {A} n (a : A) (P : A -> Prop) : P a -> framed n (ret a) P.
Proof. intros HP s _. split; [apply stable_refl | exact HP]. Qed.

Lemma framed_raise {A} n e (P : A -> Prop) : framed n (raise e) P.
Proof. intros s _. split; [apply stable_refl | exact I]. Qed.

Lemma framed_lift {A} n (r : result A) (P : A -> Prop) :
  (forall a, r = Ok a -> P a) -> framed n (lift r) P.
Proof.
  intros HP s _. split; [apply stable_refl|].
  simpl. destruct r; [apply HP; reflexivity | exact I].
Qed.

Lemma framed_bind {A B} n (m : M A) (k : A -> M B) (P : A -> Prop)
    (Q : B -> Prop) :
  framed n m P -> (forall a, P a -> framed n (k a) Q) ->
  framed n (bind m k) Q.
Proof.
  intros Hm Hk s Hn. unfold bind.
  destruct (Hm s Hn) as [Hst HP].
  destruct (m s) as [[a|e] s1]; simpl in *.
  - destruct Hst as [Hlen Hst].
    destruct (Hk a HP s1) as [Hst2 HQ]; [lia|].
    split; [|exact HQ].
    eapply stable_trans; [split; eassumption | exact Hst2].
  - split; [exact Hst | exact I].
Qed.

Lemma framed_weaken {A} n (m : M A) (P Q : A -> Prop) :
  framed n m P -> (forall a, P a -> Q a) -> framed n m Q.
Proof.
  intros Hm HPQ s Hn. destruct (Hm s Hn) as [Hst HP].
  split; [exact Hst|]. destruct (m s).1; [apply HPQ; exact HP | exact I].
Qed.

Lemma framed_for_each {A S} n (l : list A) (body : A -> S -> M S)
    (Inv : S -> Prop) :
  (forall x acc, Inv acc -> framed n (body x acc) Inv) ->
  forall acc, Inv acc -> framed n (for_each l body acc) Inv.
Proof.
  intros Hbody. induction l as [|x rest IH]; intros acc Hacc; simpl.
  - apply framed_ret. exact Hacc.
  - eapply framed_bind; [apply Hbody; exact Hacc|].
    intros acc' Hacc'. apply IH. exact Hacc'.
Qed.

Lemma framed_draw {A} n (f : rng_state -> A * rng_state) :
  framed n (draw f) (fun _ => True).
Proof.
  intros s _. unfold draw. destruct (f (st_rng s)). simpl.
  split; [apply stable_same_heap; reflexivity | exact I].
Qed.

Lemma framed_draw_result {A} n (f : rng_state -> result A * rng_state) :
  framed n (draw_result f) (fun _ => True).
Proof.
  intros s _. unfold draw_result. destruct (f (st_rng s)) as [[a|e] g];
    simpl; (split; [apply stable_same_heap; reflexivity | exact I]).
Qed.

Lemma framed_read n (a : ndarray) : framed n (read a) (fun _ => True).
Proof. intros s _. split; [apply stable_refl | exact I]. Qed.

Lemma framed_alloc n sh d : framed n (alloc sh d) (fresh n).
Proof.
  intros s Hn. unfold alloc, stable, fresh. simpl.
  rewrite length_app. split; [|exact Hn]. split; [lia|].
  intros l Hl. apply lookup_app_l. lia.
Qed.

Lemma framed_write n (a : ndarray) d :
  fresh n a -> framed n (write a d) (fun _ => True).
Proof.
  intros Ha s Hn. unfold write, view_store, stable, fresh in *. simpl.
  rewrite length_alter. split; [|exact I]. split; [lia|].
  intros l Hl. apply list_lookup_alter_ne. lia.
Qed.

Lemma framed_np_take_values n a idx :
  framed n (np_take_values a idx) (fun _ => True).
Proof.
  unfold np_take_values.
  destruct (shape a) as [|k [|? ?]]; try apply framed_raise.
  destruct (forallb _ idx); [|apply framed_raise].
  eapply framed_bind; [apply framed_read|].
  intros d _. apply framed_ret. exact I.
Qed.

Lemma framed_np_take_rows n a idx :
  framed n (np_take_rows a idx) (fresh n).
Proof.
  unfold np_take_rows.
  destruct (shape a) as [|k rest]; [apply framed_raise|].
  destruct (forallb _ idx); [|apply framed_raise].
  eapply framed_bind; [apply framed_read|].
  intros d _. apply framed_alloc.
Qed.

Lemma framed_np_copy n a : framed n (np_copy a) (fresh n).
Proof.
  unfold np_copy. eapply framed_bind; [apply framed_read|].
  intros d _. apply framed_alloc.
Qed.

Lemma framed_np_where n mask a b : framed n (np_where mask a b) (fresh n).
Proof.
  unfold np_where. eapply framed_bind; [apply framed_read|].
  intros da _. eapply framed_bind; [apply framed_read|].
  intros db _. destruct (bcast_len _ _) as [k|]; [|apply framed_raise].
  destruct (bcast_len _ k) as [k'|]; [|apply framed_raise].
  apply framed_alloc.
Qed.

Lemma framed_np_iadd_masked n a mask noise :
  fresh n a -> framed n (np_iadd_masked a mask noise) (fun _ => True).
Proof.
  intros Ha. unfold np_iadd_masked.
  eapply framed_bind; [apply framed_read|].
  intros d _. destruct (_ && _); [|apply framed_raise].
  apply framed_write. exact Ha.
Qed.

Lemma framed_np_array n l : framed n (np_array l) (fresh n).
Proof.
  unfold np_array. destruct l as [|a l']; [apply framed_alloc|].
  destruct (forallb _ _); [|apply framed_raise].
  eapply framed_bind.
  - apply (framed_for_each n (a :: l') _ (fun _ => True)); [|exact I].
    intros b acc _. eapply framed_bind; [apply framed_read|].
    intros d _. apply framed_ret. exact I.
  - intros ds _. apply framed_alloc.
Qed.

Lemma framed_np_vstack n a b : framed n (np_vstack a b) (fun _ => True).
Proof.
  unfold np_vstack.
  destruct (atleast_2d (shape a)) as [|k ra]; [apply framed_raise|].
  destruct (atleast_2d (shape b)) as [|m rb]; [apply framed_raise|].
  destruct (bool_decide _); [|apply framed_raise].
  eapply framed_bind; [apply framed_read|]. intros da _.
  eapply framed_bind; [apply framed_read|]. intros db _.
  eapply framed_weaken; [apply framed_alloc | intros; exact I].
Qed.

Lemma framed_tournament_selection n self fitnesses :
  framed n (tournament_selection self fitnesses) (fun _ => True).
Proof.
  unfold tournament_selection.
  apply (framed_for_each n _ _ (fun _ => True)); [|exact I].
  intros _ parents _. eapply framed_bind.
  - unfold tournament.
    eapply framed_bind; [apply framed_draw_result|]. intros contenders _.
    eapply framed_bind; [apply framed_np_take_values|]. intros fc _.
    eapply framed_bind;
      [apply (framed_lift n _ (fun _ => True)); intros; exact I|].
    intros am _. apply (framed_lift n _ (fun _ => True)). intros; exact I.
  - intros w _. apply framed_ret. exact I.
Qed.

Lemma framed_crossover n self p1 p2 :
  framed n (crossover self p1 p2)
    (fun cs => fresh n cs.1 /\ fresh n cs.2).
Proof.
  unfold crossover. eapply framed_bind; [apply framed_draw|]. intros u _.
  destruct (Qltb u _).
  - eapply framed_bind; [apply framed_draw|]. intros r _.
    eapply framed_bind; [apply framed_np_where|]. intros c1 H1.
    eapply framed_bind; [apply framed_np_where|]. intros c2 H2.
    apply framed_ret. split; assumption.
  - eapply framed_bind; [apply framed_np_copy|]. intros c1 H1.
    eapply framed_bind; [apply framed_np_copy|]. intros c2 H2.
    apply framed_ret. split; assumption.
Qed.

Lemma framed_mutate n self genome :
  fresh n genome -> framed n (mutate self genome) (fresh n).
Proof.
  intros Hg. unfold mutate.
  eapply framed_bind; [apply framed_draw|]. intros r _.
  eapply framed_bind; [apply framed_draw_result|]. intros noise _.
  eapply framed_bind; [apply framed_np_iadd_masked; exact Hg|]. intros _ _.
  apply framed_ret. exact Hg.
Qed.

Lemma framed_select_elites n self population fitnesses :
  framed n (select_elites self population fitnesses) (fresh n).
Proof.
  unfold select_elites. destruct (_ && _).
  - eapply framed_bind; [apply framed_read|]. intros f _.
    apply framed_np_take_rows.
  - apply framed_alloc.
Qed.

Lemma framed_breed n self population parent_indices i new_pop :
  framed n (breed self population parent_indices i new_pop)
    (fun _ => True).
Proof.
  unfold breed.
  eapply framed_bind;
    [apply (framed_lift n _ (fun _ => True)); intros; exact I|].
  intros idx1 _.
  eapply framed_bind;
    [apply (framed_lift n _ (fun _ => True)); intros; exact I|].
  intros idx2 _.
  eapply framed_bind;
    [apply (framed_lift n _ (fun _ => True)); intros; exact I|].
  intros p1 _.
  eapply framed_bind;
    [apply (framed_lift n _ (fun _ => True)); intros; exact I|].
  intros p2 _.
  eapply framed_bind; [apply framed_crossover|].
  intros [c1 c2] [H1 H2]. simpl in H1, H2.
  eapply framed_bind; [apply framed_mutate; exact H1|]. intros m1 _.
  eapply framed_bind; [apply framed_mutate; exact H2|]. intros m2 _.
  apply framed_ret. exact I.
Qed.

Lemma framed_step n self population fitnesses :
  framed n (step self population fitnesses) (fun _ => True).
Proof.
  unfold step.
  eapply framed_bind; [apply framed_select_elites|]. intros elites _.
  eapply framed_bind; [apply framed_tournament_selection|].
  intros parent_indices _.
  eapply framed_bind;
    [apply (framed_lift n _ (fun _ => True)); intros; exact I|].
  intros n_el _.
  eapply framed_bind.
  { apply (framed_for_each n _ _ (fun _ => True)); [|exact I].
    intros i acc _. apply framed_breed. }
  intros new_pop _.
  eapply framed_bind; [apply framed_np_array|]. intros arr _.
  eapply framed_bind;
    [apply (framed_lift n _ (fun _ => True)); intros; exact I|].
  intros new_pop' _.
  destruct (negb _); [apply framed_np_vstack | apply framed_ret; exact I].
Qed.

Lemma stable_view_data n s s' (a : ndarray) :
  stable n s s' -> base a < n ->
  view_data (st_heap s') a = view_data (st_heap s) a.
Proof.
  intros [_ H] Ha. unfold view_data. rewrite (H _ Ha). reflexivity.
Qed.

(** C8.  [step] leaves its inputs as they were: whatever it returns or
    raises, every buffer that existed before the call -- in particular the
    population's and the fitness vector's -- holds afterwards what it held
    before, although [mutate] writes into every child in place. *)
Theorem step_leaves_inputs_unchanged (self : GeneticAlgorithm)
    (population fitnesses : ndarray) (s : state) :
  base population < length (st_heap s) ->
  base fitnesses < length (st_heap s) ->
  let s' := (step self population fitnesses s).2 in
  view_data (st_heap s') population = view_data (st_heap s) population
  /\ view_data (st_heap s') fitnesses = view_data (st_heap s) fitnesses
  /\ forall i row,
       np_row population i = Ok row ->
       view_data (st_heap s') row = view_data (st_heap s) row.
Proof.
  intros Hp Hf s'.
  destruct (framed_step (length (st_heap s)) self population fitnesses s)
    as [Hst _]; [lia|]. fold s' in Hst.
  split; [exact (stable_view_data _ _ _ _ Hst Hp)|].
  split; [exact (stable_view_data _ _ _ _ Hst Hf)|].
  intros i row Hrow. apply (stable_view_data _ _ _ _ Hst).
  unfold np_row in Hrow. destruct (shape population); [discriminate|].
  destruct (i <? n); [|discriminate]. injection Hrow as <-. exact Hp.
Qed.
End Frame.

(** ** ga.py: tournament selection *)

Section Tournament.
Context {G : Generator} {AS : ArgSort} {GS : GeneratorSpec G}.
Local Open Scope ga_scope.

Lemma forallb_ltb (n : nat) (l : list nat) :
  Forall (fun i => i < n) l -> forallb (fun i => i <? n) l = true.
Proof.
  induction 1 as [|x l Hx _ IH]; [reflexivity|].
  simpl. rewrite IH. apply Nat.ltb_lt in Hx. rewrite Hx. reflexivity.
Qed.

Lemma for_each_ok {A T} (l : list A) (body : A -> T -> M T)
    (Inv : nat -> T -> state -> Prop) :
  (forall i x acc s, l !! i = Some x -> Inv i acc s ->
     exists acc' s', body x acc s = (Ok acc', s') /\ Inv (S i) acc' s') ->
  forall acc s, Inv 0 acc s ->
    exists acc' s',
      for_each l body acc s = (Ok acc', s') /\ Inv (length l) acc' s'.
Proof.
  revert Inv. induction l as [|x rest IH]; intros Inv Hbody acc s H0.
  - exists acc, s. split; [reflexivity | exact H0].
  - destruct (Hbody 0 x acc s eq_refl H0) as (acc1 & s1 & Hb & H1).
    destruct (IH (fun i => Inv (S i))) with (acc := acc1) (s := s1)
      as (acc2 & s2 & Hl & H2).
    + intros i y acc' s' Hy Hi. apply (Hbody (S i) y acc' s' Hy Hi).
    + exact H1.
    + exists acc2, s2. split; [|exact H2].
      simpl. unfold bind. rewrite Hb. exact Hl.
Qed.

Lemma tournament_ok (self : GeneticAlgorithm) (fitnesses : ndarray)
    (F : nat) (s : state) :
  (1 <= tournament_size self <= pop_size self)%Z ->
  shape fitnesses = [F] -> Z.to_nat (pop_size self) <= F ->
  exists w g',
    tournament self fitnesses s = (Ok w, State (st_heap s) g')
    /\ tournament_winner self (view_data (st_heap s) fitnesses) w.
Proof.
  intros Hts Hshape HF.
  destruct (choice_spec (pop_size self) (tournament_size self) (st_rng s))
    as (contenders & g' & Hc & Hlen & Hnd & Hlt); [lia | lia |].
  assert (Forall (fun i => i < F) contenders) as HltF.
  { eapply Forall_impl; [exact Hlt|]. intros i Hi. simpl in Hi. lia. }
  set (f := view_data (st_heap s) fitnesses).
  destruct (np_argmax_first_max (map (fun i => nth i f 0%Q) contenders))
    as (k & Hk & Hfm).
  { destruct contenders; [simpl in Hlen; lia | discriminate]. }
  assert (k < length contenders) as Hk_lt.
  { destruct Hfm as [Hk_lt _]. rewrite length_map in Hk_lt. exact Hk_lt. }
  destruct (lookup_lt_is_Some_2 contenders k Hk_lt) as [w Hw].
  exists w, g'. split.
  - unfold tournament, bind, draw_result. rewrite Hc.
    unfold np_take_values. rewrite Hshape.
    rewrite (forallb_ltb _ _ HltF). unfold bind, read, ret, lift.
    cbn [st_heap]. fold f. rewrite Hk.
    unfold py_getitem. rewrite Hw. reflexivity.
  - exists (st_rng s), contenders, g', k.
    repeat split; try assumption; apply Hfm.
Qed.

Lemma tournament_winner_lt (self : GeneticAlgorithm) (f : list Q) (w : nat) :
  tournament_winner self f w -> w < Z.to_nat (pop_size self).
Proof.
  intros (g & contenders & g' & k & _ & _ & _ & Hlt & Hw & _).
  rewrite Forall_lookup in Hlt. exact (Hlt k w Hw).
Qed.

Lemma tournament_winner_full (self : GeneticAlgorithm) (f : list Q)
    (w b : nat) :
  tournament_size self = pop_size self ->
  b < Z.to_nat (pop_size self) ->
  (forall j, j < Z.to_nat (pop_size self) -> j <> b ->
     (nth j f 0 < nth b f 0)%Q) ->
  tournament_winner self f w -> w = b.
Proof.
  intros Hfull Hb Hbest (g & contenders & g' & k & _ & Hlen & Hnd & Hlt & Hw
                         & Hfm).
  assert (b ∈ contenders) as Hin.
  { assert (contenders ≡ₚ seq 0 (Z.to_nat (pop_size self))) as Hperm.
    - apply submseteq_length_Permutation.
      + apply NoDup_submseteq; [exact Hnd|].
        intros x Hx. apply elem_of_seq.
        rewrite Forall_forall in Hlt. specialize (Hlt x Hx). lia.
      + rewrite length_seq, Hlen, Hfull. lia.
    - rewrite Hperm. apply elem_of_seq. lia. }
  apply list_elem_of_lookup in Hin as [kb Hkb].
  destruct (decide (w = b)) as [E|Hne]; [exact E | exfalso].
  destruct Hfm as (Hk & Hmax & _).
  assert (kb < length contenders) as Hkb_lt
    by (apply lookup_lt_is_Some; eauto).
  specialize (Hmax kb). rewrite length_map in Hmax, Hk.
  specialize (Hmax Hkb_lt).
  assert (nth kb (map (fun i => nth i f 0%Q) contenders) 0%Q
          = nth b f 0%Q) as Eb.
  { apply nth_lookup_Some. rewrite list_lookup_fmap, Hkb. reflexivity. }
  assert (nth k (map (fun i => nth i f 0%Q) contenders) 0%Q
          = nth w f 0%Q) as Ew.
  { apply nth_lookup_Some. rewrite list_lookup_fmap, Hw. reflexivity. }
  rewrite Eb, Ew in Hmax.
  assert (w < Z.to_nat (pop_size self)) as Hw_lt.
  { rewrite Forall_lookup in Hlt. exact (Hlt k w Hw). }
  exact (Qle_not_lt _ _ Hmax (Hbest w Hw_lt Hne)).
Qed.

Lemma tournament_selection_ok (self : GeneticAlgorithm)
    (fitnesses : ndarray) (F : nat) (s : state) :
  (1 <= tournament_size self <= pop_size self)%Z ->
  shape fitnesses = [F] -> Z.to_nat (pop_size self) <= F ->
  exists parents g',
    tournament_selection self fitnesses s
    = (Ok parents, State (st_heap s) g')
    /\ length parents = Z.to_nat (pop_size self)
    /\ Forall (tournament_winner self (view_data (st_heap s) fitnesses))
         parents.
Proof.
  intros Hts Hshape HF. unfold tournament_selection.
  destruct (for_each_ok (py_range (pop_size self))
              (fun _ parents =>
                 winner <- tournament self fitnesses ;;
                 ret (parents ++ [winner]))
              (fun i parents s' =>
                 st_heap s' = st_heap s
                 /\ length parents = i
                 /\ Forall (tournament_winner self
                              (view_data (st_heap s) fitnesses)) parents))
    with (acc := @nil nat) (s := s) as (parents & s' & Hrun & Hh & Hl & Hw).
  - intros i x acc s1 _ (Hh & Hl & Hw).
    destruct (tournament_ok self fitnesses F s1 Hts Hshape HF)
      as (w & g' & Ht & Hwin).
    exists (acc ++ [w]), (State (st_heap s1) g'). split.
    + unfold bind. rewrite Ht. reflexivity.
    + cbn [st_heap]. split; [exact Hh|]. split.
      * rewrite length_app. simpl. lia.
      * apply Forall_app. split; [exact Hw|].
        apply Forall_singleton. rewrite <- Hh. exact Hwin.
  - split; [reflexivity|]. split; [reflexivity | constructor].
  - exists parents, (st_rng s'). split.
    + rewrite Hrun. destruct s' as [h' g']. simpl in Hh. subst h'.
      reflexivity.
    + unfold py_range in Hl. rewrite length_seq in Hl.
      split; [exact Hl | exact Hw].
Qed.

(** C6.  For a fitness vector of length [pop_size] and a tournament size
    in [1, pop_size], tournament selection returns [pop_size] parents;
    each is the winner of a tournament among [tournament_size] distinct
    individuals drawn without replacement (the drawn individual of
    greatest fitness, the first drawn among equals), hence an index in
    [0, pop_size); and when [tournament_size = pop_size] and one
    individual is strictly fitter than all others, every parent is that
    individual. *)
Theorem tournament_selection_spec (self : GeneticAlgorithm)
    (fitnesses : ndarray) (s : state) :
  (1 <= tournament_size self <= pop_size self)%Z ->
  shape fitnesses = [Z.to_nat (pop_size self)] ->
  let f := view_data (st_heap s) fitnesses in
  exists parents s',
    tournament_selection self fitnesses s = (Ok parents, s')
    /\ st_heap s' = st_heap s
    /\ length parents = Z.to_nat (pop_size self)
    /\ Forall (fun w => w < Z.to_nat (pop_size self)) parents
    /\ Forall (tournament_winner self f) parents
    /\ (tournament_size self = pop_size self ->
        forall b,
          b < Z.to_nat (pop_size self) ->
          (forall j, j < Z.to_nat (pop_size self) -> j <> b ->
             (nth j f 0 < nth b f 0)%Q) ->
          Forall (fun w => w = b) parents).
Proof.
  intros Hts Hshape f.
  destruct (tournament_selection_ok self fitnesses _ s Hts Hshape (le_n _))
    as (parents & g' & Hrun & Hlen & Hwin).
  exists parents, (State (st_heap s) g').
  split; [exact Hrun|]. split; [reflexivity|]. split; [exact Hlen|].
  split; [|split; [exact Hwin|]].
  - eapply Forall_impl; [exact Hwin|].
    intros w. apply tournament_winner_lt.
  - intros Hfull b Hb Hbest.
    eapply Forall_impl; [exact Hwin|].
    intros w. apply tournament_winner_full; assumption.
Qed.
End Tournament.

(** ** The demonstration generator meets the generator's contract *)

Lemma rotate_Permutation {A} (n : nat) (l : list A) : rotate n l ≡ₚ l.
Proof.
  unfold rotate. rewrite Permutation_app_comm. rewrite take_drop. reflexivity.
Qed.

#[export] Instance demo_generator_spec : GeneratorSpec demo_generator.
Proof.
  split.
  - intros a size g Ha Hs. simpl. unfold demo_choice.
    destruct (Z.ltb_spec size 0) as [?|_]; [lia|].
    destruct (Z.leb_spec a 0) as [?|_]; [lia|].
    destruct (Z.ltb_spec a size) as [?|_]; [lia|]. simpl.
    eexists _, _. split; [reflexivity|].
    split; [|split].
    + rewrite length_take, length_rotate, length_seq. lia.
    + eapply sublist_NoDup; [|apply sublist_take].
      rewrite rotate_Permutation. apply NoDup_seq.
    + apply Forall_take. rewrite rotate_Permutation.
      apply Forall_seq. intros j Hj. lia.
  - intros n g. simpl. rewrite length_map, length_seq. reflexivity.
  - intros loc scale n g Hs. simpl. unfold demo_normal.
    apply Qltb_ge in Hs. rewrite Hs.
    eexists _, _. split; [reflexivity|].
    rewrite length_map, length_seq. reflexivity.
Qed.

(** ** Runs on concrete inputs *)

Lemma tournament_selection_spec_witness :
  exists parents s',
    @tournament_selection demo_generator
      (GA 3 2 (9 # 10) (1 # 20) (1 # 10) 3 true (1 # 20))
      demo_fitnesses demo_state = (Ok parents, s')
    /\ Forall (fun w => w = 0) parents.
Proof.
  destruct (@tournament_selection_spec demo_generator demo_generator_spec
              (GA 3 2 (9 # 10) (1 # 20) (1 # 10) 3 true (1 # 20))
              demo_fitnesses demo_state)
    as (parents & s' & Hrun & _ & _ & _ & _ & Hbest).
  - simpl. lia.
  - reflexivity.
  - exists parents, s'. split; [exact Hrun|].
    apply Hbest; [reflexivity | simpl; lia |].
    intros [|[|[|j]]] Hj Hne; simpl in Hj; try lia; try congruence;
      vm_compute; reflexivity.
Defined.

Lemma step_leaves_inputs_unchanged_witness :
  let s' := (@step demo_generator demo_argsort
               (GA 3 2 (9 # 10) (1 # 20) (1 # 10) 2 true (1 # 20))
               demo_population demo_fitnesses demo_state).2 in
  view_data (st_heap s') demo_population
  = view_data (st_heap demo_state) demo_population
  /\ view_data (st_heap s') demo_fitnesses
     = view_data (st_heap demo_state) demo_fitnesses.
Proof.
  intros s'.
  destruct (@step_leaves_inputs_unchanged demo_generator demo_argsort
              (GA 3 2 (9 # 10) (1 # 20) (1 # 10) 2 true (1 # 20))
              demo_population demo_fitnesses demo_state)
    as (Hp & Hf & _).
  - simpl. lia.
  - simpl. lia.
  - split; [exact Hp | exact Hf].
Defined.

Lemma evaluate_mean_or_zero_division_witness :
  exists rs env',
    evaluate counter_reset counter_step (fun e => e) constant_policy
      (Runner None true) 5 2 false 0
    = Some (Ok (Qsum rs / inject_Z 2)%Q, env')
    /\ Z.of_nat (length rs) = 2%Z.
Proof.
  eexists _, _.
  apply (proj2 (evaluate_mean_or_zero_division nat unit unit
                  counter_reset counter_step (fun e => e) constant_policy
                  (Runner None true) false 5 0)).
  - lia.
  - vm_compute. reflexivity.
Defined.

(** ** ga.py: construction and the length of the fitness vector *)

(** C2, as the code has it.  The constructor validates nothing: for every
    configuration, within the bounds or not, construction succeeds and
    stores the hyperparameters as given. *)
Theorem GeneticAlgorithm_init_never_fails (pop_size : Z) (genome_length : nat)
    (crossover_rate mutation_rate mutation_sigma : Q) (tournament_size : Z)
    (elitism : bool) (elitism_frac : Q) :
  GeneticAlgorithm_init pop_size genome_length crossover_rate mutation_rate
    mutation_sigma tournament_size elitism elitism_frac
  = Ok (GA pop_size genome_length crossover_rate mutation_rate mutation_sigma
           tournament_size elitism elitism_frac).
Proof. reflexivity. Qed.

(** A population of zero, a tournament size of zero, negative rates and
    sigma and an elitism fraction of 2 are all accepted. *)
Lemma GeneticAlgorithm_init_accepts_bad_config :
  ~ exists e,
      GeneticAlgorithm_init 0 2 (-1 # 2) (-1 # 2) (-1 # 10) 0 true (2 # 1)
      = Raise e.
Proof. intros [e H]. discriminate H. Qed.

(** With a fitness vector of three entries for a population of two, [step]
    returns a next population. *)
Lemma step_accepts_longer_fitness :
  ~ exists e,
      (@step demo_generator demo_argsort
         (GA 2 2 (9 # 10) (1 # 2) (1 # 10) 2 false (1 # 20))
         (NdArray 0 0 [2; 2]) demo_fitnesses demo_state).1 = Raise e.
Proof. intros [e H]. vm_compute in H. discriminate H. Qed.

(** ** ga.py: where [step] fails *)

(** C1, failing input.  Elitism off and an odd population: the last
    iteration of the breeding loop reads [parent_indices[pop_size]]. *)
Theorem step_odd_population_without_elitism_raises :
  (@step demo_generator demo_argsort
     (GA 3 2 (9 # 10) (1 # 20) (1 # 10) 1 false (1 # 20))
     demo_population demo_fitnesses demo_state).1 = Raise IndexError.
Proof. vm_compute. reflexivity. Qed.

(** C5, failing input.  Elitism on with every individual an elite: no child
    is bred, [np.array([])] has shape [(0,)] and stacking it on the elites
    fails. *)
Theorem step_all_elites_raises :
  (@step demo_generator demo_argsort
     (GA 3 2 (9 # 10) (1 # 20) (1 # 10) 2 true 1)
     demo_population demo_fitnesses demo_state).1 = Raise ValueError.
Proof. vm_compute. reflexivity. Qed.

(** ** ga.py: when [step] succeeds

    [wf h a]: the view [a] lies inside its buffer in the store [h].
    [grows s s']: every buffer of [s] is still there in [s'], with the same
    length (its entries may have changed). *)

Section StepSuccess.
Context {G : Generator} {AS : ArgSort} {GS : GeneratorSpec G}.
Local Open Scope ga_scope.

Lemma grows_refl s : grows s s.
Proof. intros l buf H. exists buf. split; [exact H | reflexivity]. Qed.

Lemma grows_same_heap s s' : st_heap s' = st_heap s -> grows s s'.
Proof.
  intros E l buf H. exists buf. rewrite E. split; [exact H | reflexivity].
Qed.

Lemma grows_trans s1 s2 s3 : grows s1 s2 -> grows s2 s3 -> grows s1 s3.
Proof.
  intros H12 H23 l buf H.
  destruct (H12 l buf H) as (buf2 & H2 & L2).
  destruct (H23 l buf2 H2) as (buf3 & H3 & L3).
  exists buf3. split; [exact H3 | congruence].
Qed.

Lemma grows_wf s s' a : grows s s' -> wf (st_heap s) a -> wf (st_heap s') a.
Proof.
  intros Hg (buf & Hb & Hlen). destruct (Hg _ _ Hb) as (buf' & Hb' & Hl).
  exists buf'. split; [exact Hb' | lia].
Qed.

Lemma view_data_length (h : heap) a : wf h a -> length (view_data h a) = size a.
Proof.
  intros (buf & Hb & Hlen). unfold view_data. rewrite Hb. simpl.
  rewrite length_take, length_drop. lia.
Qed.

Lemma prod_list_1 (n : nat) : prod_list [n] = n.
Proof. unfold prod_list. simpl. lia. Qed.

Lemma prod_list_2 (n m : nat) : prod_list [n; m] = n * m.
Proof. unfold prod_list. simpl. lia. Qed.

Lemma alloc_ok sh d (s : state) :
  length d = prod_list sh ->
  let a := NdArray (length (st_heap s)) 0 sh in
  let s' := State (st_heap s ++ [d]) (st_rng s) in
  alloc sh d s = (Ok a, s')
  /\ grows s s'
  /\ wf (st_heap s') a
  /\ view_data (st_heap s') a = d.
Proof.
  intros Hd a s'. split; [reflexivity|]. split; [|split].
  - intros l buf H. exists buf. split; [|reflexivity].
    simpl. apply lookup_app_l_Some. exact H.
  - exists d. simpl. split.
    + rewrite lookup_app_r by lia. rewrite Nat.sub_diag. reflexivity.
    + unfold size. simpl. lia.
  - unfold view_data. simpl.
    rewrite lookup_app_r by lia. rewrite Nat.sub_diag. simpl.
    unfold size. simpl. rewrite <- Hd. apply firstn_all.
Qed.

Lemma np_where_ok mask a b L (s : state) :
  length mask = L ->
  shape a = [L] -> shape b = [L] ->
  wf (st_heap s) a -> wf (st_heap s) b ->
  exists c s',
    np_where mask a b s = (Ok c, s')
    /\ shape c = [L] /\ wf (st_heap s') c /\ grows s s'.
Proof.
  intros Hm Ha Hb Wa Wb.
  assert (length (view_data (st_heap s) a) = L) as La.
  { rewrite (view_data_length _ _ Wa). unfold size. rewrite Ha.
    apply prod_list_1. }
  assert (length (view_data (st_heap s) b) = L) as Lb.
  { rewrite (view_data_length _ _ Wb). unfold size. rewrite Hb.
    apply prod_list_1. }
  unfold np_where, bind, read. rewrite La, Lb, Hm.
  unfold bcast_len. rewrite !Nat.eqb_refl.
  match goal with
  | |- context [alloc ?sh ?d s] =>
      destruct (alloc_ok sh d s) as (Hal & Hg & Hw & _)
  end.
  { rewrite length_map, length_seq. symmetry. apply prod_list_1. }
  eexists _, _. split; [exact Hal|]. split; [reflexivity|].
  split; [exact Hw | exact Hg].
Qed.

Lemma np_copy_ok a (s : state) :
  wf (st_heap s) a ->
  exists c s',
    np_copy a s = (Ok c, s')
    /\ shape c = shape a /\ wf (st_heap s') c /\ grows s s'.
Proof.
  intros Wa. unfold np_copy, bind, read.
  destruct (alloc_ok (shape a) (view_data (st_heap s) a) s)
    as (Hal & Hg & Hw & _).
  { apply (view_data_length _ _ Wa). }
  eexists _, _. split; [exact Hal|]. split; [reflexivity|].
  split; [exact Hw | exact Hg].
Qed.

Lemma bind_ok {A B} (m : M A) (k : A -> M B) (s : state) a s1 :
  m s = (Ok a, s1) -> bind m k s = k a s1.
Proof. intros H. unfold bind. rewrite H. reflexivity. Qed.

Lemma draw_eq {A} (f : rng_state -> A * rng_state) (s : state) :
  draw f s = (Ok (f (st_rng s)).1, State (st_heap s) (f (st_rng s)).2).
Proof. unfold draw. destruct (f (st_rng s)). reflexivity. Qed.

Lemma draw_result_ok {A} (f : rng_state -> result A * rng_state) (s : state)
    a g' :
  f (st_rng s) = (Ok a, g') ->
  draw_result f s = (Ok a, State (st_heap s) g').
Proof. intros H. unfold draw_result. rewrite H. reflexivity. Qed.

Lemma crossover_ok self p1 p2 (s : state) :
  shape p1 = [genome_length self] -> shape p2 = [genome_length self] ->
  wf (st_heap s) p1 -> wf (st_heap s) p2 ->
  exists c1 c2 s',
    crossover self p1 p2 s = (Ok (c1, c2), s')
    /\ shape c1 = [genome_length self] /\ shape c2 = [genome_length self]
    /\ wf (st_heap s') c1 /\ wf (st_heap s') c2
    /\ grows s s'.
Proof.
  intros S1 S2 W1 W2. unfold crossover.
  rewrite (bind_ok _ _ _ _ _ (draw_eq rng_random s)).
  set (s0 := State (st_heap s) (rng_random (st_rng s)).2).
  assert (grows s s0) as G0 by (apply grows_same_heap; reflexivity).
  destruct (Qltb _ (crossover_rate self)).
  - rewrite (bind_ok _ _ _ _ _
               (draw_eq (rng_random_n (genome_length self)) s0)).
    set (r := (rng_random_n (genome_length self) (st_rng s0)).1).
    set (s0' := State (st_heap s0) _).
    assert (grows s s0') as G0' by (apply grows_same_heap; reflexivity).
    set (mask := map (fun x => Qltb x (1 # 2)) r).
    assert (length mask = genome_length self) as Hm.
    { unfold mask, r. rewrite length_map. apply random_n_spec. }
    destruct (np_where_ok mask p1 p2 _ s0' Hm S1 S2
                (grows_wf _ _ _ G0' W1) (grows_wf _ _ _ G0' W2))
      as (c1 & s1 & E1 & Sc1 & Wc1 & G1).
    rewrite (bind_ok _ _ _ _ _ E1).
    assert (grows s s1) as Gs1 by exact (grows_trans _ _ _ G0' G1).
    destruct (np_where_ok mask p2 p1 _ s1 Hm S2 S1
                (grows_wf _ _ _ Gs1 W2) (grows_wf _ _ _ Gs1 W1))
      as (c2 & s2 & E2 & Sc2 & Wc2 & G2).
    rewrite (bind_ok _ _ _ _ _ E2).
    exists c1, c2, s2. split; [reflexivity|].
    repeat split; try assumption.
    + exact (grows_wf _ _ _ G2 Wc1).
    + exact (grows_trans _ _ _ Gs1 G2).
  - destruct (np_copy_ok p1 s0 (grows_wf _ _ _ G0 W1))
      as (c1 & s1 & E1 & Sc1 & Wc1 & G1).
    rewrite (bind_ok _ _ _ _ _ E1).
    assert (grows s s1) as Gs1 by exact (grows_trans _ _ _ G0 G1).
    destruct (np_copy_ok p2 s1 (grows_wf _ _ _ Gs1 W2))
      as (c2 & s2 & E2 & Sc2 & Wc2 & G2).
    rewrite (bind_ok _ _ _ _ _ E2).
    exists c1, c2, s2. split; [reflexivity|].
    repeat split; try congruence; try assumption.
    + exact (grows_wf _ _ _ G2 Wc1).
    + exact (grows_trans _ _ _ Gs1 G2).
Qed.

Lemma write_grows a d (s : state) :
  wf (st_heap s) a -> length d = size a ->
  grows s (State (view_store (st_heap s) a d) (st_rng s)).
Proof.
  intros (buf0 & Hb0 & Hlen) Hd l buf H. simpl. unfold view_store.
  destruct (decide (l = base a)) as [->|Hne].
  - rewrite Hb0 in H. injection H as <-.
    eexists. split.
    + rewrite list_lookup_alter_eq, Hb0. reflexivity.
    + rewrite !length_app, length_take, length_drop. lia.
  - exists buf. split; [|reflexivity].
    rewrite list_lookup_alter_ne by congruence. exact H.
Qed.

Lemma np_iadd_masked_ok a mask noise L (s : state) :
  shape a = [L] -> wf (st_heap s) a ->
  length mask = L -> length noise = L ->
  exists s', np_iadd_masked a mask noise s = (Ok tt, s') /\ grows s s'.
Proof.
  intros Sa Wa Hm Hn.
  assert (length (view_data (st_heap s) a) = L) as Ld.
  { rewrite (view_data_length _ _ Wa). unfold size. rewrite Sa.
    apply prod_list_1. }
  unfold np_iadd_masked.
  rewrite (bind_ok (read a) _ s _ s eq_refl).
  rewrite Hm, Hn, Ld, Nat.eqb_refl. cbn [andb].
  eexists. split; [reflexivity|].
  apply write_grows; [exact Wa|].
  rewrite length_map, length_seq. unfold size. rewrite Sa.
  symmetry. apply prod_list_1.
Qed.

Lemma mutate_ok self genome (s : state) :
  (0 <= mutation_sigma self)%Q ->
  shape genome = [genome_length self] ->
  wf (st_heap s) genome ->
  exists s', mutate self genome s = (Ok genome, s') /\ grows s s'.
Proof.
  intros Hsig Sg Wg. unfold mutate.
  rewrite (bind_ok _ _ _ _ _
             (draw_eq (rng_random_n (genome_length self)) s)).
  set (r := (rng_random_n (genome_length self) (st_rng s)).1).
  set (s0 := State (st_heap s) _).
  assert (grows s s0) as G0 by (apply grows_same_heap; reflexivity).
  destruct (normal_spec 0 (mutation_sigma self) (genome_length self)
              (st_rng s0) Hsig) as (noise & g2 & En & Ln).
  rewrite (bind_ok _ _ _ _ _ (draw_result_ok _ s0 _ _ En)).
  set (s1 := State (st_heap s0) g2).
  assert (grows s s1) as G1 by (apply grows_same_heap; reflexivity).
  destruct (np_iadd_masked_ok genome
              (map (fun x => Qltb x (mutation_rate self)) r) noise
              (genome_length self) s1 Sg (grows_wf _ _ _ G1 Wg))
    as (s2 & Ei & G2).
  { unfold r. rewrite length_map. apply random_n_spec. }
  { exact Ln. }
  rewrite (bind_ok _ _ _ _ _ Ei).
  exists s2. split; [reflexivity|]. exact (grows_trans _ _ _ G1 G2).
Qed.

Lemma np_row_ok population P L i h :
  shape population = [P; L] -> wf h population -> i < P ->
  exists row,
    np_row population i = Ok row /\ shape row = [L] /\ wf h row
    /\ base row = base population.
Proof.
  intros Sp (buf & Hb & Hlen) Hi. unfold np_row. rewrite Sp.
  apply Nat.ltb_lt in Hi as Hi'. rewrite Hi'.
  eexists. split; [reflexivity|]. split; [reflexivity|].
  split; [|reflexivity].
  exists buf. split; [exact Hb|]. unfold size in *. rewrite Sp in Hlen.
  cbn [base offset shape]. rewrite prod_list_2 in Hlen. rewrite prod_list_1.
  nia.
Qed.

Lemma children_ok_grows L s s' new_pop :
  grows s s' -> children_ok L s new_pop -> children_ok L s' new_pop.
Proof.
  intros Hg Hch. eapply Forall_impl; [exact Hch|]. intros c [Sc Wc].
  split; [exact Sc | exact (grows_wf _ _ _ Hg Wc)].
Qed.

Lemma breed_ok self population parent_indices i new_pop (s : state) idx1 idx2 :
  (0 <= mutation_sigma self)%Q ->
  shape population = [Z.to_nat (pop_size self); genome_length self] ->
  wf (st_heap s) population ->
  parent_indices !! i = Some idx1 ->
  parent_indices !! (i + 1) = Some idx2 ->
  idx1 < Z.to_nat (pop_size self) ->
  idx2 < Z.to_nat (pop_size self) ->
  children_ok (genome_length self) s new_pop ->
  exists c1 c2 s',
    breed self population parent_indices i new_pop s
    = (Ok (new_pop ++ [c1] ++ [c2]), s')
    /\ grows s s'
    /\ children_ok (genome_length self) s' (new_pop ++ [c1] ++ [c2]).
Proof.
  intros Hsig Sp Wp H1 H2 L1 L2 Hch.
  destruct (np_row_ok _ _ _ idx1 _ Sp Wp L1) as (p1 & R1 & Sp1 & Wp1 & _).
  destruct (np_row_ok _ _ _ idx2 _ Sp Wp L2) as (p2 & R2 & Sp2 & Wp2 & _).
  destruct (crossover_ok self p1 p2 s Sp1 Sp2 Wp1 Wp2)
    as (c1 & c2 & s1 & Ec & Sc1 & Sc2 & Wc1 & Wc2 & G1).
  destruct (mutate_ok self c1 s1 Hsig Sc1 Wc1) as (s2 & Em1 & G2).
  destruct (mutate_ok self c2 s2 Hsig Sc2 (grows_wf _ _ _ G2 Wc2))
    as (s3 & Em2 & G3).
  exists c1, c2, s3. split; [|split].
  - unfold breed, py_getitem. rewrite H1, H2.
    rewrite (bind_ok (lift (Ok idx1)) _ s idx1 s eq_refl).
    rewrite (bind_ok (lift (Ok idx2)) _ s idx2 s eq_refl).
    rewrite R1, (bind_ok (lift (Ok p1)) _ s p1 s eq_refl).
    rewrite R2, (bind_ok (lift (Ok p2)) _ s p2 s eq_refl).
    rewrite (bind_ok _ _ _ _ _ Ec).
    rewrite (bind_ok _ _ _ _ _ Em1).
    rewrite (bind_ok _ _ _ _ _ Em2).
    unfold ret. rewrite <- app_assoc. reflexivity.
  - eapply grows_trans; [exact G1|].
    eapply grows_trans; [exact G2 | exact G3].
  - apply Forall_app. split.
    + eapply children_ok_grows; [|exact Hch].
      eapply grows_trans; [exact G1|].
      eapply grows_trans; [exact G2 | exact G3].
    + apply Forall_app. split; apply Forall_singleton.
      * split; [exact Sc1|].
        exact (grows_wf _ _ _ G3 (grows_wf _ _ _ G2 Wc1)).
      * split; [exact Sc2|].
        exact (grows_wf _ _ _ G3 (grows_wf _ _ _ G2 Wc2)).
Qed.
Lemma py_range2_lookup (stop : Z) (i x : nat) :
  py_range2 stop !! i = Some x ->
  x = 2 * i /\ (Z.of_nat (2 * i) < stop)%Z.
Proof.
  unfold py_range2. rewrite list_lookup_fmap.
  destruct (seq 0 (Z.to_nat ((stop + 1) / 2)) !! i) as [k|] eqn:E;
    [|discriminate].
  apply lookup_seq in E as [-> Hi]. simpl. intros [= <-].
  split; [reflexivity|]. zify. Z.div_mod_to_equations. lia.
Qed.

Lemma py_range2_length (stop : Z) :
  length (py_range2 stop) = Z.to_nat ((stop + 1) / 2).
Proof. unfold py_range2. rewrite length_map, length_seq. reflexivity. Qed.

Lemma breed_loop_ok self population parent_indices (rem : Z) (s : state) :
  (0 <= mutation_sigma self)%Q ->
  shape population = [Z.to_nat (pop_size self); genome_length self] ->
  wf (st_heap s) population ->
  length parent_indices = Z.to_nat (pop_size self) ->
  Forall (fun w => w < Z.to_nat (pop_size self)) parent_indices ->
  (rem <= pop_size self)%Z ->
  (rem mod 2 = 0 \/ rem < pop_size self)%Z ->
  exists new_pop s',
    for_each (py_range2 rem) (breed self population parent_indices) [] s
    = (Ok new_pop, s')
    /\ grows s s'
    /\ children_ok (genome_length self) s' new_pop
    /\ length new_pop = 2 * Z.to_nat ((rem + 1) / 2).
Proof.
  intros Hsig Sp Wp Hlen Hlt Hrem Hpar.
  destruct (for_each_ok (py_range2 rem)
              (breed self population parent_indices)
              (fun i acc s1 =>
                 grows s s1
                 /\ children_ok (genome_length self) s1 acc
                 /\ length acc = 2 * i))
    with (acc := @nil ndarray) (s := s) as (new_pop & s' & Hrun & Hg & Hch & Hl).
  - intros i x acc s1 Hx (Hg & Hch & Hl).
    apply py_range2_lookup in Hx as [-> Hi].
    assert (2 * i + 1 < length parent_indices) as Hi1
      by (zify; Z.div_mod_to_equations; lia).
    destruct (lookup_lt_is_Some_2 parent_indices (2 * i)) as [idx1 H1];
      [lia|].
    destruct (lookup_lt_is_Some_2 parent_indices (2 * i + 1)) as [idx2 H2];
      [lia|].
    rewrite Forall_lookup in Hlt.
    destruct (breed_ok self population parent_indices (2 * i) acc s1 idx1 idx2
                Hsig Sp (grows_wf _ _ _ Hg Wp) H1 H2
                (Hlt _ _ H1) (Hlt _ _ H2) Hch)
      as (c1 & c2 & s2 & Eb & G2 & Hch2).
    exists (acc ++ [c1] ++ [c2]), s2. split; [exact Eb|].
    split; [exact (grows_trans _ _ _ Hg G2)|]. split; [exact Hch2|].
    rewrite !length_app. simpl. lia.
  - split; [apply grows_refl|]. split; [constructor | reflexivity].
  - exists new_pop, s'. rewrite py_range2_length in Hl.
    split; [exact Hrun|]. split; [exact Hg|]. split; [exact Hch | exact Hl].
Qed.

Lemma read_all_ok (l : list ndarray) (s : state) :
  forall acc,
    for_each l (fun b acc => d <- read b ;; ret (acc ++ d)) acc s
    = (Ok (acc ++ concat (map (view_data (st_heap s)) l)), s).
Proof.
  induction l as [|a l IH]; intros acc; simpl.
  - rewrite app_nil_r. reflexivity.
  - rewrite (bind_ok _ _ s (acc ++ view_data (st_heap s) a) s).
    + rewrite IH, <- app_assoc. reflexivity.
    + reflexivity.
Qed.

Lemma children_data_length L (s : state) (l : list ndarray) :
  children_ok L s l ->
  length (concat (map (view_data (st_heap s)) l)) = length l * L.
Proof.
  induction 1 as [|c l [Sc Wc] _ IH]; [reflexivity|].
  simpl. rewrite length_app, IH, (view_data_length _ _ Wc).
  unfold size. rewrite Sc, prod_list_1. reflexivity.
Qed.

Lemma np_array_ok L (s : state) (l : list ndarray) :
  l <> [] -> children_ok L s l ->
  exists arr s',
    np_array l s = (Ok arr, s')
    /\ shape arr = [length l; L]
    /\ wf (st_heap s') arr
    /\ grows s s'
    /\ view_data (st_heap s') arr = concat (map (view_data (st_heap s)) l).
Proof.
  intros Hne Hch. destruct l as [|a l']; [congruence|]. clear Hne.
  unfold np_array.
  assert (shape a = [L]) as Sa by (inversion Hch as [|? ? [Sa _] _]; exact Sa).
  assert (forallb (fun b => bool_decide (shape b = shape a)) (a :: l') = true)
    as Hall.
  { apply forallb_forall. intros b Hb. apply bool_decide_eq_true.
    apply list_elem_of_In in Hb.
    unfold children_ok in Hch. rewrite Forall_forall in Hch.
    destruct (Hch b Hb) as [Sb _]. congruence. }
  rewrite Hall. rewrite (bind_ok _ _ _ _ _ (read_all_ok (a :: l') s [])).
  rewrite app_nil_l, Sa.
  destruct (alloc_ok [length (a :: l'); L]
              (concat (map (view_data (st_heap s)) (a :: l'))) s)
    as (Hal & Hg & Hw & Hv).
  { rewrite (children_data_length L s _ Hch), prod_list_2. reflexivity. }
  eexists _, _. split; [exact Hal|]. split; [reflexivity|].
  split; [exact Hw|]. split; [exact Hg | exact Hv].
Qed.

Lemma np_slice0_ok arr n L (k : Z) h :
  shape arr = [n; L] -> wf h arr -> (0 <= k)%Z -> Z.to_nat k <= n ->
  exists out,
    np_slice0 arr k = Ok out
    /\ shape out = [Z.to_nat k; L]
    /\ wf h out
    /\ view_data h out = take (Z.to_nat k * L) (view_data h arr).
Proof.
  intros Sa (buf & Hb & Hlen) Hk Hkn. unfold np_slice0. rewrite Sa.
  unfold slice_stop. destruct (Z.ltb_spec k 0) as [?|_]; [lia|].
  rewrite Nat.min_l by exact Hkn.
  eexists. split; [reflexivity|]. split; [reflexivity|].
  unfold size in Hlen. rewrite Sa, prod_list_2 in Hlen.
  split.
  - exists buf. split; [exact Hb|]. unfold size. cbn [offset shape].
    rewrite prod_list_2. nia.
  - unfold view_data, size. cbn [base offset shape]. rewrite Hb, Sa.
    rewrite !prod_list_2, take_take. f_equal. nia.
Qed.

(** C3, as the code has it.  [step] never compares the length of the
    fitness vector with [pop_size].  With elitism off (or an elitism
    fraction that is not positive), an even population, a tournament size in
    [1, pop_size] and a non-negative mutation sigma, a fitness vector that
    has at least [pop_size] entries -- exactly [pop_size] or more -- is
    accepted: [step] returns a new population of [pop_size] genomes of
    length [genome_length]. *)
Theorem step_without_elitism_accepts_longer_fitness
    (self : GeneticAlgorithm) (population fitnesses : ndarray) (F : nat)
    (s : state) :
  elitism self && Qltb 0 (elitism_frac self) = false ->
  (1 <= tournament_size self <= pop_size self)%Z ->
  (pop_size self mod 2 = 0)%Z ->
  (0 <= mutation_sigma self)%Q ->
  shape population = [Z.to_nat (pop_size self); genome_length self] ->
  wf (st_heap s) population ->
  shape fitnesses = [F] ->
  Z.to_nat (pop_size self) <= F ->
  exists out s',
    step self population fitnesses s = (Ok out, s')
    /\ shape out = [Z.to_nat (pop_size self); genome_length self]
    /\ wf (st_heap s') out.
Proof.
  intros Hel Hts Heven Hsig Sp Wp Sf HF. unfold step, select_elites.
  rewrite Hel. unfold np_empty.
  destruct (alloc_ok [0; genome_length self]
              (replicate (prod_list [0; genome_length self]) 0%Q) s)
    as (Hal & G1 & _ & _).
  { apply length_replicate. }
  rewrite (bind_ok _ _ _ _ _ Hal).
  set (elites := NdArray (length (st_heap s)) 0 [0; genome_length self]).
  set (s1 := State (st_heap s ++ _) (st_rng s)) in *.
  destruct (tournament_selection_ok self fitnesses F s1 Hts Sf HF)
    as (parents & g' & Et & Hlen & Hwin).
  rewrite (bind_ok _ _ _ _ _ Et).
  set (s2 := State (st_heap s1) g').
  assert (grows s s2) as G2.
  { eapply grows_trans; [exact G1|]. apply grows_same_heap. reflexivity. }
  rewrite (bind_ok (lift (shape0 elites)) _ s2 0 s2 eq_refl).
  replace (pop_size self - Z.of_nat 0)%Z with (pop_size self) by lia.
  destruct (breed_loop_ok self population parents (pop_size self) s2
              Hsig Sp (grows_wf _ _ _ G2 Wp) Hlen)
    as (new_pop & s3 & El & G3 & Hch & Hcount); [|lia|left; exact Heven|].
  { eapply Forall_impl; [exact Hwin|]. intros w. apply tournament_winner_lt. }
  rewrite (bind_ok _ _ _ _ _ El).
  assert (length new_pop = Z.to_nat (pop_size self)) as Hcount'
    by (rewrite Hcount; zify; Z.div_mod_to_equations; lia).
  destruct (np_array_ok (genome_length self) s3 new_pop)
    as (arr & s4 & Ea & Sa & Wa & G4 & _); [|exact Hch|].
  { intros ->. simpl in Hcount'. lia. }
  rewrite (bind_ok _ _ _ _ _ Ea).
  destruct (np_slice0_ok arr _ _ (pop_size self) (st_heap s4) Sa Wa)
    as (out & Es & So & Wo & _); [lia | lia |].
  rewrite Es. rewrite (bind_ok (lift (Ok out)) _ s4 out s4 eq_refl).
  unfold size, elites. cbn [shape]. rewrite prod_list_2. cbn [Nat.mul].
  cbn [Nat.eqb negb].
  exists out, s4. split; [reflexivity|]. split; [exact So | exact Wo].
Qed.
End StepSuccess.

Lemma step_without_elitism_accepts_longer_fitness_witness :
  exists out s',
    @step demo_generator demo_argsort
      (GA 2 2 (9 # 10) (1 # 2) (1 # 10) 2 false (1 # 20))
      (NdArray 0 0 [2; 2]) demo_fitnesses demo_state = (Ok out, s')
    /\ shape out = [2; 2].
Proof.
  destruct (@step_without_elitism_accepts_longer_fitness
              demo_generator demo_argsort demo_generator_spec
              (GA 2 2 (9 # 10) (1 # 2) (1 # 10) 2 false (1 # 20))
              (NdArray 0 0 [2; 2]) demo_fitnesses 3 demo_state)
    as (out & s' & Hrun & Hshape & _).
  - reflexivity.
  - simpl. lia.
  - reflexivity.
  - simpl. discriminate.
  - reflexivity.
  - eexists. split; [reflexivity|]. vm_compute. lia.
  - reflexivity.
  - simpl. lia.
  - exists out, s'. split; [exact Hrun | exact Hshape].
Defined.

(** ** ga.py: elitism *)

Section StepElites.
Context {G : Generator} {AS : ArgSort}.
Context {GS : GeneratorSpec G} {ASS : ArgSortSpec AS}.
Local Open Scope ga_scope.

Lemma size_1 a L : shape a = [L] -> size a = L.
Proof. intros E. unfold size. rewrite E. apply prod_list_1. Qed.

Lemma size_2 a n L : shape a = [n; L] -> size a = n * L.
Proof. intros E. unfold size. rewrite E. apply prod_list_2. Qed.


Lemma rows_length {A} (L : nat) (rows : list (list A)) :
  Forall (fun r => length r = L) rows ->
  length (concat rows) = length rows * L.
Proof.
  induction 1 as [|x rows Hx _ IH]; [reflexivity|].
  simpl. rewrite length_app, IH, Hx. reflexivity.
Qed.


Lemma row_data a n L i h :
  shape a = [n; L] -> wf h a -> i < n ->
  exists row,
    np_row a i = Ok row
    /\ view_data h row = take L (drop (i * L) (view_data h a)).
Proof.
  intros Sa (buf & Hb & Hlen) Hi. unfold np_row. rewrite Sa.
  apply Nat.ltb_lt in Hi as Hi'. rewrite Hi'.
  eexists. split; [reflexivity|].
  rewrite (size_2 _ _ _ Sa) in Hlen.
  unfold view_data. cbn [base offset shape]. rewrite Hb. simpl default.
  rewrite (size_2 _ _ _ Sa). unfold size. cbn [shape].
  rewrite !prod_list_1.
  replace (n * L) with (i * L + (n * L - i * L)) by nia.
  rewrite <- take_drop_commute, take_take, drop_drop.
  f_equal. nia.
Qed.

Lemma np_take_rows_ok population P L idx (s : state) :
  shape population = [P; L] -> wf (st_heap s) population ->
  Forall (fun i => i < P) idx ->
  let d := view_data (st_heap s) population in
  let rows := map (fun i => py_slice d (i * L) (i * L + L)) idx in
  exists E s',
    np_take_rows population idx s = (Ok E, s')
    /\ shape E = [length idx; L]
    /\ base E = length (st_heap s)
    /\ grows s s'
    /\ wf (st_heap s') E
    /\ view_data (st_heap s') E = concat rows
    /\ Forall (fun r => length r = L) rows
    /\ length (st_heap s') = S (length (st_heap s)).
Proof.
  intros Sp Wp Hidx d rows.
  assert (length d = P * L) as Ld.
  { unfold d. rewrite (view_data_length _ _ Wp). apply (size_2 _ _ _ Sp). }
  assert (Forall (fun r => length r = L) rows) as Hrows.
  { unfold rows. apply Forall_fmap.
    eapply Forall_impl; [exact Hidx|]. intros i Hi. simpl in *.
    rewrite py_slice_length by nia. lia. }
  unfold np_take_rows. rewrite Sp, (forallb_ltb _ _ Hidx).
  rewrite (bind_ok (read population) _ s _ s eq_refl).
  rewrite prod_list_1. fold d. fold rows.
  destruct (alloc_ok [length idx; L] (concat rows) s)
    as (Hal & Hg & Hw & Hv).
  { rewrite (rows_length L rows Hrows), prod_list_2. unfold rows.
    rewrite length_map. reflexivity. }
  eexists _, _. split; [exact Hal|].
  split; [reflexivity|]. split; [reflexivity|]. split; [exact Hg|].
  split; [exact Hw|]. split; [exact Hv|]. split; [exact Hrows|].
  simpl. rewrite length_app. simpl. lia.
Qed.


Lemma elite_indices_top (f : list Q) (n : nat) :
  n <= length f ->
  top_indices f (length f) n (py_lastn n (np_argsort f)).
Proof.
  intros Hn. pose proof (argsort_perm f) as Hperm.
  assert (length (np_argsort f) = length f) as Hlen.
  { rewrite Hperm. apply length_seq. }
  assert (NoDup (np_argsort f)) as Hnd.
  { rewrite Hperm. apply NoDup_seq. }
  unfold py_lastn. rewrite Hlen.
  split; [rewrite length_drop; lia|].
  split; [eapply sublist_NoDup; [exact Hnd | apply sublist_drop]|].
  split.
  - intros e He. apply list_elem_of_lookup in He as [i Hi].
    rewrite lookup_drop in Hi.
    assert (e ∈ seq 0 (length f)) as Hin.
    { rewrite <- Hperm. apply list_elem_of_lookup. eauto. }
    apply elem_of_seq in Hin. lia.
  - intros e j He Hj Hnot.
    apply list_elem_of_lookup in He as [i Hi]. rewrite lookup_drop in Hi.
    assert (j ∈ np_argsort f) as Hjin.
    { rewrite Hperm. apply elem_of_seq. lia. }
    apply list_elem_of_lookup in Hjin as [i' Hi'].
    assert (i' < length f - n) as Hlt.
    { destruct (Nat.lt_ge_cases i' (length f - n)) as [?|Hge]; [assumption|].
      exfalso. apply Hnot. apply list_elem_of_lookup.
      exists (i' - (length f - n)). rewrite lookup_drop.
      replace (length f - n + (i' - (length f - n))) with i' by lia.
      exact Hi'. }
    eapply (argsort_sorted f i' (length f - n + i)); [lia | exact Hi' |].
    exact Hi.
Qed.

End StepElites.

(** ** The insertion argsort meets the contract of [np.argsort] *)

Lemma insert_index_Permutation (f : list Q) (i : nat) (l : list nat) :
  insert_index f i l ≡ₚ i :: l.
Proof.
  induction l as [|j r IH]; simpl; [reflexivity|].
  destruct (Qltb _ _); [reflexivity|].
  rewrite IH. apply Permutation_swap.
Qed.

Lemma insertion_fold_Permutation (f : list Q) (l : list nat) :
  forall acc,
    fold_left (fun acc i => insert_index f i acc) l acc ≡ₚ l ++ acc.
Proof.
  induction l as [|x l IH]; intros acc; simpl; [reflexivity|].
  rewrite IH, insert_index_Permutation.
  symmetry. apply Permutation_middle.
Qed.

Lemma insert_index_sorted (f : list Q) (i : nat) (l : list nat) :
  StronglySorted (fun a b => (nth a f 0 <= nth b f 0)%Q) l ->
  StronglySorted (fun a b => (nth a f 0 <= nth b f 0)%Q) (insert_index f i l).
Proof.
  induction 1 as [|j r Hs IH Hj]; simpl.
  - repeat constructor.
  - destruct (Qltb (nth i f 0%Q) (nth j f 0%Q)) eqn:E.
    + apply Qltb_lt in E. constructor; [constructor; assumption|].
      constructor; [apply Qlt_le_weak; exact E|].
      eapply Forall_impl; [exact Hj|]. intros k Hk. simpl in Hk.
      eapply Qle_trans; [apply Qlt_le_weak; exact E | exact Hk].
    + apply Qltb_ge in E. constructor; [exact IH|].
      rewrite insert_index_Permutation. constructor; assumption.
Qed.

Lemma insertion_fold_sorted (f : list Q) (l : list nat) :
  forall acc,
    StronglySorted (fun a b => (nth a f 0 <= nth b f 0)%Q) acc ->
    StronglySorted (fun a b => (nth a f 0 <= nth b f 0)%Q)
      (fold_left (fun acc i => insert_index f i acc) l acc).
Proof.
  induction l as [|x l IH]; intros acc Hacc; simpl; [exact Hacc|].
  apply IH, insert_index_sorted, Hacc.
Qed.

Lemma StronglySorted_lookup (f : list Q) (l : list nat) :
  StronglySorted (fun a b => (nth a f 0 <= nth b f 0)%Q) l ->
  forall i j a b, i <= j -> l !! i = Some a -> l !! j = Some b ->
    (nth a f 0 <= nth b f 0)%Q.
Proof.
  induction 1 as [|x r Hs IH Hx]; intros i j a b Hij Ha Hb; [discriminate|].
  destruct i as [|i], j as [|j]; simpl in Ha, Hb; try lia.
  - injection Ha as <-. injection Hb as <-. apply Qle_refl.
  - injection Ha as <-. rewrite Forall_lookup in Hx. exact (Hx j b Hb).
  - apply (IH i j a b); [lia | exact Ha | exact Hb].
Qed.

#[export] Instance demo_argsort_spec : ArgSortSpec demo_argsort.
Proof.
  split; simpl; unfold insertion_argsort.
  - intros f. rewrite insertion_fold_Permutation, app_nil_r. reflexivity.
  - intros f i j a b Hij Ha Hb.
    eapply (StronglySorted_lookup f); [|exact Hij|exact Ha|exact Hb].
    apply insertion_fold_sorted. constructor.
Qed.


(** ** ga.py: the two corners in which [step] raises, for every generator *)

Section StepFailures.
Context {G : Generator} {AS : ArgSort}.
Context {GS : GeneratorSpec G} {ASS : ArgSortSpec AS}.
Local Open Scope ga_scope.

Lemma bind_raise {A B} (m : M A) (k : A -> M B) (s : state) e s1 :
  m s = (Raise e, s1) -> bind m k s = (Raise e, s1).
Proof. intros H. unfold bind. rewrite H. reflexivity. Qed.

Lemma for_each_snoc {A T} (l : list A) (x : A) (body : A -> T -> M T) :
  forall acc s,
    for_each (l ++ [x]) body acc s
    = bind (for_each l body acc) (body x) s.
Proof.
  induction l as [|y l IH]; intros acc s; simpl.
  - unfold bind, ret. destruct (body x acc s) as [[a|e] s1]; reflexivity.
  - unfold bind. destruct (body y acc s) as [[a|e] s1]; [|reflexivity].
    rewrite IH. reflexivity.
Qed.

Lemma py_range2_odd (p : Z) :
  (0 <= p)%Z -> (p mod 2 = 1)%Z ->
  py_range2 p = py_range2 (p - 1) ++ [Z.to_nat (p - 1)].
Proof.
  intros Hp Hodd. unfold py_range2.
  replace (Z.to_nat ((p + 1) / 2)) with (S (Z.to_nat ((p - 1 + 1) / 2)))
    by (zify; Z.div_mod_to_equations; lia).
  rewrite seq_S, map_app. simpl. f_equal. f_equal.
  zify; Z.div_mod_to_equations; lia.
Qed.

(** X17.  With elitism off and an odd population, the last iteration of the
    breeding loop reads one past the end of the list of parents. *)
Lemma step_odd_without_elitism_raises (self : GeneticAlgorithm)
    (population fitnesses : ndarray) (F : nat) (s : state) :
  elitism self && Qltb 0 (elitism_frac self) = false ->
  (1 <= tournament_size self <= pop_size self)%Z ->
  (pop_size self mod 2 = 1)%Z ->
  (0 <= mutation_sigma self)%Q ->
  shape population = [Z.to_nat (pop_size self); genome_length self] ->
  wf (st_heap s) population ->
  shape fitnesses = [F] ->
  Z.to_nat (pop_size self) <= F ->
  (step self population fitnesses s).1 = Raise IndexError.
Proof.
  intros Hel Hts Hodd Hsig Sp Wp Sf HF. unfold step, select_elites.
  rewrite Hel. unfold np_empty.
  destruct (alloc_ok [0; genome_length self]
              (replicate (prod_list [0; genome_length self]) 0%Q) s)
    as (Hal & G1 & _ & _).
  { apply length_replicate. }
  rewrite (bind_ok _ _ _ _ _ Hal).
  set (elites := NdArray (length (st_heap s)) 0 [0; genome_length self]).
  set (s1 := State (st_heap s ++ _) (st_rng s)) in *.
  destruct (tournament_selection_ok self fitnesses F s1 Hts Sf HF)
    as (parents & g' & Et & Hlen & Hwin).
  rewrite (bind_ok _ _ _ _ _ Et).
  set (s2 := State (st_heap s1) g').
  assert (grows s s2) as G2.
  { eapply grows_trans; [exact G1|]. apply grows_same_heap. reflexivity. }
  rewrite (bind_ok (lift (shape0 elites)) _ s2 0 s2 eq_refl).
  replace (pop_size self - Z.of_nat 0)%Z with (pop_size self) by lia.
  destruct (breed_loop_ok self population parents (pop_size self - 1) s2
              Hsig Sp (grows_wf _ _ _ G2 Wp) Hlen)
    as (new_pop & s3 & El & G3 & Hch & Hcount).
  { eapply Forall_impl; [exact Hwin|]. intros w. apply tournament_winner_lt. }
  { lia. }
  { left. zify; Z.div_mod_to_equations; lia. }
  assert (breed self population parents (Z.to_nat (pop_size self - 1))
            new_pop s3 = (Raise IndexError, s3)) as Eb.
  { unfold breed, py_getitem.
    destruct (lookup_lt_is_Some_2 parents (Z.to_nat (pop_size self - 1)))
      as [idx1 H1]; [lia|].
    rewrite H1.
    rewrite (bind_ok (lift (Ok idx1)) _ s3 idx1 s3 eq_refl).
    rewrite (lookup_ge_None_2 parents (Z.to_nat (pop_size self - 1) + 1))
      by lia.
    reflexivity. }
  rewrite (py_range2_odd (pop_size self)) by lia.
  erewrite bind_raise; [reflexivity|].
  rewrite for_each_snoc. rewrite (bind_ok _ _ _ _ _ El). exact Eb.
Qed.

(** X18.  With elitism on, no fewer elites than individuals and genomes that are
    not empty, no child is bred and stacking the empty array of children on
    the elites fails. *)
Lemma step_only_elites_raises (self : GeneticAlgorithm)
    (population fitnesses : ndarray) (s : state) :
  elitism self = true ->
  (0 < elitism_frac self)%Q ->
  (1 <= tournament_size self <= pop_size self)%Z ->
  shape population = [Z.to_nat (pop_size self); genome_length self] ->
  wf (st_heap s) population ->
  shape fitnesses = [Z.to_nat (pop_size self)] ->
  wf (st_heap s) fitnesses ->
  Z.to_nat (pop_size self) <= n_elites self ->
  1 <= genome_length self ->
  (step self population fitnesses s).1 = Raise ValueError.
Proof.
  intros Hel Hfrac Hts Sp Wp Sf Wf Hn HL.
  set (P := Z.to_nat (pop_size self)) in *.
  set (L := genome_length self) in *.
  set (fit := view_data (st_heap s) fitnesses).
  assert (length fit = P) as Lfit.
  { unfold fit. rewrite (view_data_length _ _ Wf). apply (size_1 _ _ Sf). }
  set (es := py_lastn (n_elites self) (np_argsort fit)).
  assert (length (np_argsort fit) = P) as Largs.
  { rewrite (argsort_perm fit), length_seq. exact Lfit. }
  assert (es = py_lastn P (np_argsort fit)) as Hes.
  { unfold es, py_lastn. rewrite Largs.
    replace (P - n_elites self) with 0 by lia.
    replace (P - P) with 0 by lia. reflexivity. }
  assert (top_indices fit P P es) as Htop.
  { pose proof (elite_indices_top fit P) as Ht. rewrite Lfit in Ht.
    rewrite Hes. apply Ht. lia. }
  destruct Htop as (Hlen & _ & Hlt & _).
  assert (Forall (fun i => i < P) es) as Hidx.
  { apply Forall_forall. exact Hlt. }
  destruct (np_take_rows_ok population P L es s Sp Wp Hidx)
    as (E & s1 & EE & SE & _).
  destruct (tournament_selection_ok self fitnesses P s1 Hts Sf (le_n _))
    as (parents & g' & Et & _).
  unfold step, select_elites. rewrite Hel.
  rewrite (proj2 (Qltb_lt _ _) Hfrac). cbn [andb].
  change (Z.to_nat (Z.max 1 _)) with (n_elites self).
  assert ((f <- read fitnesses ;;
           np_take_rows population (py_lastn (n_elites self) (np_argsort f)))
            s = (Ok E, s1)) as EE'.
  { rewrite (bind_ok (read fitnesses) _ s _ s eq_refl). exact EE. }
  rewrite (bind_ok _ _ _ _ _ EE'), (bind_ok _ _ _ _ _ Et).
  unfold shape0. rewrite SE, Hlen.
  set (s2 := State (st_heap s1) g').
  rewrite (bind_ok (lift (Ok P)) _ s2 _ s2 eq_refl).
  replace (pop_size self - Z.of_nat P)%Z with 0%Z by (unfold P; lia).
  change (py_range2 0) with (@nil nat). cbn [for_each].
  rewrite (bind_ok (ret []) _ s2 [] s2 eq_refl).
  cbn [np_array].
  rewrite (bind_ok (alloc [0] []) _ s2 _ _ eq_refl).
  cbn [np_slice0 shape slice_stop Z.ltb Z.compare Z.to_nat Nat.min lift].
  erewrite bind_ok by reflexivity.
  rewrite (size_2 _ _ _ SE), Hlen.
  destruct (Nat.eqb_spec (P * L) 0) as [E0|_]; [nia|]. cbn [negb].
  unfold np_vstack. cbn [shape atleast_2d]. rewrite SE. cbn [atleast_2d].
  rewrite bool_decide_eq_false_2; [reflexivity|].
  intros [= E0]. lia.
Qed.
End StepFailures.

(** ** ga.py: the number of elites *)

Lemma py_int_floor (q : Q) : (0 <= q)%Q -> py_int q = Qfloor q.
Proof.
  destruct q as [n d]. unfold Qle, py_int, Qfloor. simpl. intros H.
  apply Z.quot_div_nonneg; lia.
Qed.

(** For a non-negative fraction and population size, the number of elites
    [max(1, int(elitism_frac * pop_size))] of the code is
    [max(1, floor(elitism_frac * pop_size))]. *)
Lemma n_elites_floor (self : GeneticAlgorithm) :
  (0 <= elitism_frac self)%Q -> (0 <= pop_size self)%Z ->
  n_elites self
  = Z.to_nat
      (Z.max 1 (Qfloor (elitism_frac self * inject_Z (pop_size self)))).
Proof.
  intros Hf Hp. unfold n_elites. rewrite py_int_floor; [reflexivity|].
  apply Qmult_le_0_compat; [exact Hf|].
  unfold Qle. simpl. lia.
Qed.

(* ===================================================================== *)
(** * Part III.  Further properties of the code                            *)
(* ===================================================================== *)

(** ** network.py: decoding again, and acting after decoding *)

Lemma decode_inv (ls : list nat) (ws : list matrix) (bs : list (list Q))
    (genome : list Q) (net' : FeedForwardNet) :
  decode (net_of ls ws bs) genome = Ok net' ->
  length genome = topology_length ls
  /\ net' = net_of ls
              (map fst (layers_from (shapes (FeedForwardNet_init ls)) genome 0))
              (map snd (layers_from (shapes (FeedForwardNet_init ls)) genome 0)).
Proof.
  intros H.
  destruct (Nat.eq_dec (length genome) (topology_length ls)) as [E|Hne].
  - split; [exact E|]. rewrite (decode_ok _ _ _ _ E) in H.
    injection H as <-. reflexivity.
  - exfalso. unfold decode, net_of in H. cbn [num_weights] in H.
    rewrite num_weights_init in H.
    destruct (Nat.eqb_spec (length genome) (topology_length ls)) as [E|_];
      [contradiction | discriminate].
Qed.

(** X1.  [decode] replaces the parameters, it does not add to them: after
    decoding [g1] and then [g2] the network holds one weight matrix and one
    bias vector per layer transition, and they are those of [g2]. *)
Theorem decode_twice_keeps_last (ls : list nat) (ws : list matrix)
    (bs : list (list Q)) (g1 g2 : list Q) (net1 : FeedForwardNet) :
  decode (net_of ls ws bs) g1 = Ok net1 ->
  length g2 = topology_length ls ->
  exists net2,
    decode net1 g2 = Ok net2
    /\ decode (net_of ls [] []) g2 = Ok net2
    /\ length (weights net2) = length ls - 1
    /\ length (biases net2) = length ls - 1
    /\ encode (weights net2) (biases net2) = g2.
Proof.
  intros H1 H2. destruct (decode_inv _ _ _ _ _ H1) as [_ ->].
  eexists. split; [apply (decode_ok _ _ _ _ H2)|].
  split; [apply (decode_ok _ _ _ _ H2)|].
  unfold net_of. cbn [weights biases].
  rewrite !length_map, !layers_from_length, shapes_init_length.
  split; [reflexivity|]. split; [reflexivity|].
  assert (py_sum (map layer_size (shapes (FeedForwardNet_init ls)))
          = length g2) as Htot.
  { rewrite H2, <- num_weights_init. reflexivity. }
  rewrite encode_layers_from by (rewrite Htot; lia).
  rewrite Nat.add_0_l, Htot. apply py_slice_all.
Qed.

Lemma decode_twice_keeps_last_witness :
  exists net2,
    decode (net_of [2; 1] [Matrix 2 1 [7; 8]%Q] [[9]%Q]) [1; 2; 3]%Q = Ok net2
    /\ encode (weights net2) (biases net2) = [1; 2; 3]%Q.
Proof.
  destruct (decode_twice_keeps_last [2; 1] [] [] [7; 8; 9]%Q [1; 2; 3]%Q
              (net_of [2; 1] [Matrix 2 1 [7; 8]%Q] [[9]%Q]) eq_refl eq_refl)
    as (net2 & Hd & _ & _ & _ & He).
  exists net2. split; [exact Hd | exact He].
Defined.

Lemma np_matmul_length (x : list Q) (W : matrix) :
  length x = nrows W ->
  exists y, np_matmul x W = Ok y /\ length y = ncols W.
Proof.
  intros H. unfold np_matmul. rewrite H, Nat.eqb_refl.
  eexists. split; [reflexivity|]. rewrite length_map, length_seq. reflexivity.
Qed.

Lemma np_add_length (a b : list Q) :
  length a = length b ->
  exists z, np_add a b = Ok z /\ length z = length a.
Proof.
  intros H. unfold np_add, bcast_len. rewrite H, Nat.eqb_refl.
  eexists. split; [reflexivity|]. rewrite length_map, length_seq. reflexivity.
Qed.

Section ActAfterDecode.
Variable tanh : Q -> Q.
Variable float32 : Q -> Q.

Lemma affine_length (x : list Q) (W : matrix) (b : list Q) :
  length x = nrows W -> length b = ncols W ->
  exists z, affine x W b = Ok z /\ length z = ncols W.
Proof.
  intros Hx Hb. unfold affine.
  destruct (np_matmul_length x W Hx) as (y & -> & Ly). cbn [rbind].
  destruct (np_add_length y b) as (z & -> & Lz); [congruence|].
  exists z. split; [reflexivity | congruence].
Qed.

Lemma topology_length_cons (a b : nat) (rest : list nat) :
  topology_length (a :: b :: rest)
  = a * b + b + topology_length (b :: rest).
Proof. reflexivity. Qed.

Lemma forward_layers_from (ls : list nat) (genome : list Q) :
  forall idx x,
    2 <= length ls ->
    length x = nth 0 ls 0 ->
    idx + topology_length ls <= length genome ->
    exists logits,
      forward_spec tanh
        (layers_from (shapes (FeedForwardNet_init ls)) genome idx) x
      = Ok logits
      /\ length logits = nth (length ls - 1) ls 0.
Proof.
  induction ls as [|a [|b rest] IH]; intros idx x Hlen Hx Hg;
    try (simpl in Hlen; lia).
  rewrite shapes_init_cons. cbn [layers_from].
  rewrite topology_length_cons in Hg. simpl in Hx.
  set (W := Matrix a b (py_slice genome idx (idx + a * b))).
  set (bias := py_slice genome (idx + a * b) (idx + a * b + b)).
  destruct (affine_length x W bias) as (z & Ez & Lz).
  { exact Hx. }
  { unfold bias. rewrite py_slice_length by lia. simpl. lia. }
  simpl in Lz.
  destruct rest as [|c rest].
  - exists z. split; [|simpl; exact Lz].
    change (shapes (FeedForwardNet_init [b])) with (@nil (nat * nat)).
    cbn [layers_from forward_spec]. exact Ez.
  - destruct (IH (idx + a * b + b) (map tanh z)) as (logits & El & Ll).
    { simpl. lia. }
    { rewrite length_map. simpl. exact Lz. }
    { lia. }
    exists logits. split.
    + rewrite shapes_init_cons in El |- *. cbn [layers_from] in El |- *.
      cbn [forward_spec]. rewrite Ez. cbn [rbind]. exact El.
    + rewrite Ll. cbn [length]. rewrite !Nat.sub_succ, !Nat.sub_0_r.
      reflexivity.
Qed.

Lemma zip_fst_snd {A B} (l : list (A * B)) : zip (map fst l) (map snd l) = l.
Proof.
  induction l as [|[a b] l IH]; simpl; [reflexivity | rewrite IH; reflexivity].
Qed.

Lemma act_as_forward (self : FeedForwardNet) (obs : list Q) (discrete : bool) :
  weights self <> [] ->
  length (weights self) = length (biases self) ->
  act tanh float32 self obs discrete
  = (logits <- forward_spec tanh (zip (weights self) (biases self))
                 (map float32 obs) ;;
     if discrete then (a <- np_argmax logits ;; Ok (Discrete a))
     else Ok (Continuous logits))%res.
Proof.
  intros Hne Hlen.
  rewrite <- (hidden_then_last tanh _ _ _ Hne Hlen). unfold act.
  destruct (weights self) as [|W ws] eqn:EW; [congruence|].
  destruct (biases self) as [|b bs] eqn:EB; [discriminate|].
  destruct (hidden_loop tanh _ _) as [x'|e]; [|reflexivity]. cbn [rbind].
  destruct (py_last (W :: ws)) as [Wl|e]; [|reflexivity]. cbn [rbind].
  destruct (py_last (b :: bs)) as [bl|e]; [|reflexivity]. cbn [rbind].
  destruct (np_matmul x' Wl) as [xW|e]; [|reflexivity]. cbn [rbind].
  destruct (np_add xW bl) as [lg|e]; reflexivity.
Qed.

Lemma decoded_act_as_forward (ls : list nat) (genome obs : list Q)
    (discrete : bool) :
  2 <= length ls ->
  let layers := layers_from (shapes (FeedForwardNet_init ls)) genome 0 in
  act tanh float32 (net_of ls (map fst layers) (map snd layers)) obs discrete
  = (logits <- forward_spec tanh layers (map float32 obs) ;;
     if discrete then (a <- np_argmax logits ;; Ok (Discrete a))
     else Ok (Continuous logits))%res.
Proof.
  intros Hls layers.
  rewrite act_as_forward.
  - unfold net_of. cbn [weights biases]. rewrite zip_fst_snd. reflexivity.
  - unfold net_of. cbn [weights]. intros E.
    apply (f_equal length) in E. rewrite length_map in E.
    unfold layers in E. rewrite layers_from_length, shapes_init_length in E.
    simpl in E. lia.
  - unfold net_of. cbn [weights biases]. rewrite !length_map. reflexivity.
Qed.

(** X2.  After a successful [decode] of a topology with at least two layer
    sizes, [act] on an observation of the input layer's width does not
    raise: with [discrete] false it returns as many logits as the output
    layer is wide, and with [discrete] true (and an output layer that is not
    empty) an action index below the output layer's width. *)
Theorem act_after_decode_succeeds (ls : list nat) (ws : list matrix)
    (bs : list (list Q)) (genome obs : list Q) (net' : FeedForwardNet) :
  2 <= length ls ->
  decode (net_of ls ws bs) genome = Ok net' ->
  length obs = nth 0 ls 0 ->
  (exists logits,
     act tanh float32 net' obs false = Ok (Continuous logits)
     /\ length logits = nth (length ls - 1) ls 0)
  /\ (1 <= nth (length ls - 1) ls 0 ->
      exists a,
        act tanh float32 net' obs true = Ok (Discrete a)
        /\ a < nth (length ls - 1) ls 0).
Proof.
  intros Hls Hd Hobs. destruct (decode_inv _ _ _ _ _ Hd) as [Hg ->].
  destruct (forward_layers_from ls genome 0 (map float32 obs) Hls)
    as (logits & Ef & Ll).
  { rewrite length_map. exact Hobs. }
  { lia. }
  split.
  - exists logits. split; [|exact Ll].
    rewrite decoded_act_as_forward by exact Hls. cbn zeta.
    rewrite Ef. reflexivity.
  - intros Hout.
    destruct (np_argmax_first_max logits) as (a & Ea & Hfm).
    { intros ->. simpl in Ll. lia. }
    exists a. split.
    + rewrite decoded_act_as_forward by exact Hls. cbn zeta.
      rewrite Ef. cbn [rbind]. rewrite Ea. reflexivity.
    + destruct Hfm as [Ha _]. lia.
Qed.

(** X3.  After a successful [decode], [act] on an observation whose length is not
    the input layer's width raises [ValueError] (from the first matrix
    product), whatever [discrete] is. *)
Theorem act_wrong_observation_length_raises (ls : list nat)
    (ws : list matrix) (bs : list (list Q)) (genome obs : list Q)
    (net' : FeedForwardNet) (discrete : bool) :
  2 <= length ls ->
  decode (net_of ls ws bs) genome = Ok net' ->
  length obs <> nth 0 ls 0 ->
  act tanh float32 net' obs discrete = Raise ValueError.
Proof.
  intros Hls Hd Hobs. destruct (decode_inv _ _ _ _ _ Hd) as [Hg ->].
  rewrite decoded_act_as_forward by exact Hls. cbn zeta.
  destruct ls as [|a [|b rest]]; try (simpl in Hls; lia).
  rewrite shapes_init_cons. cbn [layers_from].
  simpl in Hobs.
  assert (forall W (bias : list Q), nrows W = a ->
            affine (map float32 obs) W bias = Raise ValueError) as Haff.
  { intros W bias HW. unfold affine, np_matmul. rewrite length_map, HW.
    destruct (Nat.eqb_spec (length obs) a) as [E|_]; [contradiction|].
    reflexivity. }
  destruct (layers_from (shapes (FeedForwardNet_init (b :: rest))) genome _);
    cbn [forward_spec]; rewrite Haff by reflexivity; reflexivity.
Qed.

(** X4.  A network built from fewer than two layer sizes can never act: it
    expects the empty genome, decoding it leaves no parameters, and [act]
    still fails its not-decoded assertion. *)
Theorem single_layer_network_never_acts (ls : list nat) (genome obs : list Q)
    (discrete : bool) :
  length ls <= 1 ->
  (decode (FeedForwardNet_init ls) genome = Raise ShapeMismatch
   <-> genome <> [])
  /\ (forall net',
        decode (FeedForwardNet_init ls) genome = Ok net' ->
        weights net' = []
        /\ act tanh float32 net' obs discrete = Raise NotDecoded).
Proof.
  intros Hls.
  assert (shapes (FeedForwardNet_init ls) = []) as Hs.
  { destruct ls as [|a [|b rest]]; try reflexivity. simpl in Hls. lia. }
  assert (num_weights (FeedForwardNet_init ls) = 0) as Hn.
  { change (num_weights (FeedForwardNet_init ls))
      with (py_sum (map layer_size (shapes (FeedForwardNet_init ls)))).
    rewrite Hs. reflexivity. }
  unfold decode. rewrite Hn, Hs. cbn [decode_loop rbind fst snd].
  destruct genome as [|g genome]; simpl.
  - split; [split; [discriminate | congruence]|].
    intros net' [= <-]. split; reflexivity.
  - split; [split; [discriminate | reflexivity]|].
    intros net' H. discriminate.
Qed.
End ActAfterDecode.

Lemma act_after_decode_succeeds_witness :
  exists net' a,
    decode (net_of [1; 2] [] []) [1; 2; 0; 0]%Q = Ok net'
    /\ act (fun x => x) (fun x => x) net' [3%Q] true = Ok (Discrete a)
    /\ a < 2.
Proof.
  destruct (proj2 (act_after_decode_succeeds (fun x => x) (fun x => x)
                     [1; 2] [] [] [1; 2; 0; 0]%Q [3%Q] _
                     (le_n 2) eq_refl eq_refl))
    as (a & Ha & Hlt).
  - simpl. lia.
  - eexists _, a. split; [reflexivity|]. split; [exact Ha | exact Hlt].
Defined.

Lemma act_wrong_observation_length_raises_witness :
  exists net',
    decode (net_of [1; 2] [] []) [1; 2; 0; 0]%Q = Ok net'
    /\ act (fun x => x) (fun x => x) net' [3; 4]%Q true = Raise ValueError.
Proof.
  eexists. split; [reflexivity|].
  apply (act_wrong_observation_length_raises (fun x => x) (fun x => x)
           [1; 2] [] [] [1; 2; 0; 0]%Q [3; 4]%Q _ true (le_n 2) eq_refl).
  simpl. lia.
Defined.

Lemma single_layer_network_never_acts_witness :
  exists net',
    decode (FeedForwardNet_init [4]) [] = Ok net'
    /\ weights net' = []
    /\ act (fun x => x) (fun x => x) net' [1%Q] true = Raise NotDecoded.
Proof.
  eexists. split; [reflexivity|].
  apply (proj2 (single_layer_network_never_acts (fun x => x) (fun x => x)
                  [4] [] [1%Q] true (le_n 1))).
  reflexivity.
Defined.

(** ** env_runner.py: episode counts below one, and failures *)

Section EvaluateEdges.
Variables envT obsT actT : Type.
Variable env_reset : option Z -> envT -> result obsT * envT.
Variable env_step :
  actT -> envT -> result (obsT * Q * bool * bool) * envT.
Variable env_render : envT -> envT.
Variable network_act : obsT -> bool -> result actT.

(** X5.  With a negative episode count the loop body never runs: the environment
    is not touched and the result is [0.0 / episodes], which is zero. *)
Theorem evaluate_negative_episodes (self : EnvRunner) (render : bool)
    (fuel : nat) (episodes : Z) (env : envT) :
  (episodes < 0)%Z ->
  evaluate env_reset env_step env_render network_act self fuel episodes
    render env
  = Some (Ok (0 / inject_Z episodes)%Q, env)
  /\ (0 / inject_Z episodes == 0)%Q.
Proof.
  intros Hneg. split.
  - unfold evaluate. replace (Z.to_nat episodes) with 0 by lia.
    cbn [seq episodes_loop]. unfold py_truediv.
    destruct (Z.eqb_spec episodes 0) as [E|_]; [lia | reflexivity].
  - unfold Qdiv. apply Qmult_0_l.
Qed.

Lemma episodes_loop_app (self : EnvRunner) (render : bool) (fuel : nat)
    (l l' : list nat) :
  forall total env rs env1,
    episode_returns env_reset env_step env_render network_act
      self render fuel l env = Some (rs, env1) ->
    episodes_loop env_reset env_step env_render network_act
      self render fuel (l ++ l') total env
    = episodes_loop env_reset env_step env_render network_act
        self render fuel l' (fold_left Qplus rs total) env1.
Proof.
  induction l as [|ep l IH]; intros total env rs env1 H.
  - simpl in H. injection H as <- <-. reflexivity.
  - simpl in H. simpl.
    destruct (run_episode _ _ _ _ _ _ _ _ _) as [[[r|e] env2]|];
      try discriminate.
    destruct (episode_returns _ _ _ _ _ _ _ _ env2) as [[rs2 env3]|] eqn:E;
      try discriminate.
    injection H as <- <-. simpl. apply (IH _ _ _ _ E).
Qed.

(** X6.  The first exception raised by the environment or by the policy is what
    [evaluate] raises: if episodes [0 .. k-1] run to their end and episode
    [k] raises [e], so does [evaluate], in the environment state of the
    failure; no later episode is run and nothing is averaged. *)
Theorem evaluate_first_failure_propagates (self : EnvRunner) (render : bool)
    (fuel : nat) (episodes : Z) (env : envT) (k : nat) rs env_k e env' :
  k < Z.to_nat episodes ->
  episode_returns env_reset env_step env_render network_act
    self render fuel (seq 0 k) env = Some (rs, env_k) ->
  run_episode env_reset env_step env_render network_act
    self render fuel k env_k = Some (Raise e, env') ->
  evaluate env_reset env_step env_render network_act self fuel episodes
    render env
  = Some (Raise e, env').
Proof.
  intros Hk Hrs Hfail. unfold evaluate.
  replace (Z.to_nat episodes) with (k + S (Z.to_nat episodes - S k)) by lia.
  rewrite seq_app. cbn [seq]. rewrite Nat.add_0_l.
  rewrite (episodes_loop_app _ _ _ _ _ _ _ _ _ Hrs).
  cbn [episodes_loop]. rewrite Hfail. reflexivity.
Qed.
End EvaluateEdges.

Lemma evaluate_negative_episodes_witness :
  evaluate counter_reset counter_step (fun e => e) constant_policy
    (Runner None true) 5 (-2) false 7
  = Some (Ok (0 / inject_Z (-2))%Q, 7).
Proof.
  apply (proj1 (evaluate_negative_episodes nat unit unit
                  counter_reset counter_step (fun e => e) constant_policy
                  (Runner None true) false 5 (-2) 7 eq_refl)).
Defined.

(** The second episode fails: the policy raises once the environment has
    been reset with seed 11. *)
Lemma evaluate_first_failure_propagates_witness :
  evaluate (fun sd (_ : nat) =>
              (Ok (match sd with Some 11%Z => false | _ => true end), 0))
    (fun (_ : unit) e => (Ok (true, 1%Q, true, false), S e))
    (fun e => e)
    (fun (ok : bool) _ => if ok then Ok tt else Raise ValueError)
    (Runner (Some 10%Z) true) 5 3 false 0
  = Some (Raise ValueError, 0).
Proof.
  eapply (evaluate_first_failure_propagates nat bool unit _ _ _ _
            (Runner (Some 10%Z) true) false 5 3 0 1).
  - simpl. lia.
  - vm_compute. reflexivity.
  - vm_compute. reflexivity.
Defined.

(** ** ga.py: crossover and mutation *)

Section GeneticOperators.
Context {G : Generator} {AS : ArgSort} {GS : GeneratorSpec G}.
Local Open Scope ga_scope.

Lemma bcast_get_nth {A} (d : A) (l : list A) (i : nat) :
  i < length l -> bcast_get d l i = nth i l d.
Proof.
  intros Hi. unfold bcast_get.
  destruct (Nat.eqb_spec (length l) 1) as [E|_]; [|reflexivity].
  replace i with 0 by lia. reflexivity.
Qed.

Lemma nth_map_seq {A} (f : nat -> A) (L i : nat) (d : A) :
  i < L -> nth i (map f (seq 0 L)) d = f i.
Proof.
  intros Hi. apply nth_lookup_Some.
  rewrite list_lookup_fmap, lookup_seq_lt by lia. reflexivity.
Qed.

Lemma view_data_alloc_old (h : heap) (d : list Q) (a : ndarray) :
  base a < length h -> view_data (h ++ [d]) a = view_data h a.
Proof.
  intros Ha. unfold view_data. rewrite lookup_app_l by exact Ha. reflexivity.
Qed.

Lemma view_data_alloc_new (h : heap) (d : list Q) (sh : list nat) :
  length d = prod_list sh ->
  view_data (h ++ [d]) (NdArray (length h) 0 sh) = d.
Proof.
  intros Hd. unfold view_data, size. cbn [base offset shape].
  rewrite lookup_app_r by lia. rewrite Nat.sub_diag. simpl.
  rewrite <- Hd. apply firstn_all.
Qed.

Lemma wf_base_lt (h : heap) (a : ndarray) : wf h a -> base a < length h.
Proof. intros (buf & Hb & _). apply lookup_lt_is_Some. eauto. Qed.

Lemma view_data_length_1 (h : heap) (a : ndarray) (L : nat) :
  shape a = [L] -> wf h a -> length (view_data h a) = L.
Proof.
  intros Sa Wa. rewrite (view_data_length _ _ Wa). unfold size.
  rewrite Sa. apply prod_list_1.
Qed.

Lemma np_where_run (mask : list bool) (a b : ndarray) (L : nat) (s : state) :
  length mask = L -> shape a = [L] -> shape b = [L] ->
  wf (st_heap s) a -> wf (st_heap s) b ->
  np_where mask a b s
  = (Ok (NdArray (length (st_heap s)) 0 [L]),
     State (st_heap s
            ++ [map (fun i =>
                       if nth i mask false
                       then nth i (view_data (st_heap s) a) 0%Q
                       else nth i (view_data (st_heap s) b) 0%Q)
                    (seq 0 L)])
           (st_rng s)).
Proof.
  intros Hm Sa Sb Wa Wb.
  pose proof (view_data_length_1 _ _ _ Sa Wa) as La.
  pose proof (view_data_length_1 _ _ _ Sb Wb) as Lb.
  unfold np_where.
  rewrite (bind_ok (read a) _ s _ s eq_refl).
  rewrite (bind_ok (read b) _ s _ s eq_refl).
  rewrite La, Lb, Hm. unfold bcast_len. rewrite !Nat.eqb_refl.
  unfold alloc. do 3 f_equal. f_equal.
  apply map_ext_in. intros i Hi. apply in_seq in Hi.
  rewrite !bcast_get_nth by lia. reflexivity.
Qed.

Lemma np_copy_run (a : ndarray) (s : state) :
  np_copy a s
  = (Ok (NdArray (length (st_heap s)) 0 (shape a)),
     State (st_heap s ++ [view_data (st_heap s) a]) (st_rng s)).
Proof. reflexivity. Qed.

(** X7.  [crossover] returns two new arrays of the genome's length and leaves
    the parents as they were; at every position the two children hold the
    two parents' genes of that position, one each. *)
Theorem crossover_children_from_parents (self : GeneticAlgorithm)
    (parent1 parent2 : ndarray) (s : state) :
  shape parent1 = [genome_length self] ->
  shape parent2 = [genome_length self] ->
  wf (st_heap s) parent1 -> wf (st_heap s) parent2 ->
  exists child1 child2 s',
    crossover self parent1 parent2 s = (Ok (child1, child2), s')
    /\ fresh (length (st_heap s)) child1
    /\ fresh (length (st_heap s)) child2
    /\ base child1 <> base child2
    /\ view_data (st_heap s') parent1 = view_data (st_heap s) parent1
    /\ view_data (st_heap s') parent2 = view_data (st_heap s) parent2
    /\ length (view_data (st_heap s') child1) = genome_length self
    /\ length (view_data (st_heap s') child2) = genome_length self
    /\ forall i, i < genome_length self ->
         let p1 := nth i (view_data (st_heap s) parent1) 0%Q in
         let p2 := nth i (view_data (st_heap s) parent2) 0%Q in
         let c1 := nth i (view_data (st_heap s') child1) 0%Q in
         let c2 := nth i (view_data (st_heap s') child2) 0%Q in
         (c1 = p1 /\ c2 = p2) \/ (c1 = p2 /\ c2 = p1).
Proof.
  intros S1 S2 W1 W2.
  set (L := genome_length self) in *.
  set (h := st_heap s).
  pose proof (wf_base_lt _ _ W1) as B1. pose proof (wf_base_lt _ _ W2) as B2.
  pose proof (view_data_length_1 _ _ _ S1 W1) as L1.
  pose proof (view_data_length_1 _ _ _ S2 W2) as L2.
  fold h in B1, B2, L1, L2.
  assert (forall d1 d2 g,
            length d1 = L -> length d2 = L ->
            (forall i, i < L ->
               (nth i d1 0%Q = nth i (view_data h parent1) 0%Q
                /\ nth i d2 0%Q = nth i (view_data h parent2) 0%Q)
               \/ (nth i d1 0%Q = nth i (view_data h parent2) 0%Q
                   /\ nth i d2 0%Q = nth i (view_data h parent1) 0%Q)) ->
            let c1 := NdArray (length h) 0 [L] in
            let c2 := NdArray (S (length h)) 0 [L] in
            let s' := State ((h ++ [d1]) ++ [d2]) g in
            fresh (length h) c1 /\ fresh (length h) c2
            /\ base c1 <> base c2
            /\ view_data (st_heap s') parent1 = view_data h parent1
            /\ view_data (st_heap s') parent2 = view_data h parent2
            /\ length (view_data (st_heap s') c1) = L
            /\ length (view_data (st_heap s') c2) = L
            /\ forall i, i < L ->
                 (nth i (view_data (st_heap s') c1) 0%Q
                  = nth i (view_data h parent1) 0%Q
                  /\ nth i (view_data (st_heap s') c2) 0%Q
                     = nth i (view_data h parent2) 0%Q)
                 \/ (nth i (view_data (st_heap s') c1) 0%Q
                     = nth i (view_data h parent2) 0%Q
                     /\ nth i (view_data (st_heap s') c2) 0%Q
                        = nth i (view_data h parent1) 0%Q)) as Hfinal.
  { intros d1 d2 g Ld1 Ld2 Hgenes c1 c2 s'. subst s'. cbn [st_heap].
    assert (view_data ((h ++ [d1]) ++ [d2]) c1 = d1) as V1.
    { rewrite view_data_alloc_old
        by (cbn [base c1]; rewrite length_app; simpl; lia).
      apply view_data_alloc_new. rewrite prod_list_1. exact Ld1. }
    assert (view_data ((h ++ [d1]) ++ [d2]) c2 = d2) as V2.
    { replace c2 with (NdArray (length (h ++ [d1])) 0 [L])
        by (unfold c2; rewrite length_app; simpl; f_equal; lia).
      apply view_data_alloc_new. rewrite prod_list_1. exact Ld2. }
    unfold fresh. cbn [base c1 c2].
    split; [lia|]. split; [lia|]. split; [lia|].
    split.
    { rewrite !view_data_alloc_old; [reflexivity | exact B1 |].
      rewrite length_app. simpl. lia. }
    split.
    { rewrite !view_data_alloc_old; [reflexivity | exact B2 |].
      rewrite length_app. simpl. lia. }
    rewrite V1, V2. split; [exact Ld1|]. split; [exact Ld2 | exact Hgenes]. }
  unfold crossover.
  rewrite (bind_ok _ _ _ _ _ (draw_eq rng_random s)).
  set (s0 := State (st_heap s) (rng_random (st_rng s)).2).
  destruct (Qltb _ (crossover_rate self)).
  - rewrite (bind_ok _ _ _ _ _ (draw_eq (rng_random_n L) s0)).
    set (r := (rng_random_n L (st_rng s0)).1).
    set (s1 := State (st_heap s0) _).
    set (mask := map (fun x => Qltb x (1 # 2)) r).
    assert (length mask = L) as Hm.
    { unfold mask, r. rewrite length_map. apply random_n_spec. }
    rewrite (bind_ok _ _ _ _ _ (np_where_run mask parent1 parent2 L s1
                                  Hm S1 S2 W1 W2)).
    cbn [st_heap st_rng s1 s0]. fold h.
    set (d1 := map _ (seq 0 L)).
    set (s2 := State (h ++ [d1]) _).
    assert (wf (st_heap s2) parent1 /\ wf (st_heap s2) parent2) as [W1' W2'].
    { split; destruct W1 as (b1 & Hb1 & Hl1), W2 as (b2 & Hb2 & Hl2).
      - exists b1. split; [apply lookup_app_l_Some; exact Hb1 | exact Hl1].
      - exists b2. split; [apply lookup_app_l_Some; exact Hb2 | exact Hl2]. }
    rewrite (bind_ok _ _ _ _ _ (np_where_run mask parent2 parent1 L s2
                                  Hm S2 S1 W2' W1')).
    cbn [st_heap st_rng s2].
    rewrite !view_data_alloc_old by assumption.
    set (d2 := map _ (seq 0 L)).
    replace (length (h ++ [d1])) with (S (length h))
      by (rewrite length_app; simpl; lia).
    eexists _, _, _. split; [reflexivity|].
    apply Hfinal.
    + unfold d1. rewrite length_map, length_seq. reflexivity.
    + unfold d2. rewrite length_map, length_seq. reflexivity.
    + intros i Hi. unfold d1, d2. rewrite !nth_map_seq by exact Hi.
      destruct (nth i mask false); [left | right]; split; reflexivity.
  - rewrite (bind_ok _ _ _ _ _ (np_copy_run parent1 s0)).
    cbn [st_heap st_rng s0]. fold h.
    set (s2 := State (h ++ [view_data h parent1]) _).
    rewrite (bind_ok _ _ _ _ _ (np_copy_run parent2 s2)).
    cbn [st_heap st_rng s2].
    rewrite view_data_alloc_old by exact B2.
    rewrite S1, S2.
    replace (length (h ++ [view_data h parent1])) with (S (length h))
      by (rewrite length_app; simpl; lia).
    eexists _, _, _. split; [reflexivity|].
    apply Hfinal; [exact L1 | exact L2 |].
    intros i Hi. left. split; reflexivity.
Qed.

(** X8.  When the number drawn is not below [crossover_rate] there is no
    recombination: the children are copies of the parents, entry for entry,
    in new arrays. *)
Theorem crossover_without_recombination_copies (self : GeneticAlgorithm)
    (parent1 parent2 : ndarray) (s : state) :
  Qltb (rng_random (st_rng s)).1 (crossover_rate self) = false ->
  wf (st_heap s) parent1 -> wf (st_heap s) parent2 ->
  exists child1 child2 s',
    crossover self parent1 parent2 s = (Ok (child1, child2), s')
    /\ shape child1 = shape parent1 /\ shape child2 = shape parent2
    /\ base child1 <> base parent1 /\ base child2 <> base parent2
    /\ view_data (st_heap s') child1 = view_data (st_heap s) parent1
    /\ view_data (st_heap s') child2 = view_data (st_heap s) parent2.
Proof.
  intros Hu W1 W2.
  set (h := st_heap s).
  pose proof (wf_base_lt _ _ W1) as B1. pose proof (wf_base_lt _ _ W2) as B2.
  fold h in B1, B2.
  unfold crossover.
  rewrite (bind_ok _ _ _ _ _ (draw_eq rng_random s)). rewrite Hu.
  set (s0 := State (st_heap s) (rng_random (st_rng s)).2).
  rewrite (bind_ok _ _ _ _ _ (np_copy_run parent1 s0)).
  cbn [st_heap st_rng s0]. fold h.
  set (s2 := State (h ++ [view_data h parent1]) _).
  rewrite (bind_ok _ _ _ _ _ (np_copy_run parent2 s2)).
  cbn [st_heap st_rng s2].
  rewrite view_data_alloc_old by exact B2.
  eexists _, _, _. split; [reflexivity|]. cbn [shape base st_heap].
  split; [reflexivity|]. split; [reflexivity|].
  split; [lia|]. split; [rewrite length_app; simpl; lia|].
  split.
  - rewrite view_data_alloc_old by (cbn [base]; rewrite length_app; simpl; lia).
    apply view_data_alloc_new. exact (view_data_length _ _ W1).
  - apply view_data_alloc_new. exact (view_data_length _ _ W2).
Qed.
End GeneticOperators.

Section MutateInPlace.
Context {G : Generator} {AS : ArgSort} {GS : GeneratorSpec G}.
Local Open Scope ga_scope.

Lemma nth_map_lt {A B} (f : A -> B) (l : list A) (i : nat) (d : A) (d' : B) :
  i < length l -> nth i (map f l) d' = f (nth i l d).
Proof.
  intros Hi. apply nth_lookup_Some. rewrite list_lookup_fmap.
  destruct (lookup_lt_is_Some_2 l i Hi) as [x Hx]. rewrite Hx.
  rewrite (nth_lookup_Some _ _ d _ Hx). reflexivity.
Qed.

Lemma store_lookup_outside (buf d : list Q) (o n k : nat) :
  length d = n -> o + n <= length buf ->
  k < o \/ o + n <= k ->
  (take o buf ++ d ++ drop (o + n) buf) !! k = buf !! k.
Proof.
  intros Hd Hlen [Hk|Hk].
  - rewrite lookup_app_l by (rewrite length_take; lia).
    apply lookup_take_lt. exact Hk.
  - rewrite lookup_app_r by (rewrite length_take; lia).
    rewrite lookup_app_r by (rewrite length_take; lia).
    rewrite lookup_drop, length_take. f_equal. lia.
Qed.

Lemma view_store_same (h : heap) (a : ndarray) (d : list Q) :
  wf h a -> length d = size a -> view_data (view_store h a d) a = d.
Proof.
  intros (buf & Hb & Hlen) Hd. unfold view_data, view_store.
  rewrite list_lookup_alter_eq, Hb. simpl.
  rewrite drop_app_length' by (rewrite length_take; lia).
  apply take_app_length'. symmetry. exact Hd.
Qed.

Lemma view_store_disjoint (h : heap) (a b : ndarray) (d : list Q) :
  wf h a -> length d = size a ->
  base b = base a ->
  offset b + size b <= offset a \/ offset a + size a <= offset b ->
  view_data (view_store h a d) b = view_data h b.
Proof.
  intros (buf & Hb & Hlen) Hd Hbase Hdisj. unfold view_data, view_store.
  rewrite Hbase, list_lookup_alter_eq, Hb. simpl.
  apply list_eq. intros k.
  destruct (Nat.lt_ge_cases k (size b)) as [Hk|Hk].
  - rewrite !lookup_take_lt, !lookup_drop by exact Hk.
    apply store_lookup_outside; [exact Hd | exact Hlen | lia].
  - rewrite !lookup_take_ge by exact Hk. reflexivity.
Qed.

Lemma view_store_other_buffer (h : heap) (a : ndarray) (d : list Q) (l : nat) :
  l <> base a -> view_store h a d !! l = h !! l.
Proof.
  intros Hne. unfold view_store. apply list_lookup_alter_ne. congruence.
Qed.

Lemma mutate_run (self : GeneticAlgorithm) (genome : ndarray) (s : state) :
  (0 <= mutation_sigma self)%Q ->
  shape genome = [genome_length self] ->
  wf (st_heap s) genome ->
  let L := genome_length self in
  let r := (rng_random_n L (st_rng s)).1 in
  let d := view_data (st_heap s) genome in
  exists noise g',
    length noise = L
    /\ mutate self genome s
       = (Ok genome,
          State (view_store (st_heap s) genome
                   (map (fun i =>
                           if Qltb (nth i r 0%Q) (mutation_rate self)
                           then (nth i d 0 + nth i noise 0)%Q
                           else nth i d 0%Q)
                        (seq 0 L)))
                g').
Proof.
  intros Hsig Sg Wg L r d. unfold mutate.
  rewrite (bind_ok _ _ _ _ _ (draw_eq (rng_random_n L) s)).
  fold r. set (s0 := State (st_heap s) _).
  destruct (normal_spec 0 (mutation_sigma self) L (st_rng s0) Hsig)
    as (noise & g2 & En & Ln).
  rewrite (bind_ok _ _ _ _ _ (draw_result_ok _ s0 _ _ En)).
  set (s1 := State (st_heap s0) g2).
  assert (length r = L) as Lr by apply random_n_spec.
  assert (length d = L) as Ld by (apply view_data_length_1; assumption).
  exists noise, g2. split; [exact Ln|].
  assert (np_iadd_masked genome
            (map (fun x => Qltb x (mutation_rate self)) r) noise s1
          = (Ok tt,
             State (view_store (st_heap s) genome
                      (map (fun i =>
                              if Qltb (nth i r 0%Q) (mutation_rate self)
                              then (nth i d 0 + nth i noise 0)%Q
                              else nth i d 0%Q)
                           (seq 0 L)))
                   g2)) as Ei.
  { unfold np_iadd_masked.
    rewrite (bind_ok (read genome) _ s1 _ s1 eq_refl).
    cbn [st_heap s1 s0]. fold d.
    rewrite length_map, Lr, Ln, Ld, Nat.eqb_refl. cbn [andb].
    unfold write. cbn [st_heap st_rng]. do 3 f_equal.
    apply map_ext_in. intros i Hi. apply in_seq in Hi.
    rewrite (nth_map_lt _ r i 0%Q) by lia. reflexivity. }
  rewrite (bind_ok _ _ _ _ _ Ei). reflexivity.
Qed.

(** X10.  [mutate] works in place: it returns the array it was given, allocates
    nothing and touches no other buffer; gene [i] has the noise added if the
    [i]-th number drawn is below [mutation_rate] and is left as it was
    otherwise. *)
Theorem mutate_in_place (self : GeneticAlgorithm) (genome : ndarray)
    (s : state) :
  (0 <= mutation_sigma self)%Q ->
  shape genome = [genome_length self] ->
  wf (st_heap s) genome ->
  exists noise s',
    mutate self genome s = (Ok genome, s')
    /\ length (st_heap s') = length (st_heap s)
    /\ (forall l, l <> base genome -> st_heap s' !! l = st_heap s !! l)
    /\ length noise = genome_length self
    /\ forall i, i < genome_length self ->
         nth i (view_data (st_heap s') genome) 0%Q
         = if Qltb (nth i (rng_random_n (genome_length self) (st_rng s)).1 0%Q)
                   (mutation_rate self)
           then (nth i (view_data (st_heap s) genome) 0 + nth i noise 0)%Q
           else nth i (view_data (st_heap s) genome) 0%Q.
Proof.
  intros Hsig Sg Wg.
  destruct (mutate_run self genome s Hsig Sg Wg) as (noise & g' & Ln & Er).
  eexists noise, _. split; [exact Er|]. cbn [st_heap].
  split; [apply length_alter|].
  split; [intros l Hl; apply view_store_other_buffer; exact Hl|].
  split; [exact Ln|].
  intros i Hi. rewrite view_store_same.
  - apply nth_map_seq. exact Hi.
  - exact Wg.
  - rewrite length_map, length_seq. unfold size. rewrite Sg.
    symmetry. apply prod_list_1.
Qed.

(** X11.  Called on a row of a population, as [population[i]] is a view, [mutate]
    changes the population itself: row [i] holds the mutated genome and
    every other row is as it was.  (This is why [step] mutates only the
    arrays [crossover] made.) *)
Theorem mutate_row_writes_population (self : GeneticAlgorithm)
    (population : ndarray) (P i : nat) (s : state) :
  (0 <= mutation_sigma self)%Q ->
  shape population = [P; genome_length self] ->
  wf (st_heap s) population ->
  i < P ->
  exists row s',
    np_row population i = Ok row
    /\ mutate self row s = (Ok row, s')
    /\ take (genome_length self)
         (drop (i * genome_length self)
            (view_data (st_heap s') population))
       = view_data (st_heap s') row
    /\ forall j row_j, j < P -> j <> i ->
         np_row population j = Ok row_j ->
         view_data (st_heap s') row_j = view_data (st_heap s) row_j.
Proof.
  intros Hsig Sp Wp Hi.
  set (L := genome_length self) in *.
  destruct (np_row_ok population P L i (st_heap s) Sp Wp Hi)
    as (row & Rrow & Srow & Wrow & Brow).
  destruct (mutate_run self row s Hsig Srow Wrow) as (noise & g' & Ln & Er).
  eexists row, _. split; [exact Rrow|]. split; [exact Er|].
  cbn [st_heap].
  set (d' := map _ (seq 0 (genome_length self))).
  assert (length d' = size row) as Ld'.
  { unfold d'. rewrite length_map, length_seq. unfold size. rewrite Srow.
    symmetry. apply prod_list_1. }
  assert (wf (view_store (st_heap s) row d') population) as Wp'.
  { apply (grows_wf s (State (view_store (st_heap s) row d') g'));
      [|exact Wp].
    apply (write_grows row d' s Wrow Ld'). }
  split.
  - destruct (row_data population P L i _ Sp Wp' Hi) as (row' & Rrow' & Vrow').
    rewrite Rrow in Rrow'. injection Rrow' as <-. symmetry. exact Vrow'.
  - intros j row_j Hj Hne Rj.
    unfold np_row in Rrow, Rj. rewrite Sp in Rrow, Rj.
    apply Nat.ltb_lt in Hi as Hi', Hj as Hj'. rewrite Hi' in Rrow.
    rewrite Hj' in Rj. injection Rrow as <-. injection Rj as <-.
    apply view_store_disjoint.
    + exact Wrow.
    + exact Ld'.
    + reflexivity.
    + unfold size. cbn [base offset shape]. rewrite prod_list_1.
      fold L. destruct (Nat.lt_ge_cases j i); [left | right]; nia.
Qed.
End MutateInPlace.

(** ** Runs of the genetic operators on concrete inputs *)

Lemma crossover_children_from_parents_witness :
  exists child1 child2 s',
    @crossover demo_generator
      (GA 3 2 (9 # 10) (1 # 20) (1 # 10) 2 true (1 # 20))
      (NdArray 0 0 [2]) (NdArray 0 2 [2]) demo_state
    = (Ok (child1, child2), s')
    /\ base child1 <> base child2
    /\ view_data (st_heap s') (NdArray 0 0 [2]) = [1; 2]%Q
    /\ view_data (st_heap s') (NdArray 0 2 [2]) = [3; 4]%Q.
Proof.
  destruct (@crossover_children_from_parents demo_generator
              demo_generator_spec
              (GA 3 2 (9 # 10) (1 # 20) (1 # 10) 2 true (1 # 20))
              (NdArray 0 0 [2]) (NdArray 0 2 [2]) demo_state)
    as (c1 & c2 & s' & Hrun & _ & _ & Hne & Hp1 & Hp2 & _).
  - reflexivity.
  - reflexivity.
  - eexists. split; [reflexivity|]. vm_compute. lia.
  - eexists. split; [reflexivity|]. vm_compute. lia.
  - exists c1, c2, s'. split; [exact Hrun|]. split; [exact Hne|].
    split; [exact Hp1 | exact Hp2].
Defined.

Lemma crossover_without_recombination_copies_witness :
  exists child1 child2 s',
    @crossover demo_generator
      (GA 3 2 0 (1 # 20) (1 # 10) 2 true (1 # 20))
      (NdArray 0 0 [2]) (NdArray 0 2 [2]) demo_state
    = (Ok (child1, child2), s')
    /\ view_data (st_heap s') child1 = [1; 2]%Q
    /\ view_data (st_heap s') child2 = [3; 4]%Q.
Proof.
  destruct (@crossover_without_recombination_copies demo_generator
              (GA 3 2 0 (1 # 20) (1 # 10) 2 true (1 # 20))
              (NdArray 0 0 [2]) (NdArray 0 2 [2]) demo_state)
    as (c1 & c2 & s' & Hrun & _ & _ & _ & _ & H1 & H2).
  - reflexivity.
  - eexists. split; [reflexivity|]. vm_compute. lia.
  - eexists. split; [reflexivity|]. vm_compute. lia.
  - exists c1, c2, s'. split; [exact Hrun|]. split; [exact H1 | exact H2].
Defined.

Lemma mutate_in_place_witness :
  exists s',
    @mutate demo_generator
      (GA 3 2 (9 # 10) (1 # 20) (1 # 10) 2 true (1 # 20))
      (NdArray 0 2 [2]) demo_state
    = (Ok (NdArray 0 2 [2]), s')
    /\ length (st_heap s') = 2
    /\ st_heap s' !! 1 = Some [3; 1; 2]%Q.
Proof.
  destruct (@mutate_in_place demo_generator demo_generator_spec
              (GA 3 2 (9 # 10) (1 # 20) (1 # 10) 2 true (1 # 20))
              (NdArray 0 2 [2]) demo_state)
    as (noise & s' & Hrun & Hlen & Hother & _).
  - vm_compute. discriminate.
  - reflexivity.
  - eexists. split; [reflexivity|]. vm_compute. lia.
  - exists s'. split; [exact Hrun|]. split; [exact Hlen|].
    apply (Hother 1). simpl. lia.
Defined.

Lemma mutate_row_writes_population_witness :
  exists row s',
    np_row demo_population 1 = Ok row
    /\ @mutate demo_generator
         (GA 3 2 (9 # 10) (1 # 20) (1 # 10) 2 true (1 # 20))
         row demo_state = (Ok row, s')
    /\ take 2 (drop 2 (view_data (st_heap s') demo_population))
       = view_data (st_heap s') row.
Proof.
  destruct (@mutate_row_writes_population demo_generator demo_generator_spec
              (GA 3 2 (9 # 10) (1 # 20) (1 # 10) 2 true (1 # 20))
              demo_population 3 1 demo_state)
    as (row & s' & Hrow & Hrun & Hview & _).
  - vm_compute. discriminate.
  - reflexivity.
  - eexists. split; [reflexivity|]. vm_compute. lia.
  - lia.
  - exists row, s'. split; [exact Hrow|]. split; [exact Hrun | exact Hview].
Defined.

(** ** ga.py: misuse of the operators, and the array [step] returns *)

Section OperatorEdges.
Context {G : Generator} {AS : ArgSort} {GS : GeneratorSpec G}.
Local Open Scope ga_scope.

Lemma forallb_ltb_false (n x : nat) (l : list nat) :
  x ∈ l -> n <= x -> forallb (fun i => i <? n) l = false.
Proof.
  intros Hin Hx. induction Hin as [x l|x y l _ IH]; simpl.
  - destruct (Nat.ltb_spec x n) as [H|_]; [lia | reflexivity].
  - rewrite IH by exact Hx. apply andb_false_r.
Qed.

Lemma for_each_first_raises {A T} (x : A) (rest : list A)
    (body : A -> T -> M T) (acc : T) (s : state) e s1 :
  body x acc s = (Raise e, s1) ->
  for_each (x :: rest) body acc s = (Raise e, s1).
Proof. intros H. simpl. apply bind_raise. exact H. Qed.

Lemma py_range_pos (p : Z) :
  (1 <= p)%Z -> py_range p = 0 :: seq 1 (Z.to_nat p - 1).
Proof.
  intros Hp. unfold py_range.
  replace (Z.to_nat p) with (S (Z.to_nat p - 1)) at 1 by lia. reflexivity.
Qed.

(** X13.  A tournament of size zero draws nobody: [np.argmax] is handed an empty
    array, and tournament selection raises [ValueError] in its first
    tournament without touching the store. *)
Theorem tournament_selection_empty_tournament_raises
    (self : GeneticAlgorithm) (fitnesses : ndarray) (F : nat) (s : state) :
  tournament_size self = 0%Z ->
  (1 <= pop_size self)%Z ->
  shape fitnesses = [F] ->
  exists g',
    tournament_selection self fitnesses s
    = (Raise ValueError, State (st_heap s) g').
Proof.
  intros Hts Hp Hshape.
  destruct (choice_spec (pop_size self) 0 (st_rng s))
    as (contenders & g' & Hc & Hlen & _); [lia | lia |].
  destruct contenders as [|c cs]; [|simpl in Hlen; lia].
  exists g'. unfold tournament_selection.
  rewrite (py_range_pos _ Hp). apply for_each_first_raises.
  apply bind_raise.
  unfold tournament, bind, draw_result. rewrite Hts, Hc.
  unfold np_take_values. rewrite Hshape. reflexivity.
Qed.

(** X14.  When every individual enters every tournament
    ([tournament_size = pop_size]) and the fitness vector is shorter than
    the population, the first tournament indexes past the end of the
    fitness vector: [IndexError]. *)
Theorem tournament_selection_short_fitness_raises
    (self : GeneticAlgorithm) (fitnesses : ndarray) (F : nat) (s : state) :
  tournament_size self = pop_size self ->
  (1 <= pop_size self)%Z ->
  shape fitnesses = [F] ->
  F < Z.to_nat (pop_size self) ->
  exists g',
    tournament_selection self fitnesses s
    = (Raise IndexError, State (st_heap s) g').
Proof.
  intros Hts Hp Hshape HF.
  destruct (choice_spec (pop_size self) (pop_size self) (st_rng s))
    as (contenders & g' & Hc & Hlen & Hnd & Hlt); [lia | lia |].
  assert (F ∈ contenders) as Hin.
  { assert (contenders ≡ₚ seq 0 (Z.to_nat (pop_size self))) as Hperm.
    - apply submseteq_length_Permutation.
      + apply NoDup_submseteq; [exact Hnd|].
        intros x Hx. apply elem_of_seq.
        rewrite Forall_forall in Hlt. specialize (Hlt x Hx). simpl in Hlt.
        lia.
      + rewrite length_seq, Hlen. lia.
    - rewrite Hperm. apply elem_of_seq. lia. }
  exists g'. unfold tournament_selection.
  rewrite (py_range_pos _ Hp). apply for_each_first_raises.
  apply bind_raise.
  unfold tournament, bind, draw_result. rewrite Hts, Hc.
  unfold np_take_values. rewrite Hshape.
  rewrite (forallb_ltb_false F F contenders Hin (le_n _)). reflexivity.
Qed.

(** X12.  [mutate] on an array whose length is not [genome_length] raises
    [IndexError] (the boolean mask does not fit the array) and leaves the
    store as it was: the array is not changed. *)
Theorem mutate_wrong_length_raises (self : GeneticAlgorithm)
    (genome : ndarray) (L : nat) (s : state) :
  (0 <= mutation_sigma self)%Q ->
  shape genome = [L] -> wf (st_heap s) genome ->
  L <> genome_length self ->
  exists g',
    mutate self genome s = (Raise IndexError, State (st_heap s) g').
Proof.
  intros Hsig Sg Wg HL.
  pose proof (random_n_spec (genome_length self) (st_rng s)) as Lr.
  destruct (rng_random_n (genome_length self) (st_rng s)) as [r g1] eqn:Er.
  simpl in Lr.
  destruct (normal_spec 0 (mutation_sigma self) (genome_length self) g1 Hsig)
    as (noise & g2 & En & Ln).
  exists g2. unfold mutate, bind, draw, draw_result. rewrite Er.
  cbn [st_rng st_heap]. rewrite En.
  unfold np_iadd_masked, bind, read. cbn [st_heap].
  rewrite length_map, Lr, Ln, Nat.eqb_refl.
  rewrite (view_data_length _ _ Wg). unfold size. rewrite Sg, prod_list_1.
  destruct (Nat.eqb_spec (genome_length self) L) as [E|_]; [lia|].
  reflexivity.
Qed.

(** X9.  When crossover recombines, parents whose common length is neither
    [genome_length] nor one cannot be combined with the mask of
    [genome_length] entries (for [genome_length <> 1]): [ValueError]. *)
Theorem crossover_wrong_length_raises (self : GeneticAlgorithm)
    (parent1 parent2 : ndarray) (L : nat) (s : state) :
  Qltb (rng_random (st_rng s)).1 (crossover_rate self) = true ->
  shape parent1 = [L] -> shape parent2 = [L] ->
  wf (st_heap s) parent1 -> wf (st_heap s) parent2 ->
  L <> genome_length self -> L <> 1 -> genome_length self <> 1 ->
  (crossover self parent1 parent2 s).1 = Raise ValueError.
Proof.
  intros Hu S1 S2 W1 W2 HL HL1 Hg1.
  pose proof (random_n_spec (genome_length self)
                (rng_random (st_rng s)).2) as Lr.
  unfold crossover, bind, draw. 
  destruct (rng_random (st_rng s)) as [u g1] eqn:Eu. simpl in Hu, Lr.
  rewrite Hu. cbn [st_rng st_heap].
  destruct (rng_random_n (genome_length self) g1) as [r g2] eqn:Er.
  simpl in Lr.
  unfold np_where, bind, read. cbn [st_heap].
  rewrite (view_data_length_1 _ _ _ S1 W1), (view_data_length_1 _ _ _ S2 W2).
  rewrite length_map, Lr. unfold bcast_len. rewrite Nat.eqb_refl.
  destruct (Nat.eqb_spec (genome_length self) L) as [E|_]; [lia|].
  destruct (Nat.eqb_spec (genome_length self) 1) as [E|_]; [lia|].
  destruct (Nat.eqb_spec L 1) as [E|_]; [lia|].
  reflexivity.
Qed.

Lemma framed_np_vstack_fresh n a b : framed n (np_vstack a b) (fresh n).
Proof.
  unfold np_vstack.
  destruct (atleast_2d (shape a)) as [|k ra]; [apply framed_raise|].
  destruct (atleast_2d (shape b)) as [|m rb]; [apply framed_raise|].
  destruct (bool_decide _); [|apply framed_raise].
  eapply framed_bind; [apply framed_read|]. intros da _.
  eapply framed_bind; [apply framed_read|]. intros db _.
  apply framed_alloc.
Qed.

Lemma framed_step_fresh n self population fitnesses :
  framed n (step self population fitnesses) (fresh n).
Proof.
  unfold step.
  eapply framed_bind; [apply framed_select_elites|]. intros elites _.
  eapply framed_bind; [apply framed_tournament_selection|].
  intros parent_indices _.
  eapply framed_bind;
    [apply (framed_lift n _ (fun _ => True)); intros; exact I|].
  intros n_el _.
  eapply framed_bind.
  { apply (framed_for_each n _ _ (fun _ => True)); [|exact I].
    intros i acc _. apply framed_breed. }
  intros new_pop _.
  eapply framed_bind; [apply framed_np_array|]. intros arr Harr.
  eapply framed_bind.
  { apply (framed_lift n _ (fresh n)). intros a Ha.
    unfold np_slice0 in Ha. destruct (shape arr); [discriminate|].
    injection Ha as <-. exact Harr. }
  intros new_pop' Hnew.
  destruct (negb _); [apply framed_np_vstack_fresh|].
  apply framed_ret. exact Hnew.
Qed.

(** X15.  The population [step] returns is a new array: its buffer did not exist
    before the call, so it shares no memory with the population, the fitness
    vector or any other array the caller held. *)
Theorem step_returns_new_array (self : GeneticAlgorithm)
    (population fitnesses out : ndarray) (s s' : state) :
  step self population fitnesses s = (Ok out, s') ->
  fresh (length (st_heap s)) out
  /\ (base population < length (st_heap s) -> base out <> base population)
  /\ (base fitnesses < length (st_heap s) -> base out <> base fitnesses).
Proof.
  intros Hrun.
  destruct (framed_step_fresh (length (st_heap s)) self population fitnesses
              s (le_n _)) as [_ Hf].
  rewrite Hrun in Hf. simpl in Hf. unfold fresh in *.
  split; [exact Hf|]. split; intros H; lia.
Qed.
End OperatorEdges.

Lemma tournament_selection_empty_tournament_raises_witness :
  exists g',
    @tournament_selection demo_generator
      (GA 3 2 (9 # 10) (1 # 20) (1 # 10) 0 true (1 # 20))
      demo_fitnesses demo_state
    = (Raise ValueError, @State demo_generator demo_heap g').
Proof.
  apply (@tournament_selection_empty_tournament_raises demo_generator
           demo_generator_spec
           (GA 3 2 (9 # 10) (1 # 20) (1 # 10) 0 true (1 # 20))
           demo_fitnesses 3 demo_state).
  - reflexivity.
  - simpl. lia.
  - reflexivity.
Defined.

Lemma tournament_selection_short_fitness_raises_witness :
  exists g',
    @tournament_selection demo_generator
      (GA 4 2 (9 # 10) (1 # 20) (1 # 10) 4 true (1 # 20))
      demo_fitnesses demo_state
    = (Raise IndexError, @State demo_generator demo_heap g').
Proof.
  apply (@tournament_selection_short_fitness_raises demo_generator
           demo_generator_spec
           (GA 4 2 (9 # 10) (1 # 20) (1 # 10) 4 true (1 # 20))
           demo_fitnesses 3 demo_state).
  - reflexivity.
  - simpl. lia.
  - reflexivity.
  - simpl. lia.
Defined.

Lemma mutate_wrong_length_raises_witness :
  exists g',
    @mutate demo_generator
      (GA 3 2 (9 # 10) (1 # 20) (1 # 10) 2 true (1 # 20))
      demo_fitnesses demo_state
    = (Raise IndexError, @State demo_generator demo_heap g').
Proof.
  apply (@mutate_wrong_length_raises demo_generator demo_generator_spec
           (GA 3 2 (9 # 10) (1 # 20) (1 # 10) 2 true (1 # 20))
           demo_fitnesses 3 demo_state).
  - vm_compute. discriminate.
  - reflexivity.
  - eexists. split; [reflexivity|]. vm_compute. lia.
  - simpl. lia.
Defined.

Lemma crossover_wrong_length_raises_witness :
  (@crossover demo_generator
     (GA 3 2 (9 # 10) (1 # 20) (1 # 10) 2 true (1 # 20))
     demo_fitnesses demo_fitnesses demo_state).1 = Raise ValueError.
Proof.
  apply (@crossover_wrong_length_raises demo_generator demo_generator_spec
           (GA 3 2 (9 # 10) (1 # 20) (1 # 10) 2 true (1 # 20))
           demo_fitnesses demo_fitnesses 3 demo_state).
  - reflexivity.
  - reflexivity.
  - reflexivity.
  - eexists. split; [reflexivity|]. vm_compute. lia.
  - eexists. split; [reflexivity|]. vm_compute. lia.
  - simpl. lia.
  - lia.
  - simpl. lia.
Defined.

Lemma step_returns_new_array_witness :
  exists out s',
    @step demo_generator demo_argsort
      (GA 3 2 (9 # 10) (1 # 20) (1 # 10) 2 true (1 # 20))
      demo_population demo_fitnesses demo_state = (Ok out, s')
    /\ base out <> base demo_population.
Proof.
  destruct (@step demo_generator demo_argsort
              (GA 3 2 (9 # 10) (1 # 20) (1 # 10) 2 true (1 # 20))
              demo_population demo_fitnesses demo_state)
    as [[out|e] s'] eqn:Hrun.
  - exists out, s'. split; [reflexivity|].
    apply (@step_returns_new_array demo_generator demo_argsort
             (GA 3 2 (9 # 10) (1 # 20) (1 # 10) 2 true (1 # 20))
             demo_population demo_fitnesses out demo_state s' Hrun).
    vm_compute. lia.
  - vm_compute in Hrun. discriminate Hrun.
Defined.

(** ** The two failing corners of [step], on concrete inputs *)

Lemma step_odd_without_elitism_raises_witness :
  (@step demo_generator demo_argsort
     (GA 3 2 (9 # 10) (1 # 20) (1 # 10) 2 false (1 # 20))
     demo_population demo_fitnesses demo_state).1 = Raise IndexError.
Proof.
  apply (@step_odd_without_elitism_raises demo_generator demo_argsort
           demo_generator_spec
           (GA 3 2 (9 # 10) (1 # 20) (1 # 10) 2 false (1 # 20))
           demo_population demo_fitnesses 3 demo_state).
  - reflexivity.
  - simpl. lia.
  - reflexivity.
  - vm_compute. discriminate.
  - reflexivity.
  - eexists. split; [reflexivity|]. vm_compute. lia.
  - reflexivity.
  - simpl. lia.
Defined.

Lemma step_only_elites_raises_witness :
  (@step demo_generator demo_argsort
     (GA 3 2 (9 # 10) (1 # 20) (1 # 10) 2 true 1)
     demo_population demo_fitnesses demo_state).1 = Raise ValueError.
Proof.
  apply (@step_only_elites_raises demo_generator demo_argsort
           demo_generator_spec demo_argsort_spec
           (GA 3 2 (9 # 10) (1 # 20) (1 # 10) 2 true 1)
           demo_population demo_fitnesses demo_state).
  - reflexivity.
  - reflexivity.
  - simpl. lia.
  - reflexivity.
  - eexists. split; [reflexivity|]. vm_compute. lia.
  - reflexivity.
  - eexists. split; [reflexivity|]. vm_compute. lia.
  - vm_compute. lia.
  - simpl. lia.
Defined.

(** ** config.py: merging a configuration into the defaults *)

Section Config.
Context {A : Type}.
Implicit Types (d o : gmap string (value A)) (v : value A).

Lemma value_size_lookup (m : gmap string (value A)) :
  forall k v, m !! k = Some v ->
    value_size v <= map_fold (fun _ v' n => value_size v' + n) 0 m.
Proof.
  apply (map_fold_weak_ind
           (fun r (m : gmap string (value A)) =>
              forall k v, m !! k = Some v -> value_size v <= r)).
  - intros k v H. rewrite lookup_empty in H. discriminate.
  - intros i x m' r Hi IH k v H.
    destruct (decide (k = i)) as [->|Hne].
    + rewrite lookup_insert_eq in H. injection H as ->. lia.
    + rewrite lookup_insert_ne in H by congruence.
      specialize (IH k v H). lia.
Qed.

Lemma value_nested_ind (P : value A -> Prop) :
  (forall a, P (Leaf a)) ->
  (forall m, map_Forall (fun _ v => P v) m -> P (Dict m)) ->
  forall v, P v.
Proof.
  intros Hleaf Hdict v.
  remember (value_size v) as n eqn:Hn.
  revert v Hn. induction (lt_wf n) as [n _ IH]. intros [a|m] Hn.
  - apply Hleaf.
  - apply Hdict. intros k v Hk.
    apply (IH (value_size v)); [|reflexivity].
    pose proof (value_size_lookup m k v Hk). simpl in Hn. lia.
Qed.

Lemma deep_merge_lookup d o (k : string) :
  deep_merge d o !! k = merge_key deep_merge_value (d !! k) (o !! k).
Proof.
  unfold deep_merge. rewrite lookup_merge.
  destruct (d !! k), (o !! k); reflexivity.
Qed.

Lemma deep_merge_value_dict d o :
  deep_merge_value (Dict d) (Dict o) = Dict (deep_merge d o).
Proof. reflexivity. Qed.

(** The loop as written computes the same dict whatever the order in which
    the set of keys is iterated. *)
Lemma deep_merge_loop_eq d o :
  deep_merge_loop deep_merge_value d o = deep_merge d o.
Proof.
  unfold deep_merge_loop.
  assert (forall X : gset string,
            forall k,
              set_fold (fun key merged =>
                          match merge_key deep_merge_value (d !! key) (o !! key)
                          with
                          | Some v => <[key := v]> merged
                          | None => merged
                          end) (∅ : gmap string (value A)) X !! k
              = if decide (k ∈ X) then deep_merge d o !! k else None) as H.
  { apply (set_fold_ind_L
             (fun (r : gmap string (value A)) (X : gset string) =>
                forall k, r !! k
                          = if decide (k ∈ X) then deep_merge d o !! k
                            else None)).
    - intros k. rewrite lookup_empty.
      destruct (decide (k ∈ (∅ : gset string))) as [Hin|_]; [|reflexivity].
      apply not_elem_of_empty in Hin. contradiction.
    - intros x X r Hx IH k.
      pose proof (deep_merge_lookup d o x) as Hl.
      destruct (decide (k = x)) as [->|Hne].
      + destruct (decide (x ∈ {[x]} ∪ X)) as [_|Hn];
          [|exfalso; apply Hn; set_solver].
        rewrite Hl.
        destruct (merge_key deep_merge_value (d !! x) (o !! x)) as [v|].
        * apply lookup_insert_eq.
        * rewrite IH. destruct (decide (x ∈ X)); [contradiction|reflexivity].
      + assert (r !! k = if decide (k ∈ {[x]} ∪ X)
                         then deep_merge d o !! k else None) as Hk.
        { rewrite IH.
          destruct (decide (k ∈ X)) as [H1|H1],
                   (decide (k ∈ {[x]} ∪ X)) as [H2|H2];
            try reflexivity; exfalso.
          - apply H2, elem_of_union_r, H1.
          - apply elem_of_union in H2 as [H2|H2]; [|contradiction].
            apply elem_of_singleton in H2. contradiction. }
        destruct (merge_key deep_merge_value (d !! x) (o !! x)) as [v|];
          [rewrite lookup_insert_ne by congruence|]; exact Hk. }
  apply map_eq. intros k. rewrite H.
  destruct (decide (k ∈ dom d ∪ dom o)) as [_|Hn]; [reflexivity|].
  rewrite deep_merge_lookup.
  apply not_elem_of_union in Hn as [Hd Ho].
  apply not_elem_of_dom in Hd, Ho. rewrite Hd, Ho. reflexivity.
Qed.

Lemma silent_on_get_path (path : list string) :
  forall v, silent_on path v -> get_path path v = None.
Proof.
  induction path as [|k rest IH]; intros v H; simpl in *; [contradiction|].
  destruct v as [a|m]; [reflexivity|].
  destruct (m !! k) as [v'|]; [apply IH; exact H | reflexivity].
Qed.

(** X19.  Every setting of [override] -- a path of keys leading to a value that
    is not a dict -- holds in the merged dict, whatever [default] holds
    there. *)
Theorem deep_merge_override_setting_wins (path : list string) (a : A) :
  forall d o,
    get_path path (Dict o) = Some (Leaf a) ->
    get_path path (Dict (deep_merge d o)) = Some (Leaf a).
Proof.
  induction path as [|k rest IH]; intros d o H; [discriminate|].
  simpl in *. rewrite deep_merge_lookup.
  destruct (o !! k) as [ov|]; [|discriminate].
  destruct (d !! k) as [[b|md]|]; simpl; try exact H.
  destruct ov as [b|mo]; [exact H|].
  change (get_path rest (Dict (deep_merge md mo)) = Some (Leaf a)).
  apply IH. exact H.
Qed.

(** X20.  What [override] says nothing about is kept from [default]: if following
    [path] in [override] ends at a missing key, the merged dict holds at
    [path] exactly what [default] holds there (a value of any kind, or
    nothing). *)
Theorem deep_merge_default_setting_kept (path : list string) :
  forall d o,
    silent_on path (Dict o) ->
    get_path path (Dict (deep_merge d o)) = get_path path (Dict d).
Proof.
  induction path as [|k rest IH]; intros d o H; [contradiction|].
  simpl in *. rewrite deep_merge_lookup.
  destruct (o !! k) as [ov|].
  - assert (get_path rest ov = None) as Hov
        by (apply silent_on_get_path; exact H).
    destruct rest as [|k' rest']; [contradiction|].
    destruct ov as [b|mo]; [contradiction|].
    destruct (d !! k) as [[b|md]|]; simpl merge_key; cbv iota.
    + exact Hov.
    + change (get_path (k' :: rest') (Dict (deep_merge md mo))
              = get_path (k' :: rest') (Dict md)).
      apply IH. exact H.
    + exact Hov.
  - destruct (d !! k); reflexivity.
Qed.

(** X22.  Merging with the empty dict, on either side, changes nothing. *)
Theorem deep_merge_empty d :
  deep_merge d ∅ = d /\ deep_merge ∅ d = d.
Proof.
  split; apply map_eq; intros k; rewrite deep_merge_lookup, lookup_empty;
    destruct (d !! k); reflexivity.
Qed.

Lemma deep_merge_value_idemp v : deep_merge_value v v = v.
Proof.
  induction v as [a|m IH] using value_nested_ind; [reflexivity|].
  rewrite deep_merge_value_dict. f_equal.
  apply map_eq. intros k. rewrite deep_merge_lookup.
  destruct (m !! k) as [v|] eqn:E; [|reflexivity].
  specialize (IH k v E). simpl in IH.
  destruct v as [a|m']; [reflexivity|].
  change (Some (deep_merge_value (Dict m') (Dict m')) = Some (Dict m')).
  rewrite IH. reflexivity.
Qed.

(** X21.  Merging a dict with itself gives it back, at every depth. *)
Theorem deep_merge_idempotent d : deep_merge d d = d.
Proof.
  pose proof (deep_merge_value_idemp (Dict d)) as H.
  rewrite deep_merge_value_dict in H. injection H as H. exact H.
Qed.

(** X23.  Merging is not associative: when the middle layer holds a non-dict
    where the outer layers hold dicts, the grouping decides whether the
    first layer's settings survive. *)
Theorem deep_merge_not_associative (a : A) :
  exists x y z : gmap string (value A),
    deep_merge (deep_merge x y) z <> deep_merge x (deep_merge y z).
Proof.
  exists {[ "k"%string := Dict {[ "p"%string := Leaf a ]} ]},
         {[ "k"%string := Leaf a ]},
         {[ "k"%string := Dict {[ "q"%string := Leaf a ]} ]}.
  intros H.
  apply (f_equal (fun m => get_path ["k"; "p"]%string (Dict m))) in H.
  vm_compute in H. discriminate H.
Qed.

Lemma rename_env_deep_merge d (exp : gmap string (value A)) v :
  exp !! "env"%string = Some v ->
  exists v',
    deep_merge d exp !! "env"%string = Some v'
    /\ (forall a, v = Leaf a -> v' = v)
    /\ rename_env (deep_merge d exp)
       = inr (<["env_id"%string := v']>
                (delete "env"%string (deep_merge d exp))).
Proof.
  intros Hv. pose proof (deep_merge_lookup d exp "env"%string) as Hl.
  rewrite Hv in Hl. unfold rename_env.
  destruct (d !! "env"%string) as [[b|md]|]; simpl in Hl.
  - rewrite Hl. exists v. repeat split; auto.
  - destruct v as [b|mo]; rewrite Hl; eexists; repeat split; auto.
    intros a' [=].
  - rewrite Hl. exists v. repeat split; auto.
Qed.

(** X24.  [load_experiments] fails exactly when some experiment has no ['env']
    key -- an ['env'] in the defaults does not help -- and then with the
    [KeyError] of its check; it raises nothing else. *)
Theorem load_experiments_missing_env
    (default_cfg : gmap string (value A))
    (experiments : list (gmap string (value A))) :
  (load_experiments default_cfg experiments = inl (KeyError missing_env_msg)
   <-> Exists (fun exp => exp !! "env"%string = None) experiments)
  /\ (forall e, load_experiments default_cfg experiments = inl e ->
        e = KeyError missing_env_msg).
Proof.
  induction experiments as [|exp rest [IH1 IH2]]; simpl.
  - split; [|discriminate]. split; [discriminate|].
    intros H. inversion H.
  - destruct (exp !! "env"%string) as [v|] eqn:E.
    + destruct (rename_env_deep_merge default_cfg exp v E)
        as (v' & _ & _ & ->).
      destruct (load_experiments default_cfg rest) as [e|rs].
      * split.
        -- split.
           ++ intros H. apply Exists_cons_tl. apply IH1. exact H.
           ++ intros H. apply IH1. inversion H as [? ? H1|? ? H1]; subst;
                [congruence | exact H1].
        -- intros e' [= <-]. apply IH2. reflexivity.
      * split; [|discriminate]. split; [discriminate|].
        intros H. inversion H as [? ? H1|? ? H1]; subst; [congruence|].
        apply IH1 in H1. discriminate H1.
    + split.
      * split; [intros _; apply Exists_cons_hd; exact E | reflexivity].
      * intros e [= <-]. reflexivity.
Qed.

(** X25.  When every experiment names its environment, [load_experiments]
    returns one merged dict per experiment, in order.  Each has no ['env']
    key; its ['env_id'] is the experiment's own ['env'] when that is not a
    dict, whatever the defaults hold under ['env'] or ['env_id']; and every
    other key holds what [deep_merge] of the defaults and the experiment
    holds. *)
Theorem load_experiments_renames_env
    (default_cfg : gmap string (value A))
    (experiments : list (gmap string (value A))) :
  Forall (fun exp => is_Some (exp !! "env"%string)) experiments ->
  exists merged_list,
    load_experiments default_cfg experiments = inr merged_list
    /\ length merged_list = length experiments
    /\ forall i exp, experiments !! i = Some exp ->
         exists merged,
           merged_list !! i = Some merged
           /\ merged !! "env"%string = None
           /\ (forall a, exp !! "env"%string = Some (Leaf a) ->
                 merged !! "env_id"%string = Some (Leaf a))
           /\ (forall k, k <> "env"%string -> k <> "env_id"%string ->
                 merged !! k = deep_merge default_cfg exp !! k).
Proof.
  induction 1 as [|exp rest [v Hv] _ (rs & Hrs & Hlen & Hall)]; simpl.
  - exists []. split; [reflexivity|]. split; [reflexivity|].
    intros i exp H. rewrite lookup_nil in H. discriminate.
  - rewrite Hv.
    destruct (rename_env_deep_merge default_cfg exp v Hv)
      as (v' & Hl & Hleaf & ->).
    rewrite Hrs. eexists. split; [reflexivity|].
    split; [simpl; rewrite Hlen; reflexivity|].
    intros [|i] exp' Hi; simpl in Hi.
    + injection Hi as <-. eexists. split; [reflexivity|].
      split; [|split].
      * rewrite lookup_insert_ne by discriminate. apply lookup_delete_eq.
      * intros a Ha. rewrite lookup_insert_eq. f_equal.
        rewrite Hv in Ha. injection Ha as ->. apply (Hleaf a). reflexivity.
      * intros k Hk1 Hk2. rewrite lookup_insert_ne by congruence.
        apply lookup_delete_ne. congruence.
    + apply Hall. exact Hi.
Qed.

End Config.

Lemma deep_merge_override_setting_wins_witness :
  get_path ["ga_params"; "pop_size"]%string
    (Dict (deep_merge demo_default demo_experiment))
  = Some (Leaf "50"%string).
Proof.
  apply (deep_merge_override_setting_wins
           ["ga_params"; "pop_size"]%string "50"%string
           demo_default demo_experiment).
  vm_compute. reflexivity.
Defined.

Lemma deep_merge_default_setting_kept_witness :
  get_path ["ga_params"; "elitism"]%string
    (Dict (deep_merge demo_default demo_experiment))
  = Some (Leaf "True"%string).
Proof.
  rewrite (deep_merge_default_setting_kept
             ["ga_params"; "elitism"]%string demo_default demo_experiment).
  - vm_compute. reflexivity.
  - vm_compute. exact I.
Defined.

Lemma load_experiments_renames_env_witness :
  exists merged,
    load_experiments demo_default [demo_experiment] = inr [merged]
    /\ merged !! "env_id"%string = Some (Leaf "CartPole-v1"%string)
    /\ merged !! "env"%string = None.
Proof.
  destruct (load_experiments_renames_env demo_default [demo_experiment])
    as (rs & Hrun & Hlen & Hall).
  - constructor; [|constructor]. eexists. vm_compute. reflexivity.
  - destruct (Hall 0 demo_experiment eq_refl)
      as (merged & Hm & Hnone & Hid & _).
    destruct rs as [|r [|r' rs]]; try discriminate Hlen.
    injection Hm as ->.
    exists merged. split; [exact Hrun|]. split; [|exact Hnone].
    apply Hid. vm_compute. reflexivity.
Defined.
